(** * Movie watchlist: the linked-list engine of [Main.c]

    The C program keeps two singly linked lists of [Movie] nodes, the
    library and the watchlist, and moves nodes between them.  The
    development below embeds the list functions and the menu handlers that
    mutate the lists over an explicit memory of nodes, and states the
    properties of the specification about them.

    Conventions of the embedding:
    - a [Movie*] is an optional address, [NULL] being [None];
    - a [Movie** list] argument is passed as the current value of [*list]
      and the new value is returned next to the status; every caller in
      [Main.c] passes the address of a local variable, so the [list == NULL]
      test of the C functions never fires and is not represented;
    - reading or writing through [NULL] or through an address that holds no
      node is undefined behaviour in C and is the outcome [Fault];
    - every [while] loop that walks the [next] links takes a [fuel] bound
      and answers [Timeout] when it is used up;
    - [int] values are integers of [Z]; an increment beyond [INT_MAX] is
      undefined behaviour in C and is the outcome [Fault];
    - [double] values are the binary64 numbers of [PrimFloat];
    - what the program prints is not represented, except for
      [printMovieList], whose result is the sequence of printed movies. *)

From Stdlib Require Import ZArith Floats.
From stdpp Require Import gmap strings list fin_maps.

(** ** Nodes and memory *)

Abbreviation addr := positive.
Abbreviation ptr := (option positive).
Abbreviation NULL := (@None positive) (only parsing).

(** [struct Movie]: the two character arrays hold a C string of at most 34
    characters, which [createMovieNode] enforces. *)
Record Movie := mkMovie {
  title : string;
  genre : string;
  duration : float;
  next : ptr
}.

(** The allocated nodes, the number of allocations [calloc] will still
    grant before it starts to return [NULL], and [errno]. *)
Record mem := mkMem {
  cells : gmap positive Movie;
  avail : nat;
  errno : Z
}.

(** Status codes of [<errno.h>] (the values of Linux; the program only
    compares them with 0). *)
Definition ENOMEM : Z := 12.
Definition EINVAL : Z := 22.
Definition ERANGE : Z := 34.
Definition INT_MAX : Z := 2147483647.

(** ** Outcomes *)

Inductive outcome (A : Type) : Type :=
| Ret (a : A)
| Fault
| Timeout.
Arguments Ret {A} a.
Arguments Fault {A}.
Arguments Timeout {A}.

#[global] Instance outcome_ret : MRet outcome := fun A a => Ret a.
#[global] Instance outcome_bind : MBind outcome := fun A B f o =>
  match o with
  | Ret a => f a
  | Fault => Fault
  | Timeout => Timeout
  end.

(** ** Memory accesses *)

(** [p->field] for reading. *)
Definition deref (m : mem) (p : ptr) : outcome Movie :=
  match p with
  | Some a => match cells m !! a with
              | Some node => Ret node
              | None => Fault
              end
  | None => Fault
  end.

Definition with_next (node : Movie) (n : ptr) : Movie :=
  mkMovie (title node) (genre node) (duration node) n.

Definition poke (m : mem) (a : addr) (node : Movie) : mem :=
  mkMem (<[a := node]> (cells m)) (avail m) (errno m).

(** [p->next = n]. *)
Definition store_next (m : mem) (p n : ptr) : outcome mem :=
  match p with
  | Some a => match cells m !! a with
              | Some node => Ret (poke m a (with_next node n))
              | None => Fault
              end
  | None => Fault
  end.

Definition set_errno (m : mem) (e : Z) : mem :=
  mkMem (cells m) (avail m) e.

(** [++count] on an [int]. *)
Definition incr (count : Z) : outcome Z :=
  if (count <? INT_MAX)%Z then Ret (count + 1)%Z else Fault.

(** [calloc(1, sizeof(Movie))]: [NULL] when memory is exhausted, otherwise
    an address that holds no node yet, with every byte zero. *)
Definition calloc (m : mem) : ptr * mem :=
  match avail m with
  | O => (NULL, m)
  | S k =>
      let a := fresh (dom (cells m)) in
      (Some a, mkMem (<[a := mkMovie "" "" 0%float NULL]> (cells m)) k (errno m))
  end.

(** ** The list functions *)

(** [createMovieNode]: the [char*] arguments are optional strings; a title
    or genre of more than 34 characters is refused with [ERANGE], and the
    two [strcpy] fill the zeroed node. *)
Definition createMovieNode (t g : option string) (d : float) (m : mem)
  : ptr * mem :=
  match t, g with
  | Some ts, Some gs =>
      if (34 <? String.length ts)%nat then (NULL, set_errno m ERANGE)
      else if (34 <? String.length gs)%nat then (NULL, set_errno m ERANGE)
      else
        match calloc m with
        | (Some a, m1) => (Some a, poke m1 a (mkMovie ts gs d NULL))
        | (None, m1) => (NULL, set_errno m1 ENOMEM)
        end
  | _, _ => (NULL, set_errno m EINVAL)
  end.

(** [getCount]: the loop [while (list->next != NULL)]. *)
Fixpoint getCount_loop (fuel : nat) (m : mem) (list : ptr) (count : Z)
  : outcome Z :=
  match fuel with
  | O => Timeout
  | S fuel' =>
      node ← deref m list;
      match next node with
      | None => Ret count
      | Some _ =>
          count' ← incr count;
          getCount_loop fuel' m (next node) count'
      end
  end.

Definition getCount (fuel : nat) (m : mem) (list : ptr) : outcome Z :=
  match list with
  | None => Ret 0%Z
  | Some _ => count ← incr 0; getCount_loop fuel m list count
  end.

(** [insertMovie]: the result is the status, the new [*list] and the
    memory.  [prev] and [itr] are the two cursors of the C loop. *)
Fixpoint insertMovie_loop (fuel : nat) (m : mem) (list insertMovie : ptr)
    (position : Z) (prev itr : ptr) (count : Z) : outcome (Z * ptr * mem) :=
  match fuel with
  | O => Timeout
  | S fuel' =>
      if (count =? position)%Z then
        m1 ← match prev with
             | Some _ => store_next m prev insertMovie
             | None => Ret m
             end;
        m2 ← store_next m1 insertMovie itr;
        Ret (0%Z, if (position =? 0)%Z then insertMovie else list, m2)
      else
        node ← deref m itr;
        match next node with
        | None => Ret (ERANGE, list, m)
        | Some _ =>
            count' ← incr count;
            insertMovie_loop fuel' m list insertMovie position
              itr (next node) count'
        end
  end.

Definition insertMovie (fuel : nat) (m : mem) (list insertMovie : ptr)
    (position : Z) : outcome (Z * ptr * mem) :=
  match insertMovie with
  | None => Ret (EINVAL, list, m)
  | Some _ => insertMovie_loop fuel m list insertMovie position NULL list 0
  end.

(** [appendMovie]: the walk [while (head->next != NULL)] returns the last
    node. *)
Fixpoint appendMovie_walk (fuel : nat) (m : mem) (head : ptr) : outcome ptr :=
  match fuel with
  | O => Timeout
  | S fuel' =>
      node ← deref m head;
      match next node with
      | None => Ret head
      | Some _ => appendMovie_walk fuel' m (next node)
      end
  end.

Definition appendMovie (fuel : nat) (m : mem) (list appendMovie : ptr)
  : outcome (Z * ptr * mem) :=
  match appendMovie with
  | None => Ret (EINVAL, list, m)
  | Some _ =>
      '(list', m1) ← match list with
                     | None => Ret (appendMovie, m)
                     | Some _ =>
                         head ← appendMovie_walk fuel m list;
                         m1 ← store_next m head appendMovie;
                         Ret (list, m1)
                     end;
      m2 ← store_next m1 appendMovie NULL;
      Ret (0%Z, list', m2)
  end.

(** [removeMovie]: the result is the returned pointer, the new [*list] and
    the memory. *)
Fixpoint removeMovie_loop (fuel : nat) (m : mem) (removeMovie prev itr : ptr)
  : outcome (ptr * mem) :=
  match fuel with
  | O => Timeout
  | S fuel' =>
      if decide (itr = removeMovie) then
        node ← deref m itr;
        m1 ← store_next m prev (next node);
        m2 ← store_next m1 itr NULL;
        Ret (itr, m2)
      else
        node ← deref m itr;
        match next node with
        | None => Ret (NULL, m)
        | Some _ => removeMovie_loop fuel' m removeMovie itr (next node)
        end
  end.

Definition removeMovie (fuel : nat) (m : mem) (list removeMovie : ptr)
  : outcome (ptr * ptr * mem) :=
  match list, removeMovie with
  | Some _, Some _ =>
      if decide (removeMovie = list) then
        node ← deref m removeMovie;
        Ret (removeMovie, next node, m)
      else
        head ← deref m list;
        '(removedMovie, m') ← removeMovie_loop fuel m removeMovie list (next head);
        Ret (removedMovie, list, m')
  | _, _ => Ret (NULL, list, m)
  end.

(** [printMovieList]: the movies printed, in order; a line stands for
    [printf("%s (%s, %.2f hours)\n", ...)] and keeps the three fields. *)
Definition line : Type := string * string * float.
Definition lines : Type := list line.

Fixpoint printMovieList_loop (fuel : nat) (m : mem) (itr : ptr)
  : outcome lines :=
  match fuel with
  | O => Timeout
  | S fuel' =>
      node ← deref m itr;
      let printed : line := (title node, genre node, duration node) in
      match next node with
      | None => Ret [printed]
      | Some _ =>
          rest ← printMovieList_loop fuel' m (next node);
          Ret (printed :: rest)
      end
  end.

Definition printMovieList (fuel : nat) (m : mem) (list : ptr)
  : outcome lines :=
  match list with
  | None => Ret []
  | Some _ => printMovieList_loop fuel m list
  end.

(** [computeDuration]: the local [status] is set to [EINVAL] for an empty
    list but the function returns [duration] only, and [errno] is not
    written. *)
Fixpoint computeDuration_loop (fuel : nat) (m : mem) (itr : ptr)
    (total : float) : outcome float :=
  match fuel with
  | O => Timeout
  | S fuel' =>
      node ← deref m itr;
      let total' := (total + duration node)%float in
      match next node with
      | None => Ret total'
      | Some _ => computeDuration_loop fuel' m (next node) total'
      end
  end.

Definition computeDuration (fuel : nat) (m : mem) (list : ptr)
  : outcome float :=
  match list with
  | None => Ret 0%float
  | Some _ => computeDuration_loop fuel m list 0%float
  end.

(** [searchByTitle]: [strcmp(...) == 0] is equality of strings. *)
Fixpoint searchByTitle_loop (fuel : nat) (m : mem) (itr : ptr) (t : string)
  : outcome ptr :=
  match fuel with
  | O => Timeout
  | S fuel' =>
      node ← deref m itr;
      if String.eqb (title node) t then Ret itr
      else
        match next node with
        | None => Ret NULL
        | Some _ => searchByTitle_loop fuel' m (next node) t
        end
  end.

Definition searchByTitle (fuel : nat) (m : mem) (list : ptr)
    (t : option string) : outcome ptr :=
  match list, t with
  | Some _, Some s => searchByTitle_loop fuel m list s
  | _, _ => Ret NULL
  end.

(** [getNodePosition]: the loop never changes [index]. *)
Fixpoint getNodePosition_loop (fuel : nat) (m : mem) (itr : ptr) (t : string)
    (index : Z) : outcome Z :=
  match fuel with
  | O => Timeout
  | S fuel' =>
      node ← deref m itr;
      if String.eqb (title node) t then Ret index
      else
        match next node with
        | None => Ret (-1)%Z
        | Some _ => getNodePosition_loop fuel' m (next node) t index
        end
  end.

Definition getNodePosition (fuel : nat) (m : mem) (list : ptr)
    (t : option string) : outcome Z :=
  match list, t with
  | Some _, Some s => getNodePosition_loop fuel m list s 0
  | _, _ => Ret (-1)%Z
  end.

(** ** The menu handlers *)

(** The value that an [int] takes from the [long] that [strtol] returns: its
    low 32 bits, read as a signed number (the conversion of a value out of
    the range of [int] is implementation-defined; this is what the usual
    compilers do). *)
Definition to_int (v : Z) : Z := ((v + 2 ^ 31) mod 2 ^ 32 - 2 ^ 31)%Z.

(** [promptForInt]: [stdin] lists the values that [strtol] returns for the
    integers typed at the prompt (a line that is not an integer is asked
    again, like an integer out of range, and is left out of the list).  The
    value is stored in the [int integer] before it is compared with the
    bounds.  The prompt repeats until a value in range is typed; at the end
    of the input the C loop spins for ever. *)
Fixpoint promptForInt (minValue maxValue : Z) (stdin : list Z)
  : outcome (Z * list Z) :=
  match stdin with
  | [] => Timeout
  | typed :: rest =>
      let integer := to_int typed in
      if ((integer <? minValue) || (maxValue <? integer))%Z
      then promptForInt minValue maxValue rest
      else Ret (integer, rest)
  end.

Inductive AddMovieMenuOption := AddToBeginning | AddToEnd | InsertWithin.

(** [getAddMovieMenuOption]: [promptForInt(1, 3, ...)] read as the enum. *)
Definition getAddMovieMenuOption (stdin : list Z)
  : outcome (AddMovieMenuOption * list Z) :=
  '(option, rest) ← promptForInt 1 3 stdin;
  Ret (if (option =? 1)%Z then AddToBeginning
       else if (option =? 2)%Z then AddToEnd
       else InsertWithin, rest).

(** [handleAddMovieMenuOption]: the statuses of [insertMovie] and
    [appendMovie] and the pointer returned by [removeMovie] are dropped, as
    in the C code.  The [default] branch of the [switch] is not reached
    with an option read by [getAddMovieMenuOption].  [stdin] feeds the
    prompt for the position.  The result is the new library, the new
    watchlist and the memory. *)
Definition handleAddMovieMenuOption (fuel : nat) (option : AddMovieMenuOption)
    (movie library watchlist : ptr) (m : mem) (stdin : list Z)
  : outcome (ptr * ptr * mem) :=
  node ← deref m movie;
  let '(newMovie, m1) :=
    createMovieNode (Some (title node)) (Some (genre node)) (duration node) m in
  match option with
  | AddToBeginning =>
      '(_, watchlist', m2) ← insertMovie fuel m1 watchlist newMovie 0;
      '(_, library', m3) ← removeMovie fuel m2 library movie;
      Ret (library', watchlist', m3)
  | AddToEnd =>
      '(_, watchlist', m2) ← appendMovie fuel m1 watchlist newMovie;
      '(_, library', m3) ← removeMovie fuel m2 library movie;
      Ret (library', watchlist', m3)
  | InsertWithin =>
      count ← getCount fuel m1 watchlist;
      '(position, _) ← promptForInt 1 count stdin;
      '(_, watchlist', m2) ← insertMovie fuel m1 watchlist newMovie (position - 1);
      '(_, library', m3) ← removeMovie fuel m2 library movie;
      Ret (library', watchlist', m3)
  end.

(** [handleAddMovie]: [t] is the array [title] after
    [promptFor(title, 35)], that is the line typed at the first prompt, cut
    to 34 characters. *)
Definition handleAddMovie (fuel : nat) (t : string) (library watchlist : ptr)
    (m : mem) (stdin : list Z) : outcome (ptr * ptr * mem) :=
  movie ← searchByTitle fuel m library (Some t);
  match movie with
  | Some _ =>
      '(option, rest) ← getAddMovieMenuOption stdin;
      handleAddMovieMenuOption fuel option movie library watchlist m rest
  | None => Ret (library, watchlist, m)
  end.

(** [handleWatchlistMenuOption], case [MoveMovieUp]: [t] is the array
    [title] after [promptFor(title, 35)], that is the line typed at the
    prompt, cut to 34 characters (the same in the next two cases); the
    result is the new watchlist and the memory. *)
Fixpoint MoveMovieUp_loop (fuel : nat) (m : mem) (watchlist itr : ptr)
    (t : string) : outcome (ptr * mem) :=
  match fuel with
  | O => Timeout
  | S fuel' =>
      node ← deref m itr;
      succ ← deref m (next node);
      if String.eqb (title succ) t then
        let watchlist' :=
          if decide (itr = watchlist) then next node else watchlist in
        let temp := next succ in
        m1 ← store_next m (next node) itr;
        m2 ← store_next m1 itr temp;
        Ret (watchlist', m2)
      else MoveMovieUp_loop fuel' m watchlist (next node) t
  end.

Definition handleWatchlistMenuOption_MoveMovieUp (fuel : nat) (t : string)
    (watchlist : ptr) (m : mem) : outcome (ptr * mem) :=
  found ← searchByTitle fuel m watchlist (Some t);
  match found with
  | Some _ =>
      head ← deref m watchlist;
      if String.eqb (title head) t then Ret (watchlist, m)
      else MoveMovieUp_loop fuel m watchlist watchlist t
  | None => Ret (watchlist, m)
  end.

(** Case [MoveMovieDown]: the loop is [while (itr->next != NULL)]. *)
Fixpoint MoveMovieDown_loop (fuel : nat) (m : mem) (watchlist itr : ptr)
    (t : string) : outcome (ptr * mem) :=
  match fuel with
  | O => Timeout
  | S fuel' =>
      node ← deref m itr;
      match next node with
      | None => Ret (watchlist, m)
      | Some _ =>
          if String.eqb (title node) t then
            succ ← deref m (next node);
            let watchlist' :=
              if decide (itr = watchlist) then next node else watchlist in
            let temp := next succ in
            m1 ← store_next m (next node) itr;
            m2 ← store_next m1 itr temp;
            Ret (watchlist', m2)
          else MoveMovieDown_loop fuel' m watchlist (next node) t
      end
  end.

Definition handleWatchlistMenuOption_MoveMovieDown (fuel : nat) (t : string)
    (watchlist : ptr) (m : mem) : outcome (ptr * mem) :=
  found ← searchByTitle fuel m watchlist (Some t);
  match found with
  | Some _ => MoveMovieDown_loop fuel m watchlist watchlist t
  | None => Ret (watchlist, m)
  end.

(** Case [RemoveMovie]: the copy is created, the original is unlinked from
    the watchlist, then the copy is appended to the library. *)
Definition handleWatchlistMenuOption_RemoveMovie (fuel : nat) (t : string)
    (library watchlist : ptr) (m : mem) : outcome (ptr * ptr * mem) :=
  temp ← searchByTitle fuel m watchlist (Some t);
  match temp with
  | Some _ =>
      node ← deref m temp;
      let '(newMovie, m1) :=
        createMovieNode (Some (title node)) (Some (genre node))
          (duration node) m in
      '(_, watchlist', m2) ← removeMovie fuel m1 watchlist temp;
      '(_, library', m3) ← appendMovie fuel m2 library newMovie;
      Ret (library', watchlist', m3)
  | None => Ret (library, watchlist, m)
  end.

(** [loadMovieWatchlist]: [records] are the (title, genre, duration) triples
    that the [fgets]/[strtod] calls decode from the file, in file order; the
    loop runs once per record and stops at the first node that cannot be
    created.  The result is the returned watchlist, the new library and the
    memory.  The records being decoded already, the [ERANGE] that [strtod]
    stores in [errno] for a duration out of the range of [double] is not
    represented. *)
Fixpoint loadMovieWatchlist_loop (fuel : nat) (records : list line)
    (library watchlist : ptr) (m : mem) : outcome (ptr * ptr * mem) :=
  match records with
  | [] => Ret (watchlist, library, m)
  | (t, g, d) :: rest =>
      let '(movie, m1) := createMovieNode (Some t) (Some g) d m in
      match movie with
      | None => Ret (watchlist, library, m1)
      | Some _ =>
          '(_, watchlist', m2) ← appendMovie fuel m1 watchlist movie;
          node ← deref m2 movie;
          temp ← searchByTitle fuel m2 library (Some (title node));
          match temp with
          | Some _ =>
              '(_, library', m3) ← removeMovie fuel m2 library temp;
              loadMovieWatchlist_loop fuel rest library' watchlist' m3
          | None => loadMovieWatchlist_loop fuel rest library watchlist' m2
          end
      end
  end.

Definition loadMovieWatchlist (fuel : nat) (records : list line)
    (library : ptr) (m : mem) : outcome (ptr * ptr * mem) :=
  loadMovieWatchlist_loop fuel records library NULL m.

(** ** Releasing nodes *)

(** [free(p)]: nothing for [NULL]; releasing an address that holds no node
    is undefined behaviour.  The allocation is given back to [calloc]. *)
Definition free (m : mem) (p : ptr) : outcome mem :=
  match p with
  | None => Ret m
  | Some a =>
      match cells m !! a with
      | Some _ => Ret (mkMem (delete a (cells m)) (S (avail m)) (errno m))
      | None => Fault
      end
  end.

(** [deleteMovie]: the result is the status (0 or -1), the new [*list] and
    the memory. *)
Fixpoint deleteMovie_loop (fuel : nat) (m : mem) (deleteMovie prev itr : ptr)
  : outcome (Z * mem) :=
  match fuel with
  | O => Timeout
  | S fuel' =>
      if decide (itr = deleteMovie) then
        node ← deref m itr;
        m1 ← store_next m prev (next node);
        m2 ← store_next m1 itr NULL;
        m3 ← free m2 deleteMovie;
        Ret (0%Z, m3)
      else
        node ← deref m itr;
        match next node with
        | None => Ret ((-1)%Z, m)
        | Some _ => deleteMovie_loop fuel' m deleteMovie itr (next node)
        end
  end.

Definition deleteMovie (fuel : nat) (m : mem) (list deleteMovie : ptr)
  : outcome (Z * ptr * mem) :=
  match list, deleteMovie with
  | Some _, Some _ =>
      if decide (deleteMovie = list) then
        node ← deref m deleteMovie;
        m1 ← free m deleteMovie;
        Ret (0%Z, next node, m1)
      else
        head ← deref m list;
        '(status, m') ← deleteMovie_loop fuel m deleteMovie list (next head);
        Ret (status, list, m')
  | _, _ => Ret ((-1)%Z, list, m)
  end.

(** [deleteList]: [*list] is not written, so only the status and the
    memory are returned. *)
Fixpoint deleteList_loop (fuel : nat) (m : mem) (itr : ptr) : outcome mem :=
  match fuel with
  | O => Timeout
  | S fuel' =>
      node ← deref m itr;
      m1 ← free m itr;
      match next node with
      | None => Ret m1
      | Some _ => deleteList_loop fuel' m1 (next node)
      end
  end.

Definition deleteList (fuel : nat) (m : mem) (list : ptr) : outcome (Z * mem) :=
  match list with
  | None => Ret ((-1)%Z, m)
  | Some _ => m' ← deleteList_loop fuel m list; Ret (0%Z, m')
  end.

(** [loadMovieLibrary]: [records] are the decoded triples, as for
    [loadMovieWatchlist]; the file is taken to have been opened.  The loop
    keeps in [status] the status of the last [appendMovie].  As for
    [loadMovieWatchlist], what [strtod] stores in [errno] is not
    represented: it shows only in the [errno] of a load that succeeds. *)
Fixpoint loadMovieLibrary_loop (fuel : nat) (records : list line) (status : Z)
    (library : ptr) (m : mem) : outcome (Z * ptr * mem) :=
  match records with
  | [] => Ret (status, library, m)
  | (t, g, d) :: rest =>
      let '(movie, m1) := createMovieNode (Some t) (Some g) d m in
      match movie with
      | None => Ret (errno m1, library, m1)
      | Some _ =>
          '(status', library', m2) ← appendMovie fuel m1 library movie;
          loadMovieLibrary_loop fuel rest status' library' m2
      end
  end.

Definition loadMovieLibrary (fuel : nat) (records : list line) (m : mem)
  : outcome (ptr * mem) :=
  '(status, library, m1) ← loadMovieLibrary_loop fuel records 0 NULL m;
  if (status =? 0)%Z then Ret (library, m1)
  else
    '(_, m2) ← deleteList fuel m1 library;
    Ret (library, set_errno m2 status).

(** ** Text files *)

(** A stream opened for reading: the characters that were not read yet and
    the end-of-file indicator. *)
Record FILE := mkFILE {
  unread : string;
  at_eof : bool
}.

Definition fopen (text : string) : FILE := mkFILE text false.

Definition feof (stream : FILE) : bool := at_eof stream.

Definition newline : Ascii.ascii := Ascii.ascii_of_nat 10.

(** The characters [fgets] takes when it may still store [n] of them: it
    stops after a newline, or when the stream ends, which sets the
    indicator. *)
Fixpoint fgets_chars (n : nat) (s : string) : string * string * bool :=
  match n with
  | O => (EmptyString, s, false)
  | S n' =>
      match s with
      | EmptyString => (EmptyString, EmptyString, true)
      | String c s' =>
          if Ascii.eqb c newline then (String c EmptyString, s', false)
          else
            let '(taken, rest, ended) := fgets_chars n' s' in
            (String c taken, rest, ended)
      end
  end.

(** [fgets(buffer, size, stream)]: the result tells whether the call
    returned [buffer] rather than [NULL]; the array is left as it was when
    the stream ends before any character is read. *)
Definition fgets (buffer : string) (size : nat) (stream : FILE)
  : bool * string * FILE :=
  let '(taken, rest, ended) := fgets_chars (size - 1) (unread stream) in
  let stream' := mkFILE rest (at_eof stream || ended) in
  if ended && String.eqb taken EmptyString then (false, buffer, stream')
  else (true, taken, stream').

(** [fgetc(stream)]. *)
Definition fgetc (stream : FILE) : option Ascii.ascii * FILE :=
  match unread stream with
  | EmptyString => (None, mkFILE EmptyString true)
  | String c s => (Some c, mkFILE s (at_eof stream))
  end.

(** The string without its last character. *)
Fixpoint butlast (s : string) : string :=
  match s with
  | EmptyString => EmptyString
  | String c EmptyString => EmptyString
  | String c s' => String c (butlast s')
  end.

(** [s[strlen(s) - 1] = '\0'] on an array that holds [s] and no NUL
    character before its end, as a line read from a text without NUL
    characters: on the empty string the index is out of the array. *)
Definition chop (s : string) : outcome string :=
  match s with
  | EmptyString => Fault
  | _ => Ret (butlast s)
  end.

(** The three arrays [title], [genre] and [line] of the two loaders. *)
Record buffers := mkBuffers {
  title_buffer : string;
  genre_buffer : string;
  line_buffer : string
}.

(** The C string that an array holds: its characters before the first
    NUL. *)
Definition NUL : Ascii.ascii := Ascii.zero.

Fixpoint c_string (s : string) : string :=
  match s with
  | EmptyString => EmptyString
  | String c s' =>
      if Ascii.eqb c NUL then EmptyString else String c (c_string s')
  end.

(** [promptFor], without the printing of the prompt: the result is the
    returned length ([EOF] is -1), the C string left in the array and the
    stream.  [buffer] is not [NULL] in any call.  [strlen] and the trimming
    see what [fgets] stored up to its first NUL. *)
Fixpoint promptFor_flush (s : string) : FILE :=
  match s with
  | EmptyString => mkFILE EmptyString true
  | String c s' =>
      if Ascii.eqb c newline then mkFILE s' false else promptFor_flush s'
  end.

Fixpoint trim_newlines (s : string) : string :=
  match s with
  | EmptyString => EmptyString
  | String c s' =>
      match trim_newlines s' with
      | EmptyString =>
          if Ascii.eqb c newline then EmptyString else String c EmptyString
      | t => String c t
      end
  end.

Definition promptFor (buffer : string) (bufferSize : Z) (stdin : FILE)
  : Z * string * FILE :=
  if (0 <? bufferSize)%Z then
    match fgets EmptyString (Z.to_nat bufferSize) stdin with
    | (true, read, stdin1) =>
        let originalLength := String.length (c_string read) in
        let trimmed := trim_newlines (c_string read) in
        let newLength := String.length trimmed in
        (Z.of_nat newLength, trimmed,
         if (originalLength =? newLength)%nat then
           if feof stdin1 then stdin1 else promptFor_flush (unread stdin1)
         else stdin1)
    | (false, _, stdin1) => ((-1)%Z, EmptyString, stdin1)
    end
  else ((-1)%Z, buffer, stdin).

Section text.

(** [strtod(line, NULL)] and the text [printf] writes for ["%.2f"] belong to
    the C library. *)
Variable strtod : string → float.
Variable hours : float → string.

(** The body of the [while (!feof(input))] loop of both loaders up to the
    call of [createMovieNode]: the decoded record, the arrays and the
    stream.  The file is taken to hold no NUL character, so that the C
    string of an array is what [fgets] stored in it; [strtod] gives the
    value only, what it stores in [errno] is not represented. *)
Definition readRecord (b : buffers) (input : FILE)
  : outcome (line * buffers * FILE) :=
  let '(_, t, input1) := fgets (title_buffer b) 35 input in
  t' ← chop t;
  let '(_, g, input2) := fgets (genre_buffer b) 35 input1 in
  g' ← chop g;
  let '(_, l, input3) := fgets (line_buffer b) 100 input2 in
  Ret ((t', g', strtod l), mkBuffers t' g' l, input3).

(** [loadMovieWatchlist] on the text of the file, taken to have been
    opened; [steps] bounds the iterations of the [while] loop. *)
Fixpoint loadMovieWatchlist_text_loop (steps fuel : nat) (b : buffers)
    (input : FILE) (library watchlist : ptr) (m : mem)
  : outcome (ptr * ptr * mem) :=
  match steps with
  | O => Timeout
  | S steps' =>
      if feof input then Ret (watchlist, library, m)
      else
        '((t, g, d), b', input') ← readRecord b input;
        let '(movie, m1) := createMovieNode (Some t) (Some g) d m in
        match movie with
        | None => Ret (watchlist, library, m1)
        | Some _ =>
            '(_, watchlist', m2) ← appendMovie fuel m1 watchlist movie;
            node ← deref m2 movie;
            temp ← searchByTitle fuel m2 library (Some (title node));
            match temp with
            | Some _ =>
                '(_, library', m3) ← removeMovie fuel m2 library temp;
                loadMovieWatchlist_text_loop steps' fuel b' input'
                  library' watchlist' m3
            | None =>
                loadMovieWatchlist_text_loop steps' fuel b' input'
                  library watchlist' m2
            end
        end
  end.

Definition loadMovieWatchlist_text (steps fuel : nat) (text : string)
    (library : ptr) (m : mem) : outcome (ptr * ptr * mem) :=
  loadMovieWatchlist_text_loop steps fuel
    (mkBuffers EmptyString EmptyString EmptyString) (fopen text) library NULL m.

(** [loadMovieLibrary] on the text of the file. *)
Fixpoint loadMovieLibrary_text_loop (steps fuel : nat) (b : buffers)
    (input : FILE) (status : Z) (library : ptr) (m : mem)
  : outcome (Z * ptr * mem) :=
  match steps with
  | O => Timeout
  | S steps' =>
      if feof input then Ret (status, library, m)
      else
        '((t, g, d), b', input') ← readRecord b input;
        let '(movie, m1) := createMovieNode (Some t) (Some g) d m in
        match movie with
        | None => Ret (errno m1, library, m1)
        | Some _ =>
            '(status', library', m2) ← appendMovie fuel m1 library movie;
            loadMovieLibrary_text_loop steps' fuel b' input' status' library' m2
        end
  end.

Definition loadMovieLibrary_text (steps fuel : nat) (text : string) (m : mem)
  : outcome (ptr * mem) :=
  '(status, library, m1) ←
    loadMovieLibrary_text_loop steps fuel
      (mkBuffers EmptyString EmptyString EmptyString) (fopen text) 0 NULL m;
  if (status =? 0)%Z then Ret (library, m1)
  else
    '(_, m2) ← deleteList fuel m1 library;
    Ret (library, set_errno m2 status).

(** [saveMovieWatchlist], the file being opened for writing: the result is
    the status and the text written.  For an empty list no file is opened
    and [fclose] is called on [NULL]. *)
Fixpoint saveMovieWatchlist_loop (fuel : nat) (m : mem) (list : ptr)
  : outcome string :=
  match fuel with
  | O => Timeout
  | S fuel' =>
      node ← deref m list;
      let record :=
        title node +:+ String newline
          (genre node +:+ String newline (hours (duration node))) in
      match next node with
      | None => Ret record
      | Some _ =>
          rest ← saveMovieWatchlist_loop fuel' m (next node);
          Ret (record +:+ String newline rest)
      end
  end.

Definition saveMovieWatchlist (fuel : nat) (m : mem) (list : ptr)
  : outcome (Z * string) :=
  match list with
  | None => Fault
  | Some _ =>
      text ← saveMovieWatchlist_loop fuel m list;
      Ret (0%Z, text)
  end.

(** The records that the loop of the loaders decodes, one per iteration. *)
Fixpoint readRecords (steps : nat) (b : buffers) (input : FILE)
  : outcome (list line) :=
  match steps with
  | O => Timeout
  | S steps' =>
      if feof input then Ret []
      else
        '(r, b', input') ← readRecord b input;
        rest ← readRecords steps' b' input';
        Ret (r :: rest)
  end.

End text.

(** ** The sequence a list pointer stands for *)

(** [lseg m p q l]: following [next] from [p] visits the nodes at the
    addresses [l], in order, and then reaches [q]. *)
Fixpoint lseg (m : mem) (p q : ptr) (l : list addr) : Prop :=
  match l with
  | [] => p = q
  | a :: l' =>
      p = Some a ∧ ∃ node, cells m !! a = Some node ∧ lseg m (next node) q l'
  end.

(** A well-formed list: the walk from [p] ends at [NULL]. *)
Definition is_list (m : mem) (p : ptr) (l : list addr) : Prop :=
  lseg m p NULL l.

(** The data of a node, without its link. *)
Definition fields (node : Movie) : line :=
  (title node, genre node, duration node).

Definition fields_at (m : mem) (a : addr) : option line :=
  fields <$> cells m !! a.

Definition title_at (m : mem) (a : addr) : option string :=
  title <$> cells m !! a.

Definition duration_at (m : mem) (a : addr) : float :=
  match cells m !! a with
  | Some node => duration node
  | None => 0%float
  end.

(** Two memories whose nodes carry the same data: only links differ. *)
Definition same_fields (m m' : mem) : Prop :=
  ∀ a, fields_at m' a = fields_at m a.

(** The last address of a walk, or the cursor it started from. *)
Definition last_or (prev : ptr) (l : list addr) : ptr :=
  match last l with
  | Some a => Some a
  | None => prev
  end.

(** The sequence with [x] inserted so that it is the element at index [k]. *)
Definition insert_at {A} (k : nat) (x : A) (l : list A) : list A :=
  take k l ++ x :: drop k l.

(** The sequence without its first node whose title, read in [m], is [t]. *)
Fixpoint remove_title (m : mem) (t : string) (l : list addr) : list addr :=
  match l with
  | [] => []
  | a :: l' =>
      if decide (title_at m a = Some t) then l' else a :: remove_title m t l'
  end.

(** The library sequence after the titles [ts] were looked up and removed
    one after the other. *)
Definition remove_titles (m : mem) (ts : list string) (l : list addr)
  : list addr :=
  foldl (λ acc t, remove_title m t acc) l ts.

(** A decoded record whose title and genre fit the arrays of a node. *)
Definition fits (r : line) : Prop :=
  String.length r.1.1 ≤ 34 ∧ String.length r.1.2 ≤ 34.

#[global] Instance fits_dec (r : line) : Decision (fits r).
Proof. unfold fits. apply _. Defined.

(** The records up to the first whose node cannot be created, [quota]
    allocations being left: the first that does not fit, or the first after
    [quota] records. *)
Fixpoint creatable (quota : nat) (records : list line) {struct records}
  : list line :=
  match records, quota with
  | r :: rest, S quota' =>
      if decide (fits r) then r :: creatable quota' rest else []
  | _, _ => []
  end.

(** [lseg], decided by walking the memory. *)
Fixpoint lsegb (m : mem) (p q : ptr) (l : list addr) : bool :=
  match l with
  | [] => bool_decide (p = q)
  | a :: l' =>
      bool_decide (p = Some a) &&
      match cells m !! a with
      | Some node => lsegb m (next node) q l'
      | None => false
      end
  end.

(** ** Reference functions on sequences *)
(** The first address of [l] whose node, read in [m], has the title [t]. *)
Fixpoint first_titled (m : mem) (t : string) (l : list addr) : ptr :=
  match l with
  | [] => NULL
  | a :: l' =>
      if decide (title_at m a = Some t) then Some a else first_titled m t l'
  end.

(** The place the copy takes in the watchlist, for each way of adding. *)
Definition added (option : AddMovieMenuOption) (position : Z) (x : addr)
    (W : list addr) : list addr :=
  match option with
  | AddToBeginning => x :: W
  | AddToEnd => W ++ [x]
  | InsertWithin => insert_at (Z.to_nat (position - 1)) x W
  end.

(** ** Texts of records *)

Fixpoint no_newline (s : string) : bool :=
  match s with
  | EmptyString => true
  | String c s' => negb (Ascii.eqb c newline) && no_newline s'
  end.

Fixpoint no_nul (s : string) : bool :=
  match s with
  | EmptyString => true
  | String c s' => negb (Ascii.eqb c NUL) && no_nul s'
  end.

(** Three lines of a file, the last one without its newline. *)
Definition raw : Type := string * string * string.

Definition layout_record (r : raw) : string :=
  let '(t, g, x) := r in t +:+ String newline (g +:+ String newline x).

(** Records separated by newlines, with no newline after the last. *)
Fixpoint layout (L : list raw) : string :=
  match L with
  | [] => EmptyString
  | r :: L' =>
      match L' with
      | [] => layout_record r
      | _ => layout_record r +:+ String newline (layout L')
      end
  end.

(** Lines that the arrays of the loaders take in one [fgets] each. *)
Definition short_lines (r : raw) : Prop :=
  let '(t, g, x) := r in
  (no_newline t ∧ String.length t ≤ 33) ∧
  (no_newline g ∧ String.length g ≤ 33) ∧
  (no_newline x ∧ String.length x ≤ 98).

(** Lines of a text that holds no NUL character. *)
Definition c_lines (r : raw) : Prop :=
  let '(t, g, x) := r in no_nul t ∧ no_nul g ∧ no_nul x.

(** What [fprintf] writes for a node, and what the loaders decode from
    three complete lines. *)
Definition written (hours : float → string) (r : line) : raw :=
  let '(t, g, d) := r in (t, g, hours d).

Definition decoded (strtod : string → float) (r : raw) : line :=
  let '(t, g, x) := r in (t, g, strtod (x +:+ String newline EmptyString)).

(** ** Sample memories *)

(** The double nearest to 1.6. *)
Definition hours_1_6 : float := 0x1.999999999999ap+0%float.

Definition Alien (n : ptr) : Movie := mkMovie "Alien" "Sci-Fi" 1.5 n.
Definition Up (n : ptr) : Movie := mkMovie "Up" "Animation" hours_1_6 n.
Definition Heat (n : ptr) : Movie := mkMovie "Heat" "Crime" 2.75 n.
Definition Jaws (n : ptr) : Movie := mkMovie "Jaws" "Thriller" 2 n.

(** A memory holding the given nodes, with [quota] allocations left. *)
Definition shelf (nodes : list (addr * Movie)) (quota : nat) : mem :=
  mkMem (list_to_map nodes) quota 0.

(** The list Alien at address 1, and an unlinked node at address 2. *)
Definition one_and_spare : mem :=
  shelf [(1%positive, Alien NULL); (2%positive, Up NULL)] 8.

(** The list Alien, Up at address 1. *)
Definition two_movies : mem :=
  shelf [(1%positive, Alien (Some 2%positive)); (2%positive, Up NULL)] 8.

(** The list Alien, Up, Heat at address 1. *)
Definition three_movies : mem :=
  shelf [(1%positive, Alien (Some 2%positive));
         (2%positive, Up (Some 3%positive));
         (3%positive, Heat NULL)] 8.

(** The list Alien, Up, Heat at address 1, and an unlinked node at
    address 4. *)
Definition three_and_spare : mem :=
  shelf [(1%positive, Alien (Some 2%positive));
         (2%positive, Up (Some 3%positive));
         (3%positive, Heat NULL);
         (4%positive, Jaws NULL)] 8.

(** The list Alien, Up at address 1, the list Heat at address 3, and no
    memory left to allocate. *)
Definition exhausted : mem :=
  shelf [(1%positive, Alien (Some 2%positive));
         (2%positive, Up NULL);
         (3%positive, Heat NULL)] 0.

(** A library at address 1 in which two movies are titled Up. *)
Definition two_ups : mem :=
  shelf [(1%positive, Up (Some 2%positive));
         (2%positive, mkMovie "Up" "Drama" 2 NULL)] 8.

(** Three durations whose sum depends on the order of the additions:
    2^53, 1 and 1. *)
Definition long_and_shorts : mem :=
  shelf [(1%positive, mkMovie "A" "x" 9007199254740992 (Some 2%positive));
         (2%positive, mkMovie "B" "x" 1 (Some 3%positive));
         (3%positive, mkMovie "C" "x" 1 NULL)] 8.

Definition shorts_and_long : mem :=
  shelf [(1%positive, mkMovie "B" "x" 1 (Some 2%positive));
         (2%positive, mkMovie "C" "x" 1 (Some 3%positive));
         (3%positive, mkMovie "A" "x" 9007199254740992 NULL)] 8.

(** The library Alien, Up at address 1 and the watchlist Heat at address
    3. *)
Definition two_lists : mem :=
  shelf [(1%positive, Alien (Some 2%positive));
         (2%positive, Up NULL);
         (3%positive, Heat NULL)] 8.

(** The list Alien at address 1, with memory left for one node. *)
Definition one_left : mem := shelf [(1%positive, Alien NULL)] 1.

(** Stand-ins for ["%.2f"] and [strtod] on the durations of the samples. *)
Definition two_decimals (d : float) : string :=
  if PrimFloat.eqb d 1.5 then "1.50"
  else if PrimFloat.eqb d 2.75 then "2.75"
  else "1.60".

Definition leading_number (s : string) : float :=
  match String.substring 0 4 s with
  | "1.50" => 1.5
  | "2.75" => 2.75
  | _ => hours_1_6
  end%float.

Definition no_text : buffers := mkBuffers EmptyString EmptyString EmptyString.

(** The text of a file of two records, with no newline at its end. *)
Definition two_records : string :=
  layout [("Alien", "Sci-Fi", "1.50"); ("Up", "Animation", "1.60")].

(** * Properties *)

(** ** Outcomes and memory accesses *)

Lemma bind_Ret {A B} (a : A) (f : A → outcome B) : (Ret a ≫= f) = f a.
Proof. reflexivity. Qed.

Lemma deref_Some m a node :
  cells m !! a = Some node → deref m (Some a) = Ret node.
Proof. intros H. unfold deref. by rewrite H. Qed.

Lemma store_next_Some m a node n :
  cells m !! a = Some node →
  store_next m (Some a) n = Ret (poke m a (with_next node n)).
Proof. intros H. unfold store_next. by rewrite H. Qed.

Lemma cells_poke_eq m a node : cells (poke m a node) !! a = Some node.
Proof. unfold poke; simpl. apply lookup_insert_eq. Qed.

Lemma cells_poke_ne m a b node :
  a ≠ b → cells (poke m a node) !! b = cells m !! b.
Proof. intros H. unfold poke; simpl. by apply lookup_insert_ne. Qed.

Lemma with_next_id node : with_next node (next node) = node.
Proof. by destruct node. Qed.

Lemma mem_eq m m' :
  cells m = cells m' → avail m = avail m' → errno m = errno m' → m = m'.
Proof. destruct m, m'; simpl; by intros -> -> ->. Qed.

Lemma poke_id m a node : cells m !! a = Some node → poke m a node = m.
Proof.
  intros H. apply mem_eq; try done. unfold poke; simpl. by apply insert_id.
Qed.

Lemma incr_ok count : (count < INT_MAX)%Z → incr count = Ret (count + 1)%Z.
Proof.
  intros H. unfold incr.
  by destruct (Z.ltb_spec count INT_MAX); [|lia].
Qed.

(** ** The data of the nodes *)

Lemma same_fields_refl m : same_fields m m.
Proof. by intros a. Qed.

Lemma same_fields_trans m1 m2 m3 :
  same_fields m1 m2 → same_fields m2 m3 → same_fields m1 m3.
Proof. intros H1 H2 a. by rewrite H2, H1. Qed.

Lemma same_fields_poke m a node n :
  cells m !! a = Some node → same_fields m (poke m a (with_next node n)).
Proof.
  intros H b. unfold fields_at. destruct (decide (a = b)) as [<-|Hne].
  - by rewrite cells_poke_eq, H.
  - by rewrite cells_poke_ne.
Qed.

Lemma same_fields_poke2 m b nodeb nb a nodea na :
  cells m !! b = Some nodeb → cells m !! a = Some nodea → a ≠ b →
  same_fields m (poke (poke m b (with_next nodeb nb)) a (with_next nodea na)).
Proof.
  intros Hb Ha Hne.
  apply (same_fields_trans _ (poke m b (with_next nodeb nb))).
  - by apply same_fields_poke.
  - apply same_fields_poke. by rewrite cells_poke_ne.
Qed.

Lemma title_at_Some m a node :
  cells m !! a = Some node → title_at m a = Some (title node).
Proof. intros H. unfold title_at. by rewrite H. Qed.

Lemma title_at_fields m a : title_at m a = (λ f : line, f.1.1) <$> fields_at m a.
Proof. unfold title_at, fields_at. by destruct (cells m !! a). Qed.

Lemma same_fields_title m m' a : same_fields m m' → title_at m' a = title_at m a.
Proof. intros H. by rewrite !title_at_fields, H. Qed.

Lemma fields_at_Some m a f :
  fields_at m a = Some f →
  ∃ node, cells m !! a = Some node ∧ fields node = f.
Proof.
  unfold fields_at. destruct (cells m !! a) as [node|]; [|done].
  intros [= <-]. by exists node.
Qed.

Lemma fields_at_is_Some m a : is_Some (fields_at m a) ↔ is_Some (cells m !! a).
Proof. unfold fields_at. by rewrite fmap_is_Some. Qed.

(** ** Sequences of addresses *)

Lemma snoc_app {A} (l : list A) a l' : (l ++ [a]) ++ l' = l ++ a :: l'.
Proof. by rewrite <- app_assoc. Qed.

Lemma elem_of_middle (l1 l2 : list addr) a : a ∈ l1 ++ a :: l2.
Proof. apply elem_of_app. right. by left. Qed.

Lemma elem_of_without (l1 l2 : list addr) a c : c ∈ l1 ++ l2 → c ∈ l1 ++ a :: l2.
Proof.
  intros [H|H]%elem_of_app; apply elem_of_app; [by left|right; by right].
Qed.

Lemma last_or_cons prev a l : last_or prev (a :: l) = last_or (Some a) l.
Proof.
  unfold last_or. destruct l as [|b l]; [done|].
  rewrite last_cons_cons. destruct (last (b :: l)) eqn:E; [done|].
  by apply last_None in E.
Qed.

Lemma last_or_snoc prev l b : last_or prev (l ++ [b]) = Some b.
Proof. unfold last_or. by rewrite last_snoc. Qed.

Lemma insert_at_lookup {A} (k : nat) (x : A) l :
  k ≤ length l → insert_at k x l !! k = Some x.
Proof.
  intros Hk. unfold insert_at.
  rewrite lookup_app_r; rewrite length_take; [|lia].
  replace (k - k `min` length l) with 0 by lia. done.
Qed.

Lemma insert_at_length {A} (k : nat) (x : A) l :
  length (insert_at k x l) = S (length l).
Proof.
  unfold insert_at. rewrite length_app. simpl.
  rewrite length_take, length_drop. lia.
Qed.

(** ** Segments and lists *)

Lemma lseg_frame m m' p q l :
  (∀ a, a ∈ l → cells m' !! a = cells m !! a) →
  lseg m p q l → lseg m' p q l.
Proof.
  revert p. induction l as [|a l IH]; intros p Hfr; simpl; [done|].
  intros [-> (node & Ha & Hl)]. split; [done|]. exists node. split.
  - rewrite Hfr; [done|]. by left.
  - apply IH; [|done]. intros b Hb. apply Hfr. by right.
Qed.

Lemma lseg_poke m p q l a node :
  a ∉ l → lseg m p q l → lseg (poke m a node) p q l.
Proof.
  intros Ha. apply lseg_frame. intros b Hb.
  apply cells_poke_ne. by intros ->.
Qed.

Lemma lseg_app m p q l1 l2 :
  lseg m p q (l1 ++ l2) ↔ ∃ r, lseg m p r l1 ∧ lseg m r q l2.
Proof.
  revert p. induction l1 as [|a l1 IH]; intros p; simpl.
  - split; [intros H; by exists p|intros (r & -> & H); done].
  - split.
    + intros [-> (node & Ha & Hl)]. apply IH in Hl as (r & H1 & H2).
      exists r. split; [|done]. split; [done|]. by exists node.
    + intros (r & [-> (node & Ha & Hl)] & H2). split; [done|].
      exists node. split; [done|]. apply IH. by exists r.
Qed.

Lemma lseg_snoc m p q l b :
  lseg m p q (l ++ [b]) ↔
  lseg m p (Some b) l ∧ ∃ node, cells m !! b = Some node ∧ next node = q.
Proof.
  rewrite lseg_app. simpl. split.
  - intros (r & H1 & -> & node & Hb & Hq). split; [done|]. by exists node.
  - intros (H1 & node & Hb & Hq). exists (Some b). split; [done|].
    split; [done|]. by exists node.
Qed.

(** A walk that has not reached its end [q], which is not [NULL], stands
    on a node that has a successor. *)
Lemma lseg_next_Some m node q a l :
  lseg m (next node) q l → a :: l = [] ∨ q ≠ NULL →
  (∃ n, next node = Some n) ∧ (l = [] ∨ q ≠ NULL).
Proof.
  intros Hl [?|Hq]; [done|]. split; [|by right].
  destruct l as [|b l]; simpl in Hl.
  - subst q. destruct (next node); [by eexists|done].
  - destruct Hl as [-> _]. by eexists.
Qed.

Lemma is_list_nil m p : is_list m p [] ↔ p = NULL.
Proof. reflexivity. Qed.

Lemma is_list_cons m p a l :
  is_list m p (a :: l) ↔
  p = Some a ∧ ∃ node, cells m !! a = Some node ∧ is_list m (next node) l.
Proof. reflexivity. Qed.

Lemma is_list_func m p l1 l2 : is_list m p l1 → is_list m p l2 → l1 = l2.
Proof.
  unfold is_list. revert p l2.
  induction l1 as [|a l1 IH]; intros p [|b l2]; simpl; try done.
  - intros -> [? _]. done.
  - intros [-> _] ?. done.
  - intros [-> (n1 & H1 & Hl1)] [[= <-] (n2 & H2 & Hl2)].
    rewrite H1 in H2. injection H2 as <-. f_equal. by eapply IH.
Qed.

Lemma is_list_NoDup m p l : is_list m p l → NoDup l.
Proof.
  unfold is_list. revert p. induction l as [|a l IH]; intros p; simpl.
  - constructor.
  - intros [-> (node & Ha & Hl)]. constructor; [|by eapply IH].
    intros Hin. apply list_elem_of_split in Hin as (l1 & l2 & ->).
    pose proof Hl as Hl'. apply lseg_app in Hl' as (r & _ & Hr).
    assert (a :: l2 = a :: l1 ++ a :: l2) as Heq.
    { eapply (is_list_func m (Some a)); unfold is_list.
      - destruct Hr as [-> Hr]. simpl. done.
      - simpl. split; [done|]. by exists node. }
    apply (f_equal length) in Heq. simpl in Heq.
    rewrite length_app in Heq. simpl in Heq. lia.
Qed.

Lemma is_list_cell m p l a :
  is_list m p l → a ∈ l → ∃ node, cells m !! a = Some node.
Proof.
  unfold is_list. revert p. induction l as [|b l IH]; intros p; simpl.
  - intros _ H. by apply elem_of_nil in H.
  - intros [-> (node & Hb & Hl)] Hin.
    apply elem_of_cons in Hin as [->|Hin]; [by exists node|].
    by eapply IH.
Qed.

Lemma lsegb_sound m p q l : lsegb m p q l = true → lseg m p q l.
Proof.
  revert p. induction l as [|a l IH]; intros p; simpl.
  - intros H. by apply bool_decide_eq_true in H.
  - intros [Hp Hl]%andb_true_iff. apply bool_decide_eq_true in Hp.
    split; [done|]. destruct (cells m !! a) as [node|]; [|done].
    exists node. split; [done|]. by apply IH.
Qed.

Lemma is_list_sound m p l : lsegb m p NULL l = true → is_list m p l.
Proof. apply lsegb_sound. Qed.

(** ** getCount *)

Lemma getCount_loop_spec m l : ∀ a fuel count,
  is_list m (Some a) (a :: l) →
  length l < fuel →
  (count + Z.of_nat (length l) ≤ INT_MAX)%Z →
  getCount_loop fuel m (Some a) count = Ret (count + Z.of_nat (length l))%Z.
Proof.
  induction l as [|b l IH]; intros a fuel count [_ (node & Ha & Hl)] Hf Hc;
    (destruct fuel as [|fuel]; [simpl in Hf; lia|]); cbn [getCount_loop];
    simpl in Hl, Hf, Hc.
  - rewrite (deref_Some _ _ _ Ha), bind_Ret, Hl. simpl length. f_equal. lia.
  - rewrite (deref_Some _ _ _ Ha), bind_Ret.
    destruct Hl as [Hn Hl]. rewrite Hn.
    rewrite incr_ok, bind_Ret by lia.
    rewrite IH; [simpl length; f_equal; lia| |lia|lia].
    split; [done|]. done.
Qed.

Lemma getCount_spec m p l fuel :
  is_list m p l →
  length l ≤ fuel →
  (Z.of_nat (length l) ≤ INT_MAX)%Z →
  getCount fuel m p = Ret (Z.of_nat (length l)).
Proof.
  intros Hl Hf Hc. destruct l as [|a l].
  - apply is_list_nil in Hl. by subst p.
  - pose proof Hl as [-> _]%is_list_cons. unfold getCount.
    rewrite incr_ok, bind_Ret by (unfold INT_MAX; lia).
    rewrite (getCount_loop_spec m l); [f_equal; simpl; lia|done|simpl in Hf; lia|simpl in Hc; lia].
Qed.

(** ** insertMovie *)

(** Walking [l1] with the cursors of [insertMovie]. *)
Lemma insertMovie_loop_walk m list ins position q l1 : ∀ fuel prev itr count,
  lseg m itr q l1 →
  (l1 = [] ∨ q ≠ NULL) →
  (∀ i : nat, i < length l1 → (count + Z.of_nat i)%Z ≠ position) →
  (count + Z.of_nat (length l1) ≤ INT_MAX)%Z →
  insertMovie_loop (length l1 + fuel) m list ins position prev itr count =
  insertMovie_loop fuel m list ins position (last_or prev l1) q
    (count + Z.of_nat (length l1)).
Proof.
  induction l1 as [|a l1 IH]; intros fuel prev itr count Hl Hq Hne Hc.
  - simpl in *. subst itr. unfold last_or; simpl. f_equal. lia.
  - destruct Hl as [-> (node & Ha & Hl)].
    change (length (a :: l1) + fuel) with (S (length l1 + fuel)).
    cbn [insertMovie_loop].
    destruct (Z.eqb_spec count position) as [Heq|_].
    { exfalso. apply (Hne 0); [simpl; lia|lia]. }
    rewrite (deref_Some _ _ _ Ha), bind_Ret.
    destruct (lseg_next_Some _ _ _ a _ Hl Hq) as [[n Hn] Hq'].
    rewrite Hn. simpl length in Hc. rewrite incr_ok, bind_Ret by lia.
    rewrite <- Hn. rewrite IH; [|done| | |].
    + rewrite last_or_cons. f_equal. simpl length. lia.
    + exact Hq'.
    + intros i Hi. specialize (Hne (S i)). simpl in Hne.
      replace (count + 1 + Z.of_nat i)%Z with (count + Z.of_nat (S i))%Z by lia.
      apply Hne. lia.
    + lia.
Qed.

Lemma insertMovie_head fuel m list x nodex :
  cells m !! x = Some nodex →
  insertMovie (S fuel) m list (Some x) 0 =
  Ret (0%Z, Some x, poke m x (with_next nodex list)).
Proof.
  intros Hx. unfold insertMovie. cbn [insertMovie_loop]. simpl Z.eqb. cbv iota.
  by rewrite bind_Ret, (store_next_Some _ _ _ _ Hx), bind_Ret.
Qed.

Lemma insertMovie_after fuel m list l1 b nodeb x nodex :
  lseg m list (Some b) l1 →
  cells m !! b = Some nodeb →
  next nodeb ≠ NULL →
  cells m !! x = Some nodex →
  x ≠ b →
  S (length l1) < fuel →
  (Z.of_nat (length l1) < INT_MAX)%Z →
  insertMovie fuel m list (Some x) (Z.of_nat (S (length l1))) =
  Ret (0%Z, list,
       poke (poke m b (with_next nodeb (Some x))) x (with_next nodex (next nodeb))).
Proof.
  intros Hl Hb Hq Hx Hne Hf Hc. unfold insertMovie.
  replace fuel with (length (l1 ++ [b]) + (fuel - S (length l1)))
    by (rewrite length_app; simpl; lia).
  rewrite (insertMovie_loop_walk m list (Some x) _ (next nodeb)).
  - rewrite last_or_snoc.
    destruct (fuel - S (length l1)) as [|f] eqn:Ef; [lia|].
    cbn [insertMovie_loop]. rewrite length_app. simpl length.
    replace (0 + Z.of_nat (length l1 + 1))%Z with (Z.of_nat (S (length l1))) by lia.
    rewrite Z.eqb_refl.
    rewrite (store_next_Some _ _ _ _ Hb), bind_Ret.
    rewrite (store_next_Some _ _ (nodex)), bind_Ret.
    + destruct (Z.eqb_spec (Z.of_nat (S (length l1))) 0); [lia|done].
    + rewrite cells_poke_ne; [done|]. congruence.
  - apply lseg_snoc. split; [done|]. by exists nodeb.
  - by right.
  - intros i Hi. rewrite length_app in Hi. simpl in Hi. lia.
  - rewrite length_app. simpl. lia.
Qed.

Lemma insertMovie_range fuel m list l x position :
  is_list m list l → l ≠ [] →
  (position < 0 ∨ Z.of_nat (length l) ≤ position)%Z →
  length l < fuel →
  (Z.of_nat (length l) ≤ INT_MAX)%Z →
  insertMovie fuel m list (Some x) position = Ret (ERANGE, list, m).
Proof.
  intros Hl Hne Hpos Hf Hc. unfold insertMovie.
  destruct (exists_last Hne) as (l1 & b & ->).
  apply lseg_snoc in Hl as (Hl & nodeb & Hb & Hq).
  rewrite length_app in Hf, Hc, Hpos. simpl in Hf, Hc, Hpos.
  replace fuel with (length l1 + (fuel - length l1)) by lia.
  rewrite (insertMovie_loop_walk m list (Some x) _ (Some b)); [|done|by right|intros; lia|lia].
  destruct (fuel - length l1) as [|f] eqn:Ef; [lia|].
  cbn [insertMovie_loop].
  destruct (Z.eqb_spec (0 + Z.of_nat (length l1)) position) as [?|_]; [lia|].
  by rewrite (deref_Some _ _ _ Hb), bind_Ret, Hq.
Qed.

Lemma is_list_insert_head m list l x nodex :
  is_list m list l → cells m !! x = Some nodex → x ∉ l →
  is_list (poke m x (with_next nodex list)) (Some x) (x :: l).
Proof.
  intros Hl Hx Hnin. apply is_list_cons. split; [done|].
  exists (with_next nodex list). split; [apply cells_poke_eq|].
  simpl. by apply lseg_poke.
Qed.

Lemma is_list_insert_after m list l1 b l2 nodeb x nodex :
  is_list m list (l1 ++ b :: l2) →
  cells m !! b = Some nodeb →
  cells m !! x = Some nodex →
  x ∉ l1 ++ b :: l2 →
  is_list (poke (poke m b (with_next nodeb (Some x))) x
             (with_next nodex (next nodeb)))
    list (l1 ++ b :: x :: l2).
Proof.
  intros Hl Hb Hx Hnin. pose proof (is_list_NoDup _ _ _ Hl) as Hnd.
  apply NoDup_app in Hnd as (_ & Hdisj & Hnd2).
  apply NoDup_cons in Hnd2 as [Hb2 _].
  apply not_elem_of_app in Hnin as [Hx1 Hx2].
  apply not_elem_of_cons in Hx2 as [Hxb Hx2].
  apply lseg_app in Hl as (r & H1 & [-> (nodeb' & Hb' & H2)]).
  rewrite Hb in Hb'. injection Hb' as <-.
  apply lseg_app. exists (Some b). split.
  - apply lseg_poke; [done|]. apply lseg_poke; [|done].
    intros Hin. apply (Hdisj b Hin). by left.
  - split; [done|]. exists (with_next nodeb (Some x)). split.
    { rewrite cells_poke_ne by done. apply cells_poke_eq. }
    split; [done|]. exists (with_next nodex (next nodeb)).
    split; [apply cells_poke_eq|]. simpl.
    apply lseg_poke; [done|]. by apply lseg_poke.
Qed.

(** A successful insertion, at the head or after a node. *)
Lemma insertMovie_ok fuel m list l1 l2 x nodex :
  is_list m list (l1 ++ l2) →
  cells m !! x = Some nodex →
  x ∉ l1 ++ l2 →
  l1 = [] ∨ l2 ≠ [] →
  length (l1 ++ l2) < fuel →
  (Z.of_nat (length (l1 ++ l2)) < INT_MAX)%Z →
  ∃ list' m',
    insertMovie fuel m list (Some x) (Z.of_nat (length l1)) = Ret (0%Z, list', m') ∧
    is_list m' list' (l1 ++ x :: l2) ∧ same_fields m m'.
Proof.
  intros Hl Hx Hnin Hcase Hf Hc.
  destruct l1 as [|h l1 _] using rev_ind.
  - destruct fuel as [|fuel]; [lia|]. simpl length.
    rewrite (insertMovie_head _ _ _ _ _ Hx). do 2 eexists. split; [done|].
    split; [by apply is_list_insert_head|by apply same_fields_poke].
  - destruct Hcase as [Hcase|Hl2]; [by destruct l1|].
    rewrite <- app_assoc in Hl, Hnin. simpl in Hl, Hnin.
    rewrite !length_app in Hf, Hc. simpl in Hf, Hc.
    pose proof Hl as Hl'.
    apply lseg_app in Hl' as (r & H1 & [-> (nodeh & Hh & H2)]).
    assert (next nodeh ≠ NULL) as Hq.
    { destruct l2 as [|c l2]; [done|]. destruct H2 as [-> _]. done. }
    assert (x ≠ h) as Hxh.
    { intros ->. apply Hnin. apply elem_of_app. right. by left. }
    rewrite length_app. simpl length.
    replace (length l1 + 1) with (S (length l1)) by lia.
    rewrite (insertMovie_after fuel m list l1 h nodeh x nodex); [|done..|lia|lia].
    do 2 eexists. split; [done|]. split.
    + rewrite <- app_assoc. simpl. by apply is_list_insert_after.
    + eapply same_fields_trans; [by apply same_fields_poke|].
      apply same_fields_poke. by rewrite cells_poke_ne.
Qed.

(** C1, as amended: [insertMovie] succeeds at position 0 of any list and
    at every position below the count of a list; the inserted node is then
    the element at that index and the count has grown by one.  On a list
    that is not empty it fails with [ERANGE], leaving the list as it was,
    exactly when the position is negative or at least the count. *)
Theorem insertMovie_positions fuel m list l x nodex position :
  is_list m list l →
  cells m !! x = Some nodex →
  x ∉ l →
  length l < fuel →
  (Z.of_nat (length l) < INT_MAX)%Z →
  ((position = 0 ∨ 0 < position < Z.of_nat (length l))%Z →
   ∃ list' m',
     insertMovie fuel m list (Some x) position = Ret (0%Z, list', m') ∧
     is_list m' list' (insert_at (Z.to_nat position) x l) ∧
     insert_at (Z.to_nat position) x l !! Z.to_nat position = Some x ∧
     same_fields m m' ∧
     getCount fuel m' list' = Ret (Z.of_nat (length l) + 1)%Z) ∧
  (l ≠ [] →
   insertMovie fuel m list (Some x) position = Ret (ERANGE, list, m) ↔
   (position < 0 ∨ Z.of_nat (length l) ≤ position)%Z).
Proof.
  intros Hl Hx Hnin Hf Hc.
  assert ((position = 0 ∨ 0 < position < Z.of_nat (length l))%Z →
   ∃ list' m',
     insertMovie fuel m list (Some x) position = Ret (0%Z, list', m') ∧
     is_list m' list' (insert_at (Z.to_nat position) x l) ∧
     insert_at (Z.to_nat position) x l !! Z.to_nat position = Some x ∧
     same_fields m m' ∧
     getCount fuel m' list' = Ret (Z.of_nat (length l) + 1)%Z) as Hok.
  { intros Hpos. set (k := Z.to_nat position).
    assert (k ≤ length l) as Hk by lia.
    assert (position = Z.of_nat (length (take k l))) as Hp.
    { rewrite length_take. lia. }
    pose proof (take_drop k l) as Hsplit.
    destruct (insertMovie_ok fuel m list (take k l) (drop k l) x nodex)
      as (list' & m' & Hins & Hl' & Hsf).
    - by rewrite Hsplit.
    - done.
    - by rewrite Hsplit.
    - destruct (decide (k = 0)) as [->|Hk0]; [by left|right].
      intros Hd. apply (f_equal length) in Hd. rewrite length_drop in Hd.
      simpl in Hd. lia.
    - by rewrite Hsplit.
    - by rewrite Hsplit.
    - exists list', m'. rewrite Hp at 1. split; [done|].
      split; [done|]. split; [by apply insert_at_lookup|]. split; [done|].
      rewrite (getCount_spec m' list' (insert_at k x l)); try done.
      + rewrite insert_at_length. f_equal. lia.
      + rewrite insert_at_length. lia.
      + rewrite insert_at_length. lia. }
  split; [done|]. intros Hne. split.
  - intros Herr.
    destruct (decide (position < 0 ∨ Z.of_nat (length l) ≤ position)%Z) as [|Hin];
      [done|].
    destruct Hok as (list' & m' & Hins & _).
    { destruct l; [done|]. simpl length in *. lia. }
    rewrite Hins in Herr. discriminate Herr.
  - intros Hpos. apply (insertMovie_range fuel m list l); try done. lia.
Qed.

(** ** removeMovie *)

Lemma removeMovie_loop_walk m rm q l : ∀ fuel prev itr,
  lseg m itr q l →
  (l = [] ∨ q ≠ NULL) →
  (∀ c, c ∈ l → Some c ≠ rm) →
  removeMovie_loop (length l + fuel) m rm prev itr =
  removeMovie_loop fuel m rm (last_or prev l) q.
Proof.
  induction l as [|a l IH]; intros fuel prev itr Hl Hq Hne.
  - simpl in Hl. by subst itr.
  - destruct Hl as [-> (node & Ha & Hl)].
    change (length (a :: l) + fuel) with (S (length l + fuel)).
    cbn [removeMovie_loop].
    case_decide as Heq.
    { exfalso. apply (Hne a); [by left|done]. }
    rewrite (deref_Some _ _ _ Ha), bind_Ret.
    destruct (lseg_next_Some _ _ _ a _ Hl Hq) as [[n Hn] Hq'].
    rewrite Hn. cbv iota. rewrite <- Hn, IH, last_or_cons; [done|done| |].
    + exact Hq'.
    + intros c Hc. apply Hne. by right.
Qed.

Lemma removeMovie_head fuel m a node :
  cells m !! a = Some node →
  removeMovie fuel m (Some a) (Some a) = Ret (Some a, next node, m).
Proof.
  intros Ha. unfold removeMovie. rewrite decide_True by done.
  by rewrite (deref_Some _ _ _ Ha), bind_Ret.
Qed.

Lemma removeMovie_after fuel m list l1 b nodeb a nodea :
  lseg m list (Some b) l1 →
  cells m !! b = Some nodeb → next nodeb = Some a →
  cells m !! a = Some nodea →
  a ∉ l1 → a ≠ b →
  S (length l1) < fuel →
  removeMovie fuel m list (Some a) =
  Ret (Some a, list,
       poke (poke m b (with_next nodeb (next nodea))) a (with_next nodea NULL)).
Proof.
  intros Hl Hb Hba Ha Hnin Hne Hf.
  assert (lseg m list (Some a) (l1 ++ [b])) as Hl'.
  { apply lseg_snoc. split; [done|]. by exists nodeb. }
  destruct l1 as [|h l1].
  - simpl in Hl. subst list. unfold removeMovie.
    rewrite decide_False by congruence.
    rewrite (deref_Some _ _ _ Hb), bind_Ret, Hba.
    destruct fuel as [|fuel]; [simpl in Hf; lia|]. cbn [removeMovie_loop].
    rewrite decide_True by done.
    rewrite (deref_Some _ _ _ Ha), bind_Ret.
    rewrite (store_next_Some _ _ _ _ Hb), bind_Ret.
    rewrite (store_next_Some _ _ nodea), bind_Ret; [done|].
    by rewrite cells_poke_ne.
  - pose proof Hl' as [-> (nodeh & Hh & Hrest)]. unfold removeMovie.
    rewrite decide_False.
    2:{ intros [= ->]. apply Hnin. by left. }
    rewrite (deref_Some _ _ _ Hh), bind_Ret.
    replace fuel with (length (l1 ++ [b]) + (fuel - length (l1 ++ [b]))).
    2:{ rewrite length_app. simpl in *. lia. }
    rewrite (removeMovie_loop_walk m (Some a) (Some a) (l1 ++ [b])).
    + rewrite last_or_snoc.
      destruct (fuel - length (l1 ++ [b])) as [|f] eqn:Ef.
      { rewrite length_app in Ef. simpl in *. lia. }
      cbn [removeMovie_loop]. rewrite decide_True by done.
      rewrite (deref_Some _ _ _ Ha), bind_Ret.
      rewrite (store_next_Some _ _ _ _ Hb), bind_Ret.
      rewrite (store_next_Some _ _ nodea), bind_Ret; [done|].
      by rewrite cells_poke_ne.
    + done.
    + by right.
    + intros c Hc [= ->]. apply elem_of_app in Hc as [Hc|Hc].
      * apply Hnin. by right.
      * apply list_elem_of_singleton in Hc. done.
Qed.

Lemma is_list_remove_head m a node l :
  is_list m (Some a) (a :: l) → cells m !! a = Some node →
  is_list m (next node) l.
Proof.
  intros [_ (node' & Ha & Hl)]%is_list_cons Hn.
  rewrite Hn in Ha. by injection Ha as <-.
Qed.

Lemma is_list_remove_after m list l1 b nodeb a nodea l2 :
  is_list m list (l1 ++ b :: a :: l2) →
  cells m !! b = Some nodeb → cells m !! a = Some nodea →
  is_list (poke (poke m b (with_next nodeb (next nodea))) a (with_next nodea NULL))
    list (l1 ++ b :: l2).
Proof.
  intros Hl Hb Ha. pose proof (is_list_NoDup _ _ _ Hl) as Hnd.
  apply NoDup_app in Hnd as (_ & Hdisj & Hnd2).
  apply NoDup_cons in Hnd2 as [Hb2 Hnd3].
  apply NoDup_cons in Hnd3 as [Ha3 _].
  apply lseg_app in Hl as (r & H1 & [-> (nodeb' & Hb' & H2)]).
  rewrite Hb in Hb'. injection Hb' as <-.
  destruct H2 as [Hba (nodea' & Ha' & H3)].
  rewrite Ha in Ha'. injection Ha' as <-.
  apply lseg_app. exists (Some b). split.
  - apply lseg_poke.
    { intros Hin. apply (Hdisj a Hin). right. by left. }
    apply lseg_poke; [|done].
    intros Hin. apply (Hdisj b Hin). by left.
  - split; [done|]. exists (with_next nodeb (next nodea)). split.
    { rewrite cells_poke_ne.
      - apply cells_poke_eq.
      - intros ->. apply Hb2. by left. }
    simpl. apply lseg_poke; [done|]. apply lseg_poke; [|done].
    intros Hin. apply Hb2. by right.
Qed.

Lemma removeMovie_ok fuel m list l1 a l2 :
  is_list m list (l1 ++ a :: l2) →
  length l1 < fuel →
  ∃ list' m',
    removeMovie fuel m list (Some a) = Ret (Some a, list', m') ∧
    is_list m' list' (l1 ++ l2) ∧
    same_fields m m' ∧
    (∀ c, c ∉ l1 ++ a :: l2 → cells m' !! c = cells m !! c) ∧
    avail m' = avail m.
Proof.
  intros Hl Hf. pose proof (is_list_NoDup _ _ _ Hl) as Hnd.
  destruct l1 as [|b l1 _] using rev_ind.
  - simpl in Hl. pose proof Hl as [-> (nodea & Ha & Hl2)]%is_list_cons.
    exists (next nodea), m. rewrite (removeMovie_head _ _ _ _ Ha).
    split; [done|]. split; [done|]. split; [apply same_fields_refl|done].
  - rewrite <- app_assoc in Hl, Hnd |- *. simpl in Hl, Hnd |- *.
    rewrite length_app in Hf. simpl in Hf.
    pose proof Hl as Hl'.
    apply lseg_app in Hl' as (r & H1 & [-> (nodeb & Hb & Hba & nodea & Ha & H2)]).
    apply NoDup_app in Hnd as (_ & Hdisj & Hnd2).
    apply NoDup_cons in Hnd2 as [Hb2 _].
    assert (a ≠ b) as Hab. { intros ->. apply Hb2. by left. }
    assert (a ∉ l1) as Hal1.
    { intros Hin. apply (Hdisj a Hin). right. by left. }
    do 2 eexists.
    rewrite (removeMovie_after fuel m list l1 b nodeb a nodea); [|done..|lia].
    split; [done|]. split; [by apply is_list_remove_after|]. split.
    + by apply same_fields_poke2.
    + split; [|done].
      intros c Hc. rewrite !cells_poke_ne; [done|..];
        intros ->; apply Hc; set_solver.
Qed.

(** Unlinking [a] after [b] and linking it back restores the memory. *)
Lemma poke_roundtrip m b nodeb a nodea :
  cells m !! b = Some nodeb → cells m !! a = Some nodea →
  next nodeb = Some a → a ≠ b →
  let m1 := poke (poke m b (with_next nodeb (next nodea))) a
              (with_next nodea NULL) in
  poke (poke m1 b (with_next (with_next nodeb (next nodea)) (Some a))) a
    (with_next (with_next nodea NULL) (next (with_next nodeb (next nodea)))) = m.
Proof.
  intros Hb Ha Hba Hne m1. apply mem_eq; try done.
  unfold m1, poke, with_next; simpl. rewrite <- Hba.
  apply map_eq. intros i.
  destruct (decide (i = a)) as [->|Hia].
  { rewrite lookup_insert_eq, Ha. by destruct nodea. }
  rewrite lookup_insert_ne by done.
  destruct (decide (i = b)) as [->|Hib].
  { rewrite lookup_insert_eq, Hb. by destruct nodeb. }
  by rewrite !lookup_insert_ne by done.
Qed.

(** C6, as amended: removing the element at index [length l1] and
    inserting the same node back at that index restores the list and the
    whole memory, provided the element is not the last one of a list of two
    or more (then the index is the new count, which [insertMovie] refuses). *)
Theorem removeMovie_insertMovie_roundtrip fuel m list l1 a l2 :
  is_list m list (l1 ++ a :: l2) →
  l1 = [] ∨ l2 ≠ [] →
  S (length l1) < fuel →
  (Z.of_nat (length l1) < INT_MAX)%Z →
  ∃ list1 m1,
    removeMovie fuel m list (Some a) = Ret (Some a, list1, m1) ∧
    is_list m1 list1 (l1 ++ l2) ∧
    insertMovie fuel m1 list1 (Some a) (Z.of_nat (length l1)) = Ret (0%Z, list, m).
Proof.
  intros Hl Hcase Hf Hc.
  pose proof (is_list_NoDup _ _ _ Hl) as Hnd.
  destruct l1 as [|b l1 _] using rev_ind.
  - simpl in Hl. pose proof Hl as [-> (nodea & Ha & Hl2)]%is_list_cons.
    exists (next nodea), m. rewrite (removeMovie_head _ _ _ _ Ha).
    split; [done|]. split; [done|]. simpl length.
    destruct fuel as [|fuel]; [lia|].
    rewrite (insertMovie_head _ _ _ _ _ Ha), with_next_id.
    by rewrite (poke_id _ _ _ Ha).
  - destruct Hcase as [Hcase|Hl2]; [by destruct l1|].
    rewrite <- app_assoc in Hl, Hnd. simpl in Hl, Hnd.
    rewrite length_app in Hf, Hc. simpl in Hf, Hc.
    pose proof Hl as Hl'.
    apply lseg_app in Hl' as (r & H1 & [-> (nodeb & Hb & Hba & nodea & Ha & H2)]).
    apply NoDup_app in Hnd as (_ & Hdisj & Hnd2).
    apply NoDup_cons in Hnd2 as [Hb2 _].
    assert (a ≠ b) as Hab. { intros ->. apply Hb2. by left. }
    assert (a ∉ l1) as Hal1.
    { intros Hin. apply (Hdisj a Hin). right. by left. }
    assert (b ∉ l1) as Hbl1.
    { intros Hin. apply (Hdisj b Hin). by left. }
    do 2 eexists.
    rewrite (removeMovie_after fuel m list l1 b nodeb a nodea); [|done..|lia].
    split; [done|]. split.
    { rewrite <- app_assoc. simpl. by apply is_list_remove_after. }
    rewrite length_app. simpl length.
    replace (length l1 + 1) with (S (length l1)) by lia.
    erewrite (insertMovie_after fuel _ list l1 b _ a).
    + f_equal. f_equal. by apply poke_roundtrip.
    + apply lseg_poke; [done|]. by apply lseg_poke.
    + rewrite cells_poke_ne by done. apply cells_poke_eq.
    + simpl. destruct l2 as [|c l2]; [done|]. destruct H2 as [-> _]. done.
    + apply cells_poke_eq.
    + done.
    + lia.
    + lia.
Qed.

(** ** appendMovie *)

Lemma appendMovie_walk_spec m l : ∀ fuel p b,
  is_list m p (l ++ [b]) → length l < fuel →
  appendMovie_walk fuel m p = Ret (Some b).
Proof.
  induction l as [|a l IH]; intros fuel p b Hl Hf;
    (destruct fuel as [|fuel]; [simpl in Hf; lia|]); cbn [appendMovie_walk].
  - destruct Hl as [-> (node & Hb & Hn)]. simpl in Hn.
    by rewrite (deref_Some _ _ _ Hb), bind_Ret, Hn.
  - destruct Hl as [-> (node & Ha & Hl)].
    rewrite (deref_Some _ _ _ Ha), bind_Ret.
    assert (∃ n, next node = Some n) as [n Hn].
    { destruct l; destruct Hl as [-> _]; by eexists. }
    rewrite Hn. cbv iota. rewrite <- Hn. apply IH; [done|simpl in Hf; lia].
Qed.

Lemma appendMovie_empty fuel m x nodex :
  cells m !! x = Some nodex →
  appendMovie fuel m NULL (Some x) =
  Ret (0%Z, Some x, poke m x (with_next nodex NULL)).
Proof.
  intros Hx. unfold appendMovie.
  by rewrite bind_Ret, (store_next_Some _ _ _ _ Hx), bind_Ret.
Qed.

Lemma appendMovie_last fuel m list l b nodeb x nodex :
  is_list m list (l ++ [b]) →
  cells m !! b = Some nodeb →
  cells m !! x = Some nodex →
  x ≠ b →
  length l < fuel →
  appendMovie fuel m list (Some x) =
  Ret (0%Z, list,
       poke (poke m b (with_next nodeb (Some x))) x (with_next nodex NULL)).
Proof.
  intros Hl Hb Hx Hne Hf. unfold appendMovie.
  assert (∃ h, list = Some h) as [h ->].
  { destruct l; destruct Hl as [-> _]; by eexists. }
  rewrite (appendMovie_walk_spec m l _ _ b), bind_Ret by done.
  rewrite (store_next_Some _ _ _ _ Hb), !bind_Ret.
  rewrite (store_next_Some _ _ nodex), bind_Ret; [done|].
  rewrite cells_poke_ne; [done|congruence].
Qed.

Lemma is_list_append m list l b nodeb x nodex :
  is_list m list (l ++ [b]) →
  cells m !! b = Some nodeb →
  cells m !! x = Some nodex →
  x ∉ l ++ [b] →
  is_list (poke (poke m b (with_next nodeb (Some x))) x (with_next nodex NULL))
    list ((l ++ [b]) ++ [x]).
Proof.
  intros Hl Hb Hx Hnin.
  pose proof (is_list_insert_after m list l b [] nodeb x nodex Hl Hb Hx Hnin) as H.
  apply lseg_snoc in Hl as (_ & nodeb' & Hb' & Hn).
  rewrite Hb in Hb'. injection Hb' as <-. rewrite Hn in H.
  by rewrite <- app_assoc.
Qed.

Lemma appendMovie_ok fuel m list l x nodex :
  is_list m list l →
  cells m !! x = Some nodex →
  x ∉ l →
  length l < fuel →
  ∃ list' m',
    appendMovie fuel m list (Some x) = Ret (0%Z, list', m') ∧
    is_list m' list' (l ++ [x]) ∧
    same_fields m m' ∧
    (∀ c, c ∉ l ++ [x] → cells m' !! c = cells m !! c) ∧
    avail m' = avail m.
Proof.
  intros Hl Hx Hnin Hf.
  destruct l as [|b l _] using rev_ind.
  - apply is_list_nil in Hl. subst list.
    rewrite (appendMovie_empty _ _ _ _ Hx). do 2 eexists. split; [done|].
    split. { by apply (is_list_insert_head m None []). }
    split; [by apply same_fields_poke|]. split; [|done].
    intros c Hc. apply cells_poke_ne. intros ->. apply Hc. set_solver.
  - pose proof Hl as (_ & nodeb & Hb & _)%lseg_snoc.
    assert (x ≠ b) as Hxb. { intros ->. apply Hnin. set_solver. }
    rewrite length_app in Hf. simpl in Hf.
    rewrite (appendMovie_last fuel m list l b nodeb x nodex); [|done..|lia].
    do 2 eexists. split; [done|]. split; [by apply is_list_append|].
    split; [by apply same_fields_poke2|]. split; [|done].
    intros c Hc. rewrite !cells_poke_ne; [done|..];
      intros ->; apply Hc; set_solver.
Qed.

(** C5, as amended: [appendMovie] always succeeds and makes the node the
    last element.  [insertMovie] at position [getCount] agrees with it on
    the empty list only; on any other list it fails with [ERANGE] and
    leaves the list as it was. *)
Theorem appendMovie_insertMovie_at_count fuel m list l x nodex :
  is_list m list l →
  cells m !! x = Some nodex →
  x ∉ l →
  length l < fuel →
  (Z.of_nat (length l) ≤ INT_MAX)%Z →
  ∃ list' m',
    appendMovie fuel m list (Some x) = Ret (0%Z, list', m') ∧
    is_list m' list' (l ++ [x]) ∧
    same_fields m m' ∧
    getCount fuel m list = Ret (Z.of_nat (length l)) ∧
    (l = [] →
     insertMovie fuel m list (Some x) (Z.of_nat (length l)) = Ret (0%Z, list', m')) ∧
    (l ≠ [] →
     insertMovie fuel m list (Some x) (Z.of_nat (length l)) = Ret (ERANGE, list, m)).
Proof.
  intros Hl Hx Hnin Hf Hc.
  destruct l as [|b l _] using rev_ind.
  - apply is_list_nil in Hl. subst list.
    rewrite (appendMovie_empty _ _ _ _ Hx). do 2 eexists. split; [done|].
    split. { by apply (is_list_insert_head m None []). }
    split; [by apply same_fields_poke|]. split; [done|]. split; [|done].
    intros _. destruct fuel as [|fuel]; [simpl in Hf; lia|].
    by rewrite (insertMovie_head _ _ _ _ _ Hx).
  - pose proof Hl as (_ & nodeb & Hb & _)%lseg_snoc.
    assert (x ≠ b) as Hxb.
    { intros ->. apply Hnin. apply elem_of_app. right. by left. }
    rewrite length_app in Hf. simpl in Hf.
    rewrite (appendMovie_last fuel m list l b nodeb x nodex); [|done..|lia].
    do 2 eexists. split; [done|]. split; [by apply is_list_append|].
    split.
    { eapply same_fields_trans; [by apply same_fields_poke|].
      apply same_fields_poke. by rewrite cells_poke_ne. }
    split. { apply getCount_spec; [done|rewrite length_app; simpl; lia|done]. }
    split; [by destruct l|]. intros _.
    apply (insertMovie_range fuel m list (l ++ [b])); try done.
    + by destruct l.
    + right. lia.
    + rewrite length_app. simpl. lia.
Qed.

(** ** computeDuration *)

Lemma computeDuration_loop_spec m l : ∀ fuel a total,
  is_list m (Some a) (a :: l) → length l < fuel →
  computeDuration_loop fuel m (Some a) total =
  Ret (fold_left PrimFloat.add (duration_at m <$> (a :: l)) total).
Proof.
  induction l as [|b l IH]; intros fuel a total [_ (node & Ha & Hl)] Hf;
    (destruct fuel as [|fuel]; [simpl in Hf; lia|]);
    cbn [computeDuration_loop]; rewrite (deref_Some _ _ _ Ha), bind_Ret.
  - simpl in Hl. rewrite Hl. simpl. unfold duration_at. by rewrite Ha.
  - pose proof Hl as [Hn _]. rewrite Hn in Hl |- *. cbv iota.
    rewrite IH; [|exact Hl|simpl in Hf; lia].
    rewrite !fmap_cons. cbn [fold_left].
    replace (duration_at m a) with (duration node); [done|].
    unfold duration_at. by rewrite Ha.
Qed.

(** C7, as amended: [computeDuration] returns the durations added from
    left to right in list order, starting from 0.0; in particular it
    returns 0.0 for the empty list. *)
Theorem computeDuration_sum fuel m list l :
  is_list m list l →
  length l ≤ fuel →
  computeDuration fuel m list =
  Ret (fold_left PrimFloat.add (duration_at m <$> l) 0%float).
Proof.
  intros Hl Hf. destruct l as [|a l].
  - apply is_list_nil in Hl. by subst list.
  - pose proof Hl as [-> _]%is_list_cons. unfold computeDuration.
    apply computeDuration_loop_spec; [done|simpl in Hf; lia].
Qed.

(** ** searchByTitle and getNodePosition *)

Lemma searchByTitle_loop_walk m t q l : ∀ fuel itr,
  lseg m itr q l →
  (l = [] ∨ q ≠ NULL) →
  (∀ c, c ∈ l → title_at m c ≠ Some t) →
  searchByTitle_loop (length l + fuel) m itr t = searchByTitle_loop fuel m q t.
Proof.
  induction l as [|a l IH]; intros fuel itr Hl Hq Hne.
  - simpl in Hl. by subst itr.
  - destruct Hl as [-> (node & Ha & Hl)].
    change (length (a :: l) + fuel) with (S (length l + fuel)).
    cbn [searchByTitle_loop].
    rewrite (deref_Some _ _ _ Ha), bind_Ret.
    destruct (String.eqb_spec (title node) t) as [Heq|_].
    { exfalso. apply (Hne a); [by left|]. rewrite (title_at_Some _ _ _ Ha).
      by rewrite Heq. }
    destruct (lseg_next_Some _ _ _ a _ Hl Hq) as [[n Hn] Hq'].
    rewrite Hn. cbv iota. rewrite <- Hn. apply IH; [done| |].
    + exact Hq'.
    + intros c Hc. apply Hne. by right.
Qed.

(** The first node whose title is [t] is found. *)
Lemma searchByTitle_found fuel m list l1 a l2 t :
  is_list m list (l1 ++ a :: l2) →
  title_at m a = Some t →
  (∀ c, c ∈ l1 → title_at m c ≠ Some t) →
  length l1 < fuel →
  searchByTitle fuel m list (Some t) = Ret (Some a).
Proof.
  intros Hl Ha Hne Hf. unfold searchByTitle.
  assert (∃ h, list = Some h) as [h ->].
  { destruct l1; destruct Hl as [-> _]; by eexists. }
  apply lseg_app in Hl as (r & H1 & [-> (node & Hc & H2)]).
  replace fuel with (length l1 + (fuel - length l1)) by lia.
  rewrite (searchByTitle_loop_walk m t (Some a) l1); [|done|by right|done].
  destruct (fuel - length l1) as [|f] eqn:Ef; [lia|].
  cbn [searchByTitle_loop]. rewrite (deref_Some _ _ _ Hc), bind_Ret.
  rewrite (title_at_Some _ _ _ Hc) in Ha. injection Ha as ->.
  by rewrite String.eqb_refl.
Qed.

(** No node has the title [t]: the search answers [NULL]. *)
Lemma searchByTitle_absent fuel m list l t :
  is_list m list l →
  (∀ c, c ∈ l → title_at m c ≠ Some t) →
  length l ≤ fuel →
  searchByTitle fuel m list (Some t) = Ret NULL.
Proof.
  intros Hl Hne Hf. unfold searchByTitle.
  destruct l as [|h l0] using rev_ind.
  { apply is_list_nil in Hl. by subst list. }
  clear IHl0.
  assert (∃ h', list = Some h') as [h' ->].
  { destruct l0; destruct Hl as [-> _]; by eexists. }
  apply lseg_snoc in Hl as (H1 & node & Hc & Hn).
  rewrite length_app in Hf. simpl in Hf.
  replace fuel with (length l0 + (fuel - length l0)) by lia.
  rewrite (searchByTitle_loop_walk m t (Some h) l0); [|done|by right|].
  - destruct (fuel - length l0) as [|f] eqn:Ef; [lia|].
    cbn [searchByTitle_loop]. rewrite (deref_Some _ _ _ Hc), bind_Ret.
    destruct (String.eqb_spec (title node) t) as [Heq|_].
    { exfalso. apply (Hne h); [apply elem_of_app; right; by left|].
      by rewrite (title_at_Some _ _ _ Hc), Heq. }
    by rewrite Hn.
  - intros c Hin. apply Hne. apply elem_of_app. by left.
Qed.

Lemma getNodePosition_loop_walk m t q l : ∀ fuel itr index,
  lseg m itr q l →
  (l = [] ∨ q ≠ NULL) →
  (∀ c, c ∈ l → title_at m c ≠ Some t) →
  getNodePosition_loop (length l + fuel) m itr t index =
  getNodePosition_loop fuel m q t index.
Proof.
  induction l as [|a l IH]; intros fuel itr index Hl Hq Hne.
  - simpl in Hl. by subst itr.
  - destruct Hl as [-> (node & Ha & Hl)].
    change (length (a :: l) + fuel) with (S (length l + fuel)).
    cbn [getNodePosition_loop].
    rewrite (deref_Some _ _ _ Ha), bind_Ret.
    destruct (String.eqb_spec (title node) t) as [Heq|_].
    { exfalso. apply (Hne a); [by left|]. rewrite (title_at_Some _ _ _ Ha).
      by rewrite Heq. }
    destruct (lseg_next_Some _ _ _ a _ Hl Hq) as [[n Hn] Hq'].
    rewrite Hn. cbv iota. rewrite <- Hn. apply IH; [done| |].
    + exact Hq'.
    + intros c Hc. apply Hne. by right.
Qed.

(** Whatever the index of the first node titled [t], the answer is 0. *)
Lemma getNodePosition_found fuel m list l1 a l2 t :
  is_list m list (l1 ++ a :: l2) →
  title_at m a = Some t →
  (∀ c, c ∈ l1 → title_at m c ≠ Some t) →
  length l1 < fuel →
  getNodePosition fuel m list (Some t) = Ret 0%Z.
Proof.
  intros Hl Ha Hne Hf. unfold getNodePosition.
  assert (∃ h, list = Some h) as [h ->].
  { destruct l1; destruct Hl as [-> _]; by eexists. }
  apply lseg_app in Hl as (r & H1 & [-> (node & Hc & H2)]).
  replace fuel with (length l1 + (fuel - length l1)) by lia.
  rewrite (getNodePosition_loop_walk m t (Some a) l1); [|done|by right|done].
  destruct (fuel - length l1) as [|f] eqn:Ef; [lia|].
  cbn [getNodePosition_loop]. rewrite (deref_Some _ _ _ Hc), bind_Ret.
  rewrite (title_at_Some _ _ _ Hc) in Ha. injection Ha as ->.
  by rewrite String.eqb_refl.
Qed.

Lemma getNodePosition_absent fuel m list l t :
  is_list m list l →
  (∀ c, c ∈ l → title_at m c ≠ Some t) →
  length l ≤ fuel →
  getNodePosition fuel m list (Some t) = Ret (-1)%Z.
Proof.
  intros Hl Hne Hf. unfold getNodePosition.
  destruct l as [|h l0 _] using rev_ind.
  { apply is_list_nil in Hl. by subst list. }
  assert (∃ h', list = Some h') as [h' ->].
  { destruct l0; destruct Hl as [-> _]; by eexists. }
  apply lseg_snoc in Hl as (H1 & node & Hc & Hn).
  rewrite length_app in Hf. simpl in Hf.
  replace fuel with (length l0 + (fuel - length l0)) by lia.
  rewrite (getNodePosition_loop_walk m t (Some h) l0); [|done|by right|].
  - destruct (fuel - length l0) as [|f] eqn:Ef; [lia|].
    cbn [getNodePosition_loop]. rewrite (deref_Some _ _ _ Hc), bind_Ret.
    destruct (String.eqb_spec (title node) t) as [Heq|_].
    { exfalso. apply (Hne h); [apply elem_of_app; right; by left|].
      by rewrite (title_at_Some _ _ _ Hc), Heq. }
    by rewrite Hn.
  - intros c Hin. apply Hne. apply elem_of_app. by left.
Qed.

(** ** Moving a movie up or down *)

(** The memory after the three assignments that swap [a] and its successor
    [b]. *)
Lemma is_list_swap_head m a nodea b nodeb l2 :
  is_list m (Some a) (a :: b :: l2) →
  cells m !! a = Some nodea → cells m !! b = Some nodeb →
  is_list (poke (poke m b (with_next nodeb (Some a))) a
             (with_next nodea (next nodeb)))
    (Some b) (b :: a :: l2).
Proof.
  intros Hl Ha Hb. pose proof (is_list_NoDup _ _ _ Hl) as Hnd.
  apply NoDup_cons in Hnd as [Ha1 Hnd]. apply NoDup_cons in Hnd as [Hb1 _].
  destruct Hl as [_ (nodea' & Ha' & _ & nodeb' & Hb' & H2)].
  rewrite Ha in Ha'. injection Ha' as <-.
  rewrite Hb in Hb'. injection Hb' as <-.
  assert (a ≠ b) as Hab. { intros ->. apply Ha1. by left. }
  split; [done|]. exists (with_next nodeb (Some a)). split.
  { rewrite cells_poke_ne by done. apply cells_poke_eq. }
  split; [done|]. exists (with_next nodea (next nodeb)).
  split; [apply cells_poke_eq|]. simpl.
  apply lseg_poke. { intros Hin. apply Ha1. by right. }
  by apply lseg_poke.
Qed.

(** When the pair is not at the head, the node before [a] still points to
    [a]: [b] is no longer in the list. *)
Lemma is_list_swap_later m list l0 p a nodea b nodeb l2 :
  is_list m list (l0 ++ p :: a :: b :: l2) →
  cells m !! a = Some nodea → cells m !! b = Some nodeb →
  is_list (poke (poke m b (with_next nodeb (Some a))) a
             (with_next nodea (next nodeb)))
    list (l0 ++ p :: a :: l2).
Proof.
  intros Hl Ha Hb. pose proof (is_list_NoDup _ _ _ Hl) as Hnd.
  rewrite <- (snoc_app l0 p) in Hl, Hnd |- *.
  apply NoDup_app in Hnd as (_ & Hdisj & Hnd).
  apply NoDup_cons in Hnd as [Ha1 Hnd]. apply NoDup_cons in Hnd as [Hb1 _].
  apply lseg_app in Hl as (r & H1 & [-> (nodea' & Ha' & _ & nodeb' & Hb' & H2)]).
  rewrite Ha in Ha'. injection Ha' as <-.
  rewrite Hb in Hb'. injection Hb' as <-.
  assert (a ≠ b) as Hab. { intros ->. apply Ha1. by left. }
  apply lseg_app. exists (Some a). split.
  - apply lseg_poke. { intros Hin. apply (Hdisj a Hin). by left. }
    apply lseg_poke; [|done]. intros Hin. apply (Hdisj b Hin). right. by left.
  - split; [done|]. exists (with_next nodea (next nodeb)).
    split; [apply cells_poke_eq|]. simpl.
    apply lseg_poke. { intros Hin. apply Ha1. by right. }
    by apply lseg_poke.
Qed.

(** The loop of [MoveMovieUp] walks from [c0] to [a] as long as the node
    after the cursor has another title. *)
Lemma MoveMovieUp_loop_walk m watchlist t a nodea l : ∀ fuel c0,
  lseg m (Some c0) (Some a) (c0 :: l) →
  cells m !! a = Some nodea →
  (∀ c, c ∈ l ++ [a] → title_at m c ≠ Some t) →
  MoveMovieUp_loop (length (c0 :: l) + fuel) m watchlist (Some c0) t =
  MoveMovieUp_loop fuel m watchlist (Some a) t.
Proof.
  induction l as [|c1 l IH]; intros fuel c0 [_ (node0 & H0 & Hl)] Ha Hne.
  - simpl in Hl. change (length [c0] + fuel) with (S fuel).
    cbn [MoveMovieUp_loop]. rewrite (deref_Some _ _ _ H0), bind_Ret, Hl.
    rewrite (deref_Some _ _ _ Ha), bind_Ret.
    destruct (String.eqb_spec (title nodea) t) as [Heq|_]; [|done].
    exfalso. apply (Hne a); [by left|].
    by rewrite (title_at_Some _ _ _ Ha), Heq.
  - change (length (c0 :: c1 :: l) + fuel) with (S (length (c1 :: l) + fuel)).
    cbn [MoveMovieUp_loop]. rewrite (deref_Some _ _ _ H0), bind_Ret.
    pose proof Hl as [Hn (node1 & H1 & _)]. rewrite Hn in Hl |- *.
    rewrite (deref_Some _ _ _ H1), bind_Ret.
    destruct (String.eqb_spec (title node1) t) as [Heq|_].
    { exfalso. apply (Hne c1); [by left|].
      by rewrite (title_at_Some _ _ _ H1), Heq. }
    apply IH; [by split; [|exact (proj2 Hl)]|done|].
    intros c Hc. apply Hne. by right.
Qed.

(** The swap at the cursor [a], whose successor [b] has the title. *)
Lemma MoveMovieUp_loop_swap fuel m watchlist t a nodea b nodeb :
  cells m !! a = Some nodea → next nodea = Some b →
  cells m !! b = Some nodeb → title nodeb = t → a ≠ b →
  MoveMovieUp_loop (S fuel) m watchlist (Some a) t =
  Ret (if decide (Some a = watchlist) then Some b else watchlist,
       poke (poke m b (with_next nodeb (Some a))) a
         (with_next nodea (next nodeb))).
Proof.
  intros Ha Hab Hb Ht Hne. cbn [MoveMovieUp_loop].
  rewrite (deref_Some _ _ _ Ha), bind_Ret, Hab.
  rewrite (deref_Some _ _ _ Hb), bind_Ret, Ht, String.eqb_refl.
  rewrite (store_next_Some _ _ _ _ Hb), bind_Ret.
  rewrite (store_next_Some _ _ nodea), bind_Ret; [done|].
  by rewrite cells_poke_ne.
Qed.

(** Moving up the second movie swaps it with the head. *)
Lemma MoveMovieUp_second fuel m a b l2 t :
  is_list m (Some a) (a :: b :: l2) →
  title_at m a ≠ Some t →
  title_at m b = Some t →
  1 < fuel →
  ∃ m',
    handleWatchlistMenuOption_MoveMovieUp fuel t (Some a) m = Ret (Some b, m') ∧
    is_list m' (Some b) (b :: a :: l2) ∧ same_fields m m'.
Proof.
  intros Hl Hta Htb Hf. pose proof (is_list_NoDup _ _ _ Hl) as Hnd.
  apply NoDup_cons in Hnd as [Ha1 _].
  assert (a ≠ b) as Hab. { intros ->. apply Ha1. by left. }
  pose proof Hl as [_ (nodea & Ha & Hn & nodeb & Hb & _)].
  unfold handleWatchlistMenuOption_MoveMovieUp.
  rewrite (searchByTitle_found fuel m (Some a) [a] b l2 t); [|done|done| |simpl; lia].
  2:{ intros c Hc. apply list_elem_of_singleton in Hc. by subst c. }
  rewrite bind_Ret. cbv iota. rewrite (deref_Some _ _ _ Ha), bind_Ret.
  rewrite (title_at_Some _ _ _ Ha) in Hta.
  destruct (String.eqb_spec (title nodea) t) as [Heq|_]; [by rewrite Heq in Hta|].
  destruct fuel as [|fuel]; [lia|].
  rewrite (MoveMovieUp_loop_swap fuel m (Some a) t a nodea b nodeb); try done.
  2:{ rewrite (title_at_Some _ _ _ Hb) in Htb. by injection Htb. }
  rewrite decide_True by done. eexists. split; [done|].
  split; [by apply is_list_swap_head|by apply same_fields_poke2].
Qed.

(** Moving up a movie found at index 2 or later unlinks it: the list keeps
    its other nodes in their order. *)
Lemma MoveMovieUp_later fuel m watchlist l0 p a b l2 t :
  is_list m watchlist (l0 ++ p :: a :: b :: l2) →
  (∀ c, c ∈ l0 ++ [p; a] → title_at m c ≠ Some t) →
  title_at m b = Some t →
  length (l0 ++ [p; a]) < fuel →
  ∃ m',
    handleWatchlistMenuOption_MoveMovieUp fuel t watchlist m = Ret (watchlist, m') ∧
    is_list m' watchlist (l0 ++ p :: a :: l2) ∧ same_fields m m'.
Proof.
  intros Hl Hne Htb Hf. pose proof (is_list_NoDup _ _ _ Hl) as Hnd.
  rewrite <- (snoc_app l0 p) in Hl, Hnd.
  pose proof Hl as (r & H1 & [-> (nodea & Ha & Hn & nodeb & Hb & _)])%lseg_app.
  apply NoDup_app in Hnd as (_ & Hdisj & Hnd).
  apply NoDup_cons in Hnd as [Ha1 _].
  assert (a ≠ b) as Hab. { intros ->. apply Ha1. by left. }
  unfold handleWatchlistMenuOption_MoveMovieUp.
  rewrite (searchByTitle_found fuel m watchlist ((l0 ++ [p]) ++ [a]) b l2 t).
  2:{ by rewrite snoc_app. }
  2:{ done. }
  2:{ intros c Hc. apply Hne. by rewrite snoc_app in Hc. }
  2:{ by rewrite snoc_app. }
  rewrite bind_Ret. cbv iota.
  (* the head is the first node of [l0 ++ [p]] *)
  destruct (l0 ++ [p]) as [|h l] eqn:Hsplit; [by destruct l0|].
  pose proof H1 as [-> (nodeh & Hh & _)].
  assert (h ≠ a) as Hha. { intros ->. apply (Hdisj a); by left. }
  rewrite (deref_Some _ _ _ Hh), bind_Ret.
  assert (h ∈ l0 ++ [p; a]) as Hhin.
  { rewrite <- (snoc_app l0 p), Hsplit. by left. }
  pose proof (Hne h Hhin) as Hth. rewrite (title_at_Some _ _ _ Hh) in Hth.
  destruct (String.eqb_spec (title nodeh) t) as [Heq|_]; [by rewrite Heq in Hth|].
  replace (length (l0 ++ [p; a])) with (S (length (h :: l))) in Hf.
  2:{ rewrite <- Hsplit, !length_app. simpl. lia. }
  replace fuel with (length (h :: l) + (fuel - length (h :: l))) by lia.
  rewrite (MoveMovieUp_loop_walk m (Some h) t a nodea l); [|done|done|].
  2:{ intros c Hc. apply Hne. rewrite <- (snoc_app l0 p), Hsplit. by right. }
  destruct (fuel - length (h :: l)) as [|f] eqn:Ef; [lia|].
  rewrite (MoveMovieUp_loop_swap f m (Some h) t a nodea b nodeb); try done.
  2:{ rewrite (title_at_Some _ _ _ Hb) in Htb. by injection Htb. }
  rewrite decide_False by congruence. eexists. split; [done|]. split.
  - apply is_list_swap_later; [|done|done].
    by rewrite <- (snoc_app l0 p), Hsplit.
  - by apply same_fields_poke2.
Qed.

Lemma MoveMovieDown_loop_walk m watchlist t q l : ∀ fuel itr,
  lseg m itr q l →
  (l = [] ∨ q ≠ NULL) →
  (∀ c, c ∈ l → title_at m c ≠ Some t) →
  MoveMovieDown_loop (length l + fuel) m watchlist itr t =
  MoveMovieDown_loop fuel m watchlist q t.
Proof.
  induction l as [|a l IH]; intros fuel itr Hl Hq Hne.
  - simpl in Hl. by subst itr.
  - destruct Hl as [-> (node & Ha & Hl)].
    change (length (a :: l) + fuel) with (S (length l + fuel)).
    cbn [MoveMovieDown_loop].
    rewrite (deref_Some _ _ _ Ha), bind_Ret.
    destruct (lseg_next_Some _ _ _ a _ Hl Hq) as [[n Hn] Hq'].
    rewrite Hn. cbv iota.
    destruct (String.eqb_spec (title node) t) as [Heq|_].
    { exfalso. apply (Hne a); [by left|]. rewrite (title_at_Some _ _ _ Ha).
      by rewrite Heq. }
    rewrite <- Hn. apply IH; [done| |].
    + exact Hq'.
    + intros c Hc. apply Hne. by right.
Qed.

Lemma MoveMovieDown_loop_swap fuel m watchlist t a nodea b nodeb :
  cells m !! a = Some nodea → next nodea = Some b →
  cells m !! b = Some nodeb → title nodea = t → a ≠ b →
  MoveMovieDown_loop (S fuel) m watchlist (Some a) t =
  Ret (if decide (Some a = watchlist) then Some b else watchlist,
       poke (poke m b (with_next nodeb (Some a))) a
         (with_next nodea (next nodeb))).
Proof.
  intros Ha Hab Hb Ht Hne. cbn [MoveMovieDown_loop].
  rewrite (deref_Some _ _ _ Ha), bind_Ret, Hab. cbv iota.
  rewrite Ht, String.eqb_refl.
  rewrite (deref_Some _ _ _ Hb), bind_Ret.
  rewrite (store_next_Some _ _ _ _ Hb), bind_Ret.
  rewrite (store_next_Some _ _ nodea), bind_Ret; [done|].
  by rewrite cells_poke_ne.
Qed.

(** Moving down the movie found at the head swaps it with the second. *)
Lemma MoveMovieDown_first fuel m a b l2 t :
  is_list m (Some a) (a :: b :: l2) →
  title_at m a = Some t →
  0 < fuel →
  ∃ m',
    handleWatchlistMenuOption_MoveMovieDown fuel t (Some a) m = Ret (Some b, m') ∧
    is_list m' (Some b) (b :: a :: l2) ∧ same_fields m m'.
Proof.
  intros Hl Hta Hf. pose proof (is_list_NoDup _ _ _ Hl) as Hnd.
  apply NoDup_cons in Hnd as [Ha1 _].
  assert (a ≠ b) as Hab. { intros ->. apply Ha1. by left. }
  pose proof Hl as [_ (nodea & Ha & Hn & nodeb & Hb & _)].
  unfold handleWatchlistMenuOption_MoveMovieDown.
  rewrite (searchByTitle_found fuel m (Some a) [] a (b :: l2) t);
    [|done|done|by intros c ?%elem_of_nil|simpl; lia].
  rewrite bind_Ret. cbv iota. destruct fuel as [|fuel]; [lia|].
  rewrite (MoveMovieDown_loop_swap fuel m (Some a) t a nodea b nodeb); try done.
  2:{ rewrite (title_at_Some _ _ _ Ha) in Hta. by injection Hta. }
  rewrite decide_True by done. eexists. split; [done|].
  split; [by apply is_list_swap_head|by apply same_fields_poke2].
Qed.

(** Moving down a movie found at index 1 or later unlinks the movie after
    it: the list keeps its other nodes in their order. *)
Lemma MoveMovieDown_later fuel m watchlist l0 p a b l2 t :
  is_list m watchlist (l0 ++ p :: a :: b :: l2) →
  (∀ c, c ∈ l0 ++ [p] → title_at m c ≠ Some t) →
  title_at m a = Some t →
  length (l0 ++ [p]) < fuel →
  ∃ m',
    handleWatchlistMenuOption_MoveMovieDown fuel t watchlist m =
      Ret (watchlist, m') ∧
    is_list m' watchlist (l0 ++ p :: a :: l2) ∧ same_fields m m'.
Proof.
  intros Hl Hne Hta Hf. pose proof (is_list_NoDup _ _ _ Hl) as Hnd.
  pose proof Hl as Hl0.
  rewrite <- (snoc_app l0 p) in Hl, Hnd.
  pose proof Hl as (r & H1 & [-> (nodea & Ha & Hn & nodeb & Hb & _)])%lseg_app.
  apply NoDup_app in Hnd as (_ & Hdisj & Hnd).
  apply NoDup_cons in Hnd as [Ha1 _].
  assert (a ≠ b) as Hab. { intros ->. apply Ha1. by left. }
  unfold handleWatchlistMenuOption_MoveMovieDown.
  rewrite (searchByTitle_found fuel m watchlist (l0 ++ [p]) a (b :: l2) t);
    [|done..].
  rewrite bind_Ret. cbv iota.
  replace fuel with (length (l0 ++ [p]) + (fuel - length (l0 ++ [p]))) by lia.
  rewrite (MoveMovieDown_loop_walk m watchlist t (Some a) (l0 ++ [p]));
    [|done|by right|done].
  destruct (fuel - length (l0 ++ [p])) as [|f] eqn:Ef; [lia|].
  rewrite (MoveMovieDown_loop_swap f m watchlist t a nodea b nodeb); try done.
  2:{ rewrite (title_at_Some _ _ _ Ha) in Hta. by injection Hta. }
  rewrite decide_False.
  2:{ intros <-. destruct (l0 ++ [p]) as [|h l] eqn:Hsplit; [by destruct l0|].
      destruct H1 as [[= ->] _]. apply (Hdisj h); by left. }
  eexists. split; [done|].
  split; [by apply is_list_swap_later|by apply same_fields_poke2].
Qed.

(** C8: moving up the movie found at the head leaves the watchlist and the
    memory as they were, and so does moving down a movie that is found at
    the last node. *)
Theorem move_at_boundary_unchanged fuel m watchlist l t :
  is_list m watchlist l →
  length l < fuel →
  (∀ a l', l = a :: l' → title_at m a = Some t →
     handleWatchlistMenuOption_MoveMovieUp fuel t watchlist m =
     Ret (watchlist, m)) ∧
  (∀ l' a, l = l' ++ [a] → title_at m a = Some t →
     (∀ c, c ∈ l' → title_at m c ≠ Some t) →
     handleWatchlistMenuOption_MoveMovieDown fuel t watchlist m =
     Ret (watchlist, m)).
Proof.
  intros Hl Hf. split.
  - intros a l' -> Ha. unfold handleWatchlistMenuOption_MoveMovieUp.
    rewrite (searchByTitle_found fuel m watchlist [] a l' t);
      [|done|done|by intros c ?%elem_of_nil|simpl; lia].
    rewrite bind_Ret. destruct Hl as [-> (node & Hc & _)].
    rewrite (deref_Some _ _ _ Hc), bind_Ret.
    rewrite (title_at_Some _ _ _ Hc) in Ha. injection Ha as ->.
    by rewrite String.eqb_refl.
  - intros l' a -> Ha Hne. unfold handleWatchlistMenuOption_MoveMovieDown.
    rewrite length_app in Hf. simpl in Hf.
    rewrite (searchByTitle_found fuel m watchlist l' a [] t); [|done..|lia].
    rewrite bind_Ret.
    apply lseg_snoc in Hl as (H1 & node & Hc & Hn).
    replace fuel with (length l' + (fuel - length l')) by lia.
    rewrite (MoveMovieDown_loop_walk m watchlist t (Some a) l');
      [|done|by right|done].
    destruct (fuel - length l') as [|f] eqn:Ef; [lia|].
    cbn [MoveMovieDown_loop].
    by rewrite (deref_Some _ _ _ Hc), bind_Ret, Hn.
Qed.

(** ** Transfers between the library and the watchlist *)

Lemma createMovieNode_NULL t g d m :
  (createMovieNode t g d m).1 = NULL →
  cells (createMovieNode t g d m).2 = cells m.
Proof.
  unfold createMovieNode, calloc.
  destruct t as [ts|], g as [gs|]; try done.
  destruct (34 <? String.length ts); [done|].
  destruct (34 <? String.length gs); [done|].
  by destruct (avail m).
Qed.

Lemma createMovieNode_Some ts gs d m x m1 :
  createMovieNode (Some ts) (Some gs) d m = (Some x, m1) →
  cells m !! x = None ∧ cells m1 = <[x := mkMovie ts gs d NULL]> (cells m).
Proof.
  unfold createMovieNode, calloc.
  destruct (34 <? String.length ts); [done|].
  destruct (34 <? String.length gs); [done|].
  destruct (avail m); [done|]. intros [= <- <-]. split.
  - apply not_elem_of_dom. apply is_fresh.
  - unfold poke; simpl. apply insert_insert_eq.
Qed.

Lemma createMovieNode_avail ts gs d m x m1 :
  createMovieNode (Some ts) (Some gs) d m = (Some x, m1) →
  avail m = S (avail m1).
Proof.
  unfold createMovieNode, calloc.
  destruct (34 <? String.length ts); [done|].
  destruct (34 <? String.length gs); [done|].
  destruct (avail m); [done|]. by intros [= <- <-].
Qed.

Lemma createMovieNode_succeeds ts gs d m :
  0 < avail m → String.length ts ≤ 34 → String.length gs ≤ 34 →
  ∃ x m1, createMovieNode (Some ts) (Some gs) d m = (Some x, m1).
Proof.
  intros Hav Ht Hg. unfold createMovieNode, calloc.
  destruct (Nat.ltb_spec 34 (String.length ts)); [lia|].
  destruct (Nat.ltb_spec 34 (String.length gs)); [lia|].
  destruct (avail m); [lia|]. by do 2 eexists.
Qed.

Lemma createMovieNode_fails ts gs d m m1 :
  createMovieNode (Some ts) (Some gs) d m = (None, m1) →
  cells m1 = cells m ∧ avail m1 = avail m ∧
  ((¬ fits (ts, gs, d) ∧ errno m1 = ERANGE) ∨
   (fits (ts, gs, d) ∧ avail m = 0 ∧ errno m1 = ENOMEM)).
Proof.
  unfold createMovieNode, calloc, fits. simpl.
  destruct (Nat.ltb_spec 34 (String.length ts)) as [Ht|Ht].
  { intros [= <-]. split; [done|]. split; [done|]. left. split; [lia|done]. }
  destruct (Nat.ltb_spec 34 (String.length gs)) as [Hg|Hg].
  { intros [= <-]. split; [done|]. split; [done|]. left. split; [lia|done]. }
  destruct (avail m) as [|k] eqn:Hav; [|done].
  intros [= <-]. split; [done|]. split; [done|]. right. by repeat split.
Qed.

Lemma createMovieNode_fits ts gs d m x m1 :
  createMovieNode (Some ts) (Some gs) d m = (Some x, m1) → fits (ts, gs, d).
Proof.
  unfold createMovieNode, fits. simpl.
  destruct (Nat.ltb_spec 34 (String.length ts)); [done|].
  destruct (Nat.ltb_spec 34 (String.length gs)); [done|]. lia.
Qed.

Lemma creatable_all quota records :
  length records ≤ quota → Forall fits records →
  creatable quota records = records.
Proof.
  revert quota. induction records as [|r rest IH]; intros quota Hq Hfits;
    [done|].
  apply Forall_cons in Hfits as [Hr Hfits].
  destruct quota as [|quota]; [simpl in Hq; lia|].
  cbn [creatable]. rewrite decide_True by done.
  rewrite IH; [done|simpl in Hq; lia|done].
Qed.

Lemma promptForInt_range minValue maxValue stdin integer rest :
  promptForInt minValue maxValue stdin = Ret (integer, rest) →
  (minValue ≤ integer ≤ maxValue)%Z.
Proof.
  induction stdin as [|i stdin IH]; [done|]. cbn [promptForInt]. cbv zeta.
  destruct (Z.ltb_spec (to_int i) minValue); cbn [orb]; [done|].
  destruct (Z.ltb_spec maxValue (to_int i)); [done|]. intros [= <- _]. lia.
Qed.

(** What the handlers do when the copy of the movie cannot be created: the
    insertion into the destination fails and leaves it as it was, and the
    original is unlinked from the source all the same, so that the movie is
    in neither list.  The three ways of adding to the watchlist (the library
    being the source) and the removal from the watchlist (the watchlist
    being the source) all behave so. *)
Lemma copy_failure_unlinks_original fuel m source destination l1 a l2 D nodea :
  is_list m source (l1 ++ a :: l2) →
  is_list m destination D →
  (∀ c, c ∈ D → c ∉ l1 ++ a :: l2) →
  cells m !! a = Some nodea →
  (createMovieNode (Some (title nodea)) (Some (genre nodea)) (duration nodea) m).1
    = NULL →
  length (l1 ++ a :: l2) < fuel →
  length D < fuel →
  (Z.of_nat (length D) ≤ INT_MAX)%Z →
  ∃ source' m',
    is_list m' source' (l1 ++ l2) ∧
    is_list m' destination D ∧
    same_fields m m' ∧
    (∀ option stdin,
       (option = InsertWithin →
        ∃ position rest,
          promptForInt 1 (Z.of_nat (length D)) stdin = Ret (position, rest)) →
       handleAddMovieMenuOption fuel option (Some a) source destination m stdin =
       Ret (source', destination, m')) ∧
    (∀ t, title_at m a = Some t →
       (∀ c, c ∈ l1 → title_at m c ≠ Some t) →
       handleWatchlistMenuOption_RemoveMovie fuel t destination source m =
       Ret (destination, source', m')).
Proof.
  intros Hs Hd Hdisj Ha Hnull Hf HfD Hc.
  pose proof (createMovieNode_NULL _ _ _ _ Hnull) as Hcells.
  destruct (createMovieNode (Some (title nodea)) (Some (genre nodea))
              (duration nodea) m) as [newMovie m1] eqn:Hcreate.
  simpl in Hnull, Hcells. subst newMovie.
  assert (∀ p q l, lseg m p q l → lseg m1 p q l) as Hto.
  { intros p q l. apply lseg_frame. intros c _. by rewrite Hcells. }
  assert (same_fields m m1) as Hsf1.
  { intros c. unfold fields_at. by rewrite Hcells. }
  rewrite length_app in Hf. simpl in Hf.
  destruct (removeMovie_ok fuel m1 source l1 a l2) as (source' & m' & Hrm & Hs' & Hsf & Hfr & _);
    [by apply Hto|lia|].
  exists source', m'. split; [done|]. split.
  { eapply lseg_frame; [|by apply Hto]. intros c Hin. apply Hfr. by apply Hdisj. }
  split; [by eapply same_fields_trans|]. split.
  - intros option stdin Hprompt. unfold handleAddMovieMenuOption.
    rewrite (deref_Some _ _ _ Ha), bind_Ret, Hcreate.
    destruct option.
    + unfold insertMovie. rewrite bind_Ret. cbv beta iota.
      by rewrite Hrm, bind_Ret.
    + unfold appendMovie. rewrite bind_Ret. cbv beta iota.
      by rewrite Hrm, bind_Ret.
    + destruct Hprompt as (position & rest & Hp); [done|].
      rewrite (getCount_spec m1 destination D), bind_Ret; [|by apply Hto|lia|done].
      rewrite Hp, bind_Ret. cbv beta iota.
      unfold insertMovie. rewrite bind_Ret. cbv beta iota.
      by rewrite Hrm, bind_Ret.
  - intros t Ht Hne. unfold handleWatchlistMenuOption_RemoveMovie.
    rewrite (searchByTitle_found fuel m source l1 a l2 t); [|done..|lia].
    rewrite bind_Ret. cbv iota.
    rewrite (deref_Some _ _ _ Ha), bind_Ret, Hcreate.
    rewrite Hrm, bind_Ret. cbv beta iota.
    unfold appendMovie. by rewrite bind_Ret.
Qed.

(** ** loadMovieWatchlist *)

Lemma remove_title_split m t L :
  ((∀ c, c ∈ L → title_at m c ≠ Some t) ∧ remove_title m t L = L) ∨
  (∃ l1 a l2, L = l1 ++ a :: l2 ∧ title_at m a = Some t ∧
     (∀ c, c ∈ l1 → title_at m c ≠ Some t) ∧ remove_title m t L = l1 ++ l2).
Proof.
  induction L as [|a L IH]; simpl.
  - left. split; [|done]. by intros c ?%elem_of_nil.
  - case_decide as Ha.
    + right. exists [], a, L. split; [done|]. split; [done|].
      split; [|done]. by intros c ?%elem_of_nil.
    + destruct IH as [[Hne Heq]|(l1 & b & l2 & -> & Hb & Hne & Heq)].
      * left. split; [|by rewrite Heq].
        intros c [->|Hc]%elem_of_cons; [done|by apply Hne].
      * right. exists (a :: l1), b, l2. split; [done|]. split; [done|].
        split; [|by rewrite Heq].
        intros c [->|Hc]%elem_of_cons; [done|by apply Hne].
Qed.

Lemma remove_title_sublist m t L : sublist (remove_title m t L) L.
Proof.
  induction L as [|a L IH]; simpl; [done|]. case_decide.
  - by apply sublist_cons.
  - by apply sublist_skip.
Qed.

Lemma remove_titles_sublist m ts L : sublist (remove_titles m ts L) L.
Proof.
  unfold remove_titles. revert L. induction ts as [|t ts IH]; intros L; simpl; [done|].
  etrans; [apply IH|apply remove_title_sublist].
Qed.

Lemma remove_title_gone m t L :
  NoDup (title_at m <$> L) → Some t ∉ title_at m <$> remove_title m t L.
Proof.
  induction L as [|a L IH]; simpl; [intros _; by apply not_elem_of_nil|].
  rewrite NoDup_cons. intros [Ha Hnd]. case_decide as Heq.
  - by rewrite <- Heq.
  - rewrite fmap_cons, not_elem_of_cons. split; [done|by apply IH].
Qed.

(** With pairwise distinct titles, no title that was looked up is left. *)
Lemma remove_titles_gone m ts L t :
  NoDup (title_at m <$> L) → t ∈ ts →
  Some t ∉ title_at m <$> remove_titles m ts L.
Proof.
  unfold remove_titles. revert L.
  induction ts as [|t' ts IH]; intros L Hnd Hin; [by apply elem_of_nil in Hin|].
  simpl. apply elem_of_cons in Hin as [->|Hin].
  - intros Hmem. apply (remove_title_gone m t' L Hnd).
    eapply sublist_subseteq; [|exact Hmem].
    apply fmap_sublist. apply (remove_titles_sublist m ts).
  - apply IH; [|done].
    eapply sublist_NoDup; [exact Hnd|].
    apply fmap_sublist, remove_title_sublist.
Qed.

(** The invariant of the loop of [loadMovieWatchlist]: [m0] is the memory
    the load started from, in which the titles of the library are read. *)
Lemma loadMovieWatchlist_loop_spec fuel m0 : ∀ records m library watchlist L W,
  is_list m library L →
  is_list m watchlist W →
  (∀ c, c ∈ L → c ∉ W) →
  (∀ c, c ∈ L → title_at m c = title_at m0 c) →
  length L < fuel →
  length W + length records < fuel →
  ∃ watchlist' library' m' W',
    loadMovieWatchlist_loop fuel records library watchlist m =
      Ret (watchlist', library', m') ∧
    is_list m' watchlist' (W ++ W') ∧
    is_list m' library'
      (remove_titles m0 ((λ r : line, r.1.1) <$> take (length W') records) L) ∧
    fields_at m' <$> W' = Some <$> take (length W') records ∧
    (∀ c, is_Some (cells m !! c) → fields_at m' c = fields_at m c) ∧
    take (length W') records = creatable (avail m) records.
Proof.
  induction records as [|[[t g] d] rest IH];
    intros m library watchlist L W HL HW Hdisj Htit HfL HfW.
  { exists watchlist, library, m, []. simpl. rewrite app_nil_r.
    repeat split; done. }
  cbn [loadMovieWatchlist_loop].
  destruct (createMovieNode (Some t) (Some g) d m) as [[x|] m1] eqn:Hcreate.
  2:{ exists watchlist, library, m1, []. simpl. rewrite app_nil_r.
      pose proof (createMovieNode_NULL (Some t) (Some g) d m) as Hcells.
      rewrite Hcreate in Hcells. simpl in Hcells. specialize (Hcells eq_refl).
      split; [done|]. split.
      { eapply lseg_frame; [|exact HW]. intros c _. by rewrite Hcells. }
      split.
      { eapply lseg_frame; [|exact HL]. intros c _. by rewrite Hcells. }
      split; [done|]. split.
      { intros c _. unfold fields_at. by rewrite Hcells. }
      destruct (createMovieNode_fails _ _ _ _ _ Hcreate)
        as (_ & _ & [[Hno _]|(_ & H0 & _)]).
      - destruct (avail m); [done|]. cbn [creatable]. by rewrite decide_False.
      - by rewrite H0. }
  pose proof (createMovieNode_avail _ _ _ _ _ _ Hcreate) as Hav1.
  pose proof (createMovieNode_fits _ _ _ _ _ _ Hcreate) as Hfit1.
  apply createMovieNode_Some in Hcreate as [Hfresh Hcells1].
  (* the memory with the new node *)
  assert (∀ c, is_Some (cells m !! c) → cells m1 !! c = cells m !! c) as Hold1.
  { intros c Hc. rewrite Hcells1. apply lookup_insert_ne. intros ->.
    rewrite Hfresh in Hc. by destruct Hc. }
  assert (∀ p l, is_list m p l → is_list m1 p l ∧ x ∉ l) as Hto1.
  { intros p l Hl. split.
    - eapply lseg_frame; [|exact Hl]. intros c Hc. apply Hold1.
      destruct (is_list_cell _ _ _ _ Hl Hc) as [node ->]. by eexists.
    - intros Hin. destruct (is_list_cell _ _ _ _ Hl Hin) as [node Hn].
      by rewrite Hfresh in Hn. }
  destruct (Hto1 _ _ HL) as [HL1 HxL]. destruct (Hto1 _ _ HW) as [HW1 HxW].
  assert (cells m1 !! x = Some (mkMovie t g d NULL)) as Hx1.
  { rewrite Hcells1. apply lookup_insert_eq. }
  (* the append *)
  destruct (appendMovie_ok fuel m1 watchlist W x _ HW1 Hx1 HxW)
    as (watchlist2 & m2 & Happ & HW2 & Hsf2 & Hfr2 & Hav2); [simpl in HfW; lia|].
  rewrite Happ, bind_Ret. cbv beta iota.
  assert (fields_at m2 x = Some (t, g, d)) as Hfx2.
  { rewrite Hsf2. unfold fields_at. by rewrite Hx1. }
  destruct (fields_at_Some _ _ _ Hfx2) as (nodex2 & Hx2 & Hfields).
  rewrite (deref_Some _ _ _ Hx2), bind_Ret.
  assert (title nodex2 = t) as -> by (by injection Hfields).
  assert (is_list m2 library L) as HL2.
  { eapply lseg_frame; [|exact HL1]. intros c Hc. apply Hfr2.
    intros [Hin|Hin]%elem_of_app.
    - by apply (Hdisj c).
    - apply list_elem_of_singleton in Hin. by subst c. }
  assert (∀ c, c ∈ L → title_at m2 c = title_at m0 c) as Htit2.
  { intros c Hc. rewrite (same_fields_title m1 m2) by done.
    rewrite <- (Htit c Hc). unfold title_at. f_equal. apply Hold1.
    destruct (is_list_cell _ _ _ _ HL Hc) as [node ->]. by eexists. }
  assert (∀ c, is_Some (cells m !! c) → fields_at m2 c = fields_at m c) as Hold2.
  { intros c Hc. rewrite Hsf2. unfold fields_at. f_equal. by apply Hold1. }
  (* the search in the library *)
  destruct (remove_title_split m0 t L)
    as [[Hne Hrem]|(l1 & a & l2 & HeqL & Ha & Hne & Hrem)].
  - rewrite (searchByTitle_absent fuel m2 library L t); [|done| |lia].
    2:{ intros c Hc. rewrite (Htit2 c Hc). by apply Hne. }
    rewrite bind_Ret. cbv iota.
    destruct (IH m2 library watchlist2 L (W ++ [x]))
      as (watchlist' & library' & m' & W' & Hrun & HW' & HL' & HfW' & Hold' & Hall);
      [done|done| |done|done| |].
    { intros c Hc [Hin|Hin]%elem_of_app; [by apply (Hdisj c)|].
      apply list_elem_of_singleton in Hin. by subst c. }
    { rewrite length_app. simpl in *. lia. }
    exists watchlist', library', m', (x :: W'). split; [done|].
    split. { by rewrite <- app_assoc in HW'. }
    split.
    { cbn [length firstn]. rewrite fmap_cons. unfold remove_titles in *.
      cbn [foldl fst]. by rewrite Hrem. }
    split.
    { cbn [length firstn]. rewrite !fmap_cons, HfW'. f_equal.
      rewrite Hold'; [done|by eexists]. }
    split.
    { intros c Hc. rewrite Hold'; [by apply Hold2|].
      apply fields_at_is_Some. rewrite Hold2 by done. by apply fields_at_is_Some. }
    rewrite Hav1. cbn [length firstn creatable]. rewrite decide_True by done.
    f_equal. rewrite Hall. f_equal. lia.
  - subst L.
    rewrite (searchByTitle_found fuel m2 library l1 a l2 t); [|done| | |].
    2:{ rewrite Htit2; [done|]. apply elem_of_middle. }
    2:{ intros c Hc. rewrite Htit2; [by apply Hne|]. apply elem_of_app. by left. }
    2:{ rewrite length_app in HfL. lia. }
    rewrite bind_Ret. cbv iota.
    destruct (removeMovie_ok fuel m2 library l1 a l2)
      as (library3 & m3 & Hrm & HL3 & Hsf3 & Hfr3 & Hav3); [done| |].
    { rewrite length_app in HfL. lia. }
    rewrite Hrm, bind_Ret. cbv beta iota.
    destruct (IH m3 library3 watchlist2 (l1 ++ l2) (W ++ [x]))
      as (watchlist' & library' & m' & W' & Hrun & HW' & HL' & HfW' & Hold' & Hall).
    { done. }
    { eapply lseg_frame; [|exact HW2]. intros c Hc. apply Hfr3.
      intros Hin. apply elem_of_app in Hc as [Hc|Hc].
      - by apply (Hdisj c).
      - apply list_elem_of_singleton in Hc. by subst c. }
    { intros c Hc [Hin|Hin]%elem_of_app.
      - apply (Hdisj c); [by apply elem_of_without|done].
      - apply list_elem_of_singleton in Hin. subst c. apply HxL.
        by apply elem_of_without. }
    { intros c Hc. rewrite (same_fields_title m2 m3) by done.
      apply Htit2. by apply elem_of_without. }
    { rewrite !length_app in *. simpl in *. lia. }
    { rewrite length_app. simpl in *. lia. }
    exists watchlist', library', m', (x :: W'). split; [done|].
    split. { by rewrite <- app_assoc in HW'. }
    split.
    { cbn [length firstn]. rewrite fmap_cons. unfold remove_titles in *.
      cbn [foldl fst]. by rewrite Hrem. }
    split.
    { cbn [length firstn]. rewrite !fmap_cons, HfW'. f_equal. rewrite Hold'.
      - by rewrite Hsf3.
      - apply fields_at_is_Some. rewrite Hsf3, Hfx2. by eexists. }
    split.
    { intros c Hc. rewrite Hold'; [by rewrite Hsf3; apply Hold2|].
      apply fields_at_is_Some. rewrite Hsf3, Hold2 by done.
      by apply fields_at_is_Some. }
    rewrite Hav1. cbn [length firstn creatable]. rewrite decide_True by done.
    f_equal. rewrite Hall. f_equal. lia.
Qed.

(** C10, as amended: for every record up to the first whose node cannot be
    created, [loadMovieWatchlist] appends the new node to the watchlist and
    then unlinks the first library node with the same title, if there is
    one; the records from that one on are not loaded.  When the titles of
    the library are pairwise distinct, no title of the loaded watchlist is
    the title of a node left in the library. *)
Theorem loadMovieWatchlist_titles fuel m library L records :
  is_list m library L →
  length L < fuel →
  length records < fuel →
  ∃ watchlist library' m' W,
    let loaded := creatable (avail m) records in
    let L' := remove_titles m ((λ r : line, r.1.1) <$> loaded) L in
    loadMovieWatchlist fuel records library m = Ret (watchlist, library', m') ∧
    is_list m' watchlist W ∧
    fields_at m' <$> W = Some <$> loaded ∧
    (length records ≤ avail m → Forall fits records → loaded = records) ∧
    is_list m' library' L' ∧
    (∀ c, c ∈ L → fields_at m' c = fields_at m c) ∧
    (NoDup (title_at m <$> L) →
     ∀ w c, w ∈ W → c ∈ L' → title_at m' w ≠ title_at m' c).
Proof.
  intros HL HfL Hfr.
  destruct (loadMovieWatchlist_loop_spec fuel m records m library NULL L [])
    as (watchlist & library' & m' & W & Hrun & HW & HL' & HfW & Hold & Hall);
    [done|done|by intros c _ ?%elem_of_nil|done|done|simpl; lia|].
  rewrite Hall in HL', HfW.
  exists watchlist, library', m', W. cbv zeta.
  split; [done|]. split; [done|]. split; [done|]. split.
  { apply creatable_all. }
  split; [done|].
  assert (∀ c, c ∈ L → fields_at m' c = fields_at m c) as HoldL.
  { intros c Hc. apply Hold. by apply (is_list_cell m library L). }
  split; [done|].
  intros Hnd w c Hw Hc Heq.
  apply list_elem_of_lookup in Hw as [i Hi].
  assert (fields_at m' <$> W !! i = Some <$> creatable (avail m) records !! i)
    as Hlk.
  { by rewrite <- !list_lookup_fmap, HfW. }
  rewrite Hi in Hlk. simpl in Hlk.
  destruct (creatable (avail m) records !! i) as [r|] eqn:Hr; [|done].
  simpl in Hlk. injection Hlk as Hfw.
  assert (title_at m' w = Some r.1.1) as Htw.
  { by rewrite title_at_fields, Hfw. }
  assert (c ∈ L) as HcL.
  { eapply sublist_subseteq; [apply remove_titles_sublist|exact Hc]. }
  assert (title_at m' c = title_at m c) as Htc.
  { by rewrite !title_at_fields, HoldL. }
  apply (remove_titles_gone m ((λ r : line, r.1.1) <$> creatable (avail m) records)
           L r.1.1 Hnd).
  - apply list_elem_of_fmap. exists r. split; [done|].
    by apply list_elem_of_lookup_2 in Hr.
  - rewrite <- Htw, Heq, Htc. apply list_elem_of_fmap. by exists c.
Qed.

(** ** Further properties of the list functions *)

Lemma first_titled_split m t l :
  ((∀ c, c ∈ l → title_at m c ≠ Some t) ∧ first_titled m t l = NULL) ∨
  (∃ l1 a l2, l = l1 ++ a :: l2 ∧ title_at m a = Some t ∧
     (∀ c, c ∈ l1 → title_at m c ≠ Some t) ∧ first_titled m t l = Some a).
Proof.
  induction l as [|a l IH]; simpl.
  - left. split; [|done]. by intros c ?%elem_of_nil.
  - case_decide as Ha.
    + right. exists [], a, l. split; [done|]. split; [done|].
      split; [|done]. by intros c ?%elem_of_nil.
    + destruct IH as [[Hne Heq]|(l1 & b & l2 & -> & Hb & Hne & Heq)].
      * left. split; [|done].
        intros c [->|Hc]%elem_of_cons; [done|by apply Hne].
      * right. exists (a :: l1), b, l2. split; [done|]. split; [done|].
        split; [|done].
        intros c [->|Hc]%elem_of_cons; [done|by apply Hne].
Qed.

(** X1: [getCount] returns the number of nodes of the list, 0 for the
    empty list. *)
Theorem getCount_is_length fuel m list l :
  is_list m list l →
  length l ≤ fuel →
  (Z.of_nat (length l) ≤ INT_MAX)%Z →
  getCount fuel m list = Ret (Z.of_nat (length l)).
Proof. apply getCount_spec. Qed.

(** X2: [searchByTitle] returns the first node, from the head, whose title
    is the one looked for, and [NULL] when there is none, the list being
    empty or not. *)
Theorem searchByTitle_first_match fuel m list l t :
  is_list m list l →
  length l ≤ fuel →
  searchByTitle fuel m list (Some t) = Ret (first_titled m t l).
Proof.
  intros Hl Hf.
  destruct (first_titled_split m t l)
    as [[Hne ->]|(l1 & a & l2 & -> & Ha & Hne & ->)].
  - by apply (searchByTitle_absent fuel m list l).
  - apply (searchByTitle_found fuel m list l1 a l2); try done.
    rewrite length_app in Hf. simpl in Hf. lia.
Qed.

(** X3: [getNodePosition] returns 0 when some node of the list has the
    title, whatever its index, and -1 when none has. *)
Theorem getNodePosition_zero_or_minus_one fuel m list l t :
  is_list m list l →
  length l ≤ fuel →
  getNodePosition fuel m list (Some t) =
  Ret (if first_titled m t l is Some _ then 0 else -1)%Z.
Proof.
  intros Hl Hf.
  destruct (first_titled_split m t l)
    as [[Hne ->]|(l1 & a & l2 & -> & Ha & Hne & ->)].
  - by apply (getNodePosition_absent fuel m list l).
  - apply (getNodePosition_found fuel m list l1 a l2); try done.
    rewrite length_app in Hf. simpl in Hf. lia.
Qed.

Lemma printMovieList_loop_spec m l : ∀ fuel a,
  is_list m (Some a) (a :: l) → length l < fuel →
  ∃ printed,
    printMovieList_loop fuel m (Some a) = Ret printed ∧
    Some <$> printed = fields_at m <$> (a :: l).
Proof.
  induction l as [|b l IH]; intros fuel a [_ (node & Ha & Hl)] Hf;
    (destruct fuel as [|fuel]; [simpl in Hf; lia|]);
    cbn [printMovieList_loop]; rewrite (deref_Some _ _ _ Ha), bind_Ret.
  - simpl in Hl. rewrite Hl. eexists. split; [done|].
    simpl. unfold fields_at. by rewrite Ha.
  - pose proof Hl as [Hn _]. rewrite Hn in Hl |- *. cbv iota.
    destruct (IH fuel b Hl) as (rest & Hrest & Heq); [simpl in Hf; lia|].
    rewrite Hrest, bind_Ret. eexists. split; [done|].
    rewrite !fmap_cons. rewrite fmap_cons in Heq. rewrite Heq.
    f_equal. unfold fields_at. by rewrite Ha.
Qed.

(** X4: [printMovieList] prints one line per node, in list order, made of
    the title, genre and duration of the node; nothing for the empty
    list. *)
Theorem printMovieList_in_order fuel m list l :
  is_list m list l →
  length l ≤ fuel →
  ∃ printed,
    printMovieList fuel m list = Ret printed ∧
    Some <$> printed = fields_at m <$> l.
Proof.
  intros Hl Hf. destruct l as [|a l].
  - apply is_list_nil in Hl. subst list. by exists [].
  - pose proof Hl as [-> _]%is_list_cons. unfold printMovieList.
    apply printMovieList_loop_spec; [done|simpl in Hf; lia].
Qed.

(** X5: [removeMovie] of a node of the list returns that node and unlinks
    exactly it: the other nodes keep their order, every node keeps its
    data, and no node outside the list is written. *)
Theorem removeMovie_of_element fuel m list l1 a l2 :
  is_list m list (l1 ++ a :: l2) →
  length l1 < fuel →
  ∃ list' m',
    removeMovie fuel m list (Some a) = Ret (Some a, list', m') ∧
    is_list m' list' (l1 ++ l2) ∧
    same_fields m m' ∧
    (∀ c, c ∉ l1 ++ a :: l2 → cells m' !! c = cells m !! c).
Proof.
  intros Hl Hf.
  destruct (removeMovie_ok fuel m list l1 a l2 Hl Hf)
    as (list' & m' & H1 & H2 & H3 & H4 & _).
  by exists list', m'.
Qed.

(** X6: [removeMovie] of a node that is not in the list returns [NULL] and
    changes nothing when the list is empty or has two nodes or more; on a
    list of one node it reads through [NULL]. *)
Theorem removeMovie_of_stranger fuel m list l rm :
  is_list m list l →
  rm ∉ l →
  length l ≤ fuel →
  removeMovie fuel m list (Some rm) =
  match l with
  | [_] => Fault
  | _ => Ret (NULL, list, m)
  end.
Proof.
  intros Hl Hnin Hf. destruct l as [|h l].
  { apply is_list_nil in Hl. by subst list. }
  pose proof Hl as [-> (nodeh & Hh & Hrest)]%is_list_cons.
  unfold removeMovie. rewrite decide_False.
  2:{ intros [= ->]. apply Hnin. by left. }
  rewrite (deref_Some _ _ _ Hh), bind_Ret.
  destruct l as [|b l _] using rev_ind.
  - apply is_list_nil in Hrest. rewrite Hrest.
    destruct fuel as [|fuel]; [simpl in Hf; lia|]. cbn [removeMovie_loop].
    by rewrite decide_False.
  - apply lseg_snoc in Hrest as (H1 & nodeb & Hb & Hn).
    simpl in Hf. rewrite length_app in Hf. simpl in Hf.
    replace fuel with (length l + (fuel - length l)) by lia.
    rewrite (removeMovie_loop_walk m (Some rm) (Some b) l);
      [|done|by right|].
    2:{ intros c Hc [= ->]. apply Hnin. right. apply elem_of_app. by left. }
    destruct (fuel - length l) as [|f] eqn:Ef; [lia|].
    cbn [removeMovie_loop]. rewrite decide_False.
    2:{ intros [= ->]. apply Hnin. right. apply elem_of_app. right. by left. }
    rewrite (deref_Some _ _ _ Hb), bind_Ret, Hn, bind_Ret.
    by destruct l.
Qed.

(** X7: [appendMovie] of a node that is not in the list succeeds and makes
    it the last node, after the former nodes in their order; every node
    keeps its data and no other node outside the list is written. *)
Theorem appendMovie_links_last fuel m list l x nodex :
  is_list m list l →
  cells m !! x = Some nodex →
  x ∉ l →
  length l < fuel →
  ∃ list' m',
    appendMovie fuel m list (Some x) = Ret (0%Z, list', m') ∧
    is_list m' list' (l ++ [x]) ∧
    same_fields m m' ∧
    (∀ c, c ∉ l ++ [x] → cells m' !! c = cells m !! c).
Proof.
  intros Hl Hx Hnin Hf.
  destruct (appendMovie_ok fuel m list l x nodex Hl Hx Hnin Hf)
    as (list' & m' & H1 & H2 & H3 & H4 & _).
  by exists list', m'.
Qed.

(** X8: moving up a movie first found at the second node swaps it with
    the head. *)
Theorem MoveMovieUp_swaps_with_head fuel m a b l2 t :
  is_list m (Some a) (a :: b :: l2) →
  title_at m a ≠ Some t →
  title_at m b = Some t →
  1 < fuel →
  ∃ m',
    handleWatchlistMenuOption_MoveMovieUp fuel t (Some a) m = Ret (Some b, m') ∧
    is_list m' (Some b) (b :: a :: l2) ∧ same_fields m m'.
Proof. apply MoveMovieUp_second. Qed.

(** X9: moving down the movie found at the head, when it is not the only
    one, swaps it with the second node. *)
Theorem MoveMovieDown_swaps_head fuel m a b l2 t :
  is_list m (Some a) (a :: b :: l2) →
  title_at m a = Some t →
  0 < fuel →
  ∃ m',
    handleWatchlistMenuOption_MoveMovieDown fuel t (Some a) m = Ret (Some b, m') ∧
    is_list m' (Some b) (b :: a :: l2) ∧ same_fields m m'.
Proof. apply MoveMovieDown_first. Qed.

(** X10: moving up a movie first found at index 2 or later does not swap
    it: the watchlist keeps its other nodes in their order and no longer
    holds the movie. *)
Theorem MoveMovieUp_unlinks_later fuel m watchlist l0 p a b l2 t :
  is_list m watchlist (l0 ++ p :: a :: b :: l2) →
  (∀ c, c ∈ l0 ++ [p; a] → title_at m c ≠ Some t) →
  title_at m b = Some t →
  length (l0 ++ [p; a]) < fuel →
  ∃ m',
    handleWatchlistMenuOption_MoveMovieUp fuel t watchlist m = Ret (watchlist, m') ∧
    is_list m' watchlist (l0 ++ p :: a :: l2) ∧ same_fields m m'.
Proof. apply MoveMovieUp_later. Qed.

(** X11: moving down a movie first found at index 1 or later, and not
    last, does not swap it: the watchlist keeps the movie in place and no
    longer holds the movie that followed it. *)
Theorem MoveMovieDown_unlinks_successor fuel m watchlist l0 p a b l2 t :
  is_list m watchlist (l0 ++ p :: a :: b :: l2) →
  (∀ c, c ∈ l0 ++ [p] → title_at m c ≠ Some t) →
  title_at m a = Some t →
  length (l0 ++ [p]) < fuel →
  ∃ m',
    handleWatchlistMenuOption_MoveMovieDown fuel t watchlist m =
      Ret (watchlist, m') ∧
    is_list m' watchlist (l0 ++ p :: a :: l2) ∧ same_fields m m'.
Proof. apply MoveMovieDown_later. Qed.

(** ** Creating a node and reading an integer *)

(** X12: [createMovieNode] returns a node exactly when both strings are
    given, neither has more than 34 characters and memory is left.  The
    node is then at an address that held no node, carries the title, the
    genre and the duration with a [NULL] link, and no other node changes.
    Otherwise no node changes and [errno] is [EINVAL], [ERANGE] or [ENOMEM]
    in that order of precedence. *)
Theorem createMovieNode_outcome t g d m :
  match createMovieNode t g d m with
  | (Some x, m') =>
      ∃ ts gs, t = Some ts ∧ g = Some gs ∧
        String.length ts ≤ 34 ∧ String.length gs ≤ 34 ∧
        cells m !! x = None ∧
        cells m' = <[x := mkMovie ts gs d NULL]> (cells m) ∧
        avail m = S (avail m') ∧ errno m' = errno m
  | (None, m') =>
      cells m' = cells m ∧ avail m' = avail m ∧
      errno m' =
        match t, g with
        | Some ts, Some gs =>
            if decide (String.length ts ≤ 34 ∧ String.length gs ≤ 34)
            then ENOMEM else ERANGE
        | _, _ => EINVAL
        end ∧
      (t = None ∨ g = None ∨
       (∃ ts, t = Some ts ∧ 34 < String.length ts) ∨
       (∃ gs, g = Some gs ∧ 34 < String.length gs) ∨
       avail m = 0)
  end.
Proof.
  unfold createMovieNode, calloc.
  destruct t as [ts|], g as [gs|]; simpl;
    try (split; [done|]; split; [done|]; split; [done|]; auto; fail).
  destruct (Nat.ltb_spec 34 (String.length ts)) as [Ht|Ht]; simpl.
  { split; [done|]. split; [done|]. split.
    - rewrite decide_False; [done|lia].
    - right; right; left. by exists ts. }
  destruct (Nat.ltb_spec 34 (String.length gs)) as [Hg|Hg]; simpl.
  { split; [done|]. split; [done|]. split.
    - rewrite decide_False; [done|lia].
    - right; right; right; left. by exists gs. }
  destruct (avail m) as [|k] eqn:Hav; simpl.
  - split; [done|]. split; [done|]. split.
    + by rewrite decide_True.
    + by repeat right.
  - exists ts, gs. split; [done|]. split; [done|]. split; [done|].
    split; [done|]. split; [|split; [|done]].
    + apply not_elem_of_dom. apply is_fresh.
    + apply insert_insert_eq.
Qed.

Lemma to_int_int (v : Z) : (- 2 ^ 31 ≤ v < 2 ^ 31)%Z → to_int v = v.
Proof.
  intros Hv. unfold to_int. rewrite Z.mod_small; lia.
Qed.

Lemma to_int_range (v : Z) : (- 2 ^ 31 ≤ to_int v < 2 ^ 31)%Z.
Proof.
  unfold to_int. pose proof (Z.mod_pos_bound (v + 2 ^ 31) (2 ^ 32)). lia.
Qed.

(** X13: [promptForInt] returns the first value typed that, once stored in
    an [int], lies between the two bounds, skipping those before it, and
    never returns when no such value is typed.  A typed value in the range
    of [int] is stored as it is; one out of that range is judged, and
    returned, by its low 32 bits. *)
Theorem promptForInt_first_in_range minValue maxValue stdin :
  match promptForInt minValue maxValue stdin with
  | Ret (integer, rest) =>
      (minValue ≤ integer ≤ maxValue)%Z ∧
      ∃ skipped typed,
        stdin = skipped ++ typed :: rest ∧
        integer = to_int typed ∧
        ((- 2 ^ 31 ≤ typed < 2 ^ 31)%Z → integer = typed) ∧
        Forall (λ i, to_int i < minValue ∨ maxValue < to_int i)%Z skipped
  | Timeout => Forall (λ i, to_int i < minValue ∨ maxValue < to_int i)%Z stdin
  | Fault => False
  end.
Proof.
  induction stdin as [|i stdin IH]; [by constructor|].
  cbn [promptForInt]. cbv zeta.
  destruct (Z.ltb_spec (to_int i) minValue) as [Hlo|Hlo]; cbn [orb].
  { destruct (promptForInt minValue maxValue stdin) as [[integer rest]| |];
      [|done|by constructor; [left|]].
    destruct IH as [Hr (skipped & typed & -> & Hi & Hid & Hsk)].
    split; [done|]. exists (i :: skipped), typed. split; [done|].
    split; [done|]. split; [done|]. constructor; [by left|done]. }
  destruct (Z.ltb_spec maxValue (to_int i)) as [Hhi|Hhi].
  { destruct (promptForInt minValue maxValue stdin) as [[integer rest]| |];
      [|done|by constructor; [right|]].
    destruct IH as [Hr (skipped & typed & -> & Hi & Hid & Hsk)].
    split; [done|]. exists (i :: skipped), typed. split; [done|].
    split; [done|]. split; [done|]. constructor; [by right|done]. }
  split; [lia|]. exists [], i. split; [done|]. split; [done|].
  split; [apply to_int_int|constructor].
Qed.

(** ** Moving a movie between the library and the watchlist *)

Lemma insertMovie_ok_frame fuel m list l1 l2 x nodex :
  is_list m list (l1 ++ l2) →
  cells m !! x = Some nodex →
  x ∉ l1 ++ l2 →
  l1 = [] ∨ l2 ≠ [] →
  length (l1 ++ l2) < fuel →
  (Z.of_nat (length (l1 ++ l2)) < INT_MAX)%Z →
  ∃ list' m',
    insertMovie fuel m list (Some x) (Z.of_nat (length l1)) = Ret (0%Z, list', m') ∧
    is_list m' list' (l1 ++ x :: l2) ∧ same_fields m m' ∧
    (∀ c, c ∉ l1 ++ x :: l2 → cells m' !! c = cells m !! c).
Proof.
  intros Hl Hx Hnin Hcase Hf Hc.
  destruct l1 as [|h l1 _] using rev_ind.
  - destruct fuel as [|fuel]; [lia|]. simpl length.
    rewrite (insertMovie_head _ _ _ _ _ Hx). do 2 eexists. split; [done|].
    split; [by apply is_list_insert_head|]. split; [by apply same_fields_poke|].
    intros c Hc'. apply cells_poke_ne. intros ->. apply Hc'. by left.
  - destruct Hcase as [Hcase|Hl2]; [by destruct l1|].
    rewrite <- app_assoc in Hl, Hnin. simpl in Hl, Hnin.
    rewrite !length_app in Hf, Hc. simpl in Hf, Hc.
    pose proof Hl as Hl'.
    apply lseg_app in Hl' as (r & H1 & [-> (nodeh & Hh & H2)]).
    assert (next nodeh ≠ NULL) as Hq.
    { destruct l2 as [|c l2]; [done|]. destruct H2 as [-> _]. done. }
    assert (x ≠ h) as Hxh.
    { intros ->. apply Hnin. apply elem_of_middle. }
    rewrite length_app. simpl length.
    replace (length l1 + 1) with (S (length l1)) by lia.
    rewrite (insertMovie_after fuel m list l1 h nodeh x nodex); [|done..|lia|lia].
    do 2 eexists. split; [done|]. rewrite snoc_app. split.
    + by apply is_list_insert_after.
    + split; [by apply same_fields_poke2|].
      intros c Hc'. rewrite !cells_poke_ne; [done|..]; intros ->; apply Hc'.
      * apply elem_of_app. right. by left.
      * apply elem_of_app. right. right. by left.
Qed.

Lemma promptForInt_between minValue maxValue stdin integer rest :
  promptForInt minValue maxValue stdin = Ret (integer, rest) →
  (minValue ≤ integer ≤ maxValue)%Z.
Proof. apply promptForInt_range. Qed.

Lemma promptForInt_empty_range minValue maxValue stdin :
  (maxValue < minValue)%Z → promptForInt minValue maxValue stdin = Timeout.
Proof.
  intros H. induction stdin as [|i stdin IH]; [done|].
  cbn [promptForInt]. cbv zeta.
  destruct (Z.ltb_spec (to_int i) minValue); cbn [orb]; [done|].
  destruct (Z.ltb_spec maxValue (to_int i)); [done|lia].
Qed.


(** The state reached when the copy [x] was created in [m]. *)
Lemma created_frame ts gs d m x m1 :
  createMovieNode (Some ts) (Some gs) d m = (Some x, m1) →
  cells m !! x = None ∧
  cells m1 !! x = Some (mkMovie ts gs d NULL) ∧
  (∀ c, is_Some (cells m !! c) → cells m1 !! c = cells m !! c) ∧
  (∀ p l, is_list m p l → is_list m1 p l ∧ x ∉ l).
Proof.
  intros Hcreate. apply createMovieNode_Some in Hcreate as [Hfresh Hcells1].
  assert (∀ c, is_Some (cells m !! c) → cells m1 !! c = cells m !! c) as Hold.
  { intros c Hc. rewrite Hcells1. apply lookup_insert_ne. intros ->.
    rewrite Hfresh in Hc. by destruct Hc. }
  split; [done|]. split; [rewrite Hcells1; apply lookup_insert_eq|].
  split; [done|]. intros p l Hl. split.
  - eapply lseg_frame; [|exact Hl]. intros c Hc. apply Hold.
    destruct (is_list_cell _ _ _ _ Hl Hc) as [node ->]. by eexists.
  - intros Hin. destruct (is_list_cell _ _ _ _ Hl Hin) as [node Hn].
    by rewrite Hfresh in Hn.
Qed.

(** X14: adding to the watchlist a movie that the library holds, when its
    copy can be created: the copy is a new node with the data of the
    original, it takes the chosen place in the watchlist (first, last, or
    the typed position counted from 1), the original is unlinked from the
    library, and every node that existed keeps its data. *)
Theorem handleAddMovieMenuOption_moves_copy fuel m library watchlist l1 a l2 W
    nodea option position rest stdin :
  is_list m library (l1 ++ a :: l2) →
  is_list m watchlist W →
  (∀ c, c ∈ W → c ∉ l1 ++ a :: l2) →
  cells m !! a = Some nodea →
  String.length (title nodea) ≤ 34 →
  String.length (genre nodea) ≤ 34 →
  0 < avail m →
  (option = InsertWithin →
   promptForInt 1 (Z.of_nat (length W)) stdin = Ret (position, rest)) →
  length (l1 ++ a :: l2) < fuel →
  S (length W) < fuel →
  (Z.of_nat (length W) < INT_MAX)%Z →
  ∃ x library' watchlist' m',
    handleAddMovieMenuOption fuel option (Some a) library watchlist m stdin =
      Ret (library', watchlist', m') ∧
    cells m !! x = None ∧
    fields_at m' x = Some (fields nodea) ∧
    is_list m' watchlist' (added option position x W) ∧
    is_list m' library' (l1 ++ l2) ∧
    (∀ c, is_Some (cells m !! c) → fields_at m' c = fields_at m c).
Proof.
  intros HL HW Hdisj Ha Hts Hgs Hav Hprompt HfL HfW Hc.
  destruct (createMovieNode_succeeds (title nodea) (genre nodea) (duration nodea) m)
    as (x & m1 & Hcreate); [done..|].
  destruct (created_frame _ _ _ _ _ _ Hcreate) as (Hfresh & Hx1 & Hold1 & Hto1).
  destruct (Hto1 _ _ HL) as [HL1 HxL]. destruct (Hto1 _ _ HW) as [HW1 HxW].
  unfold handleAddMovieMenuOption.
  rewrite (deref_Some _ _ _ Ha), bind_Ret, Hcreate.
  (* the insertion, whatever the option *)
  assert (∃ watchlist' m2,
    is_list m2 watchlist' (added option position x W) ∧ same_fields m1 m2 ∧
    (∀ c, c ∉ x :: W → cells m2 !! c = cells m1 !! c) ∧
    match option with
    | AddToBeginning => insertMovie fuel m1 watchlist (Some x) 0
    | AddToEnd => appendMovie fuel m1 watchlist (Some x)
    | InsertWithin => insertMovie fuel m1 watchlist (Some x) (position - 1)
    end = Ret (0%Z, watchlist', m2)) as (watchlist' & m2 & HW2 & Hsf2 & Hfr2 & Hins).
  { destruct option; simpl added.
    - destruct (insertMovie_ok_frame fuel m1 watchlist [] W x _ HW1 Hx1 HxW)
        as (w' & m2 & H1 & H2 & H3 & H4); [by left|simpl; lia|simpl; lia|].
      simpl in H2, H4. change (Z.of_nat (length [])) with 0%Z in H1.
      exists w', m2. split; [done|]. split; [done|]. by split.
    - destruct (appendMovie_ok fuel m1 watchlist W x _ HW1 Hx1 HxW)
        as (w' & m2 & H1 & H2 & H3 & H4 & _); [lia|].
      exists w', m2. split; [done|]. split; [done|]. split; [|done].
      intros c Hc'. apply H4. intros Hin. apply Hc'.
      apply elem_of_app in Hin as [Hin|Hin]; [by right|].
      apply list_elem_of_singleton in Hin. subst c. by left.
    - specialize (Hprompt eq_refl).
      pose proof (promptForInt_range _ _ _ _ _ Hprompt) as Hrange.
      set (k := Z.to_nat (position - 1)).
      assert (k < length W) as Hk by lia.
      pose proof (take_drop k W) as Hsplit.
      destruct (insertMovie_ok_frame fuel m1 watchlist (take k W) (drop k W) x
                  (mkMovie (title nodea) (genre nodea) (duration nodea) NULL))
        as (w' & m2 & H1 & H2 & H3 & H4).
      + by rewrite Hsplit.
      + done.
      + by rewrite Hsplit.
      + right. intros Hd. apply (f_equal length) in Hd.
        rewrite length_drop in Hd. simpl in Hd. lia.
      + rewrite Hsplit. lia.
      + by rewrite Hsplit.
      + exists w', m2. split; [done|]. split; [done|]. split.
        { intros c Hc'. apply H4. intros Hin. apply Hc'.
          apply elem_of_app in Hin as [Hin|Hin].
          - right. rewrite <- Hsplit. apply elem_of_app. by left.
          - apply elem_of_cons in Hin as [->|Hin]; [by left|].
            right. rewrite <- Hsplit. apply elem_of_app. by right. }
        rewrite <- H1. f_equal. rewrite length_take. lia. }
  assert (is_list m2 library (l1 ++ a :: l2)) as HL2.
  { eapply lseg_frame; [|exact HL1]. intros c Hc'. apply Hfr2.
    intros [->|Hin]%elem_of_cons; [done|]. by apply (Hdisj c). }
  destruct (removeMovie_ok fuel m2 library l1 a l2)
    as (library3 & m3 & Hrm & HL3 & Hsf3 & Hfr3 & _); [done| |].
  { rewrite length_app in HfL. lia. }
  assert (∀ c, c ∈ added option position x W → c = x ∨ c ∈ W) as Hadded.
  { intros c. destruct option; simpl.
    - intros [->|?]%elem_of_cons; auto.
    - intros [?|Hin]%elem_of_app; [auto|].
      apply list_elem_of_singleton in Hin. auto.
    - unfold insert_at. intros [Hin|Hin]%elem_of_app.
      + right. rewrite <- (take_drop (Z.to_nat (position - 1)) W).
        apply elem_of_app. by left.
      + apply elem_of_cons in Hin as [->|Hin]; [by left|].
        right. rewrite <- (take_drop (Z.to_nat (position - 1)) W).
        apply elem_of_app. by right. }
  exists x, library3, watchlist', m3. split.
  { destruct option.
    - rewrite Hins, bind_Ret. cbv beta iota. by rewrite Hrm, bind_Ret.
    - rewrite Hins, bind_Ret. cbv beta iota. by rewrite Hrm, bind_Ret.
    - rewrite (getCount_spec m1 watchlist W); [|done|lia|lia].
      rewrite bind_Ret, (Hprompt eq_refl), bind_Ret. cbv beta iota.
      rewrite Hins, bind_Ret. cbv beta iota. by rewrite Hrm, bind_Ret. }
  split; [done|]. split.
  { rewrite Hsf3, Hsf2. unfold fields_at. by rewrite Hx1. }
  split.
  { eapply lseg_frame; [|exact HW2]. intros c Hc'. apply Hfr3.
    intros Hin. destruct (Hadded c Hc') as [->|HcW]; [done|].
    by apply (Hdisj c). }
  split; [done|].
  intros c Hc'. rewrite Hsf3, Hsf2. unfold fields_at. f_equal. by apply Hold1.
Qed.

(** X15: removing from the watchlist a movie that it holds, when its copy
    can be created: the first node with the typed title is unlinked from
    the watchlist, and a new node with its data becomes the last node of
    the library; every node that existed keeps its data. *)
Theorem RemoveMovie_moves_copy fuel m library watchlist l1 a l2 L nodea t :
  is_list m watchlist (l1 ++ a :: l2) →
  is_list m library L →
  (∀ c, c ∈ L → c ∉ l1 ++ a :: l2) →
  cells m !! a = Some nodea →
  title nodea = t →
  (∀ c, c ∈ l1 → title_at m c ≠ Some t) →
  String.length (title nodea) ≤ 34 →
  String.length (genre nodea) ≤ 34 →
  0 < avail m →
  length (l1 ++ a :: l2) < fuel →
  length L < fuel →
  ∃ x library' watchlist' m',
    handleWatchlistMenuOption_RemoveMovie fuel t library watchlist m =
      Ret (library', watchlist', m') ∧
    cells m !! x = None ∧
    fields_at m' x = Some (fields nodea) ∧
    is_list m' watchlist' (l1 ++ l2) ∧
    is_list m' library' (L ++ [x]) ∧
    (∀ c, is_Some (cells m !! c) → fields_at m' c = fields_at m c).
Proof.
  intros HW HL Hdisj Ha Ht Hne Hts Hgs Hav HfW HfL.
  destruct (createMovieNode_succeeds (title nodea) (genre nodea) (duration nodea) m)
    as (x & m1 & Hcreate); [done..|].
  destruct (created_frame _ _ _ _ _ _ Hcreate) as (Hfresh & Hx1 & Hold1 & Hto1).
  destruct (Hto1 _ _ HL) as [HL1 HxL]. destruct (Hto1 _ _ HW) as [HW1 HxW].
  unfold handleWatchlistMenuOption_RemoveMovie.
  rewrite (searchByTitle_found fuel m watchlist l1 a l2 t); [|done| |done|].
  2:{ by rewrite (title_at_Some _ _ _ Ha), Ht. }
  2:{ rewrite length_app in HfW. lia. }
  rewrite bind_Ret. cbv iota.
  rewrite (deref_Some _ _ _ Ha), bind_Ret, Hcreate.
  destruct (removeMovie_ok fuel m1 watchlist l1 a l2)
    as (watchlist2 & m2 & Hrm & HW2 & Hsf2 & Hfr2 & _); [done| |].
  { rewrite length_app in HfW. lia. }
  rewrite Hrm, bind_Ret. cbv beta iota.
  assert (is_list m2 library L) as HL2.
  { eapply lseg_frame; [|exact HL1]. intros c Hc. apply Hfr2. by apply Hdisj. }
  assert (cells m2 !! x = Some (mkMovie (title nodea) (genre nodea)
                                  (duration nodea) NULL)) as Hx2.
  { by rewrite Hfr2. }
  destruct (appendMovie_ok fuel m2 library L x _ HL2 Hx2 HxL)
    as (library3 & m3 & Happ & HL3 & Hsf3 & Hfr3 & _); [lia|].
  rewrite Happ, bind_Ret.
  exists x, library3, watchlist2, m3. split; [done|]. split; [done|].
  split. { rewrite Hsf3, Hsf2. unfold fields_at. by rewrite Hx1. }
  split.
  { eapply lseg_frame; [|exact HW2]. intros c Hc. apply Hfr3.
    intros [Hin|Hin]%elem_of_app.
    - apply (Hdisj c Hin). by apply elem_of_without.
    - apply list_elem_of_singleton in Hin. subst c. apply HxW.
      by apply elem_of_without. }
  split; [done|].
  intros c Hc. rewrite Hsf3, Hsf2. unfold fields_at. f_equal. by apply Hold1.
Qed.

(** X16: the title searched for is what the array of 35 characters holds
    of the typed line, at most 34 characters.  When no node of the
    searched list carries it, nothing changes: adding it from the library,
    moving it up or down in the watchlist and removing it from the
    watchlist all leave both lists and the memory as they were. *)
Theorem absent_title_changes_nothing fuel m searched l t :
  String.length t ≤ 34 →
  is_list m searched l →
  (∀ c, c ∈ l → title_at m c ≠ Some t) →
  length l ≤ fuel →
  (∀ watchlist stdin,
     handleAddMovie fuel t searched watchlist m stdin =
     Ret (searched, watchlist, m)) ∧
  handleWatchlistMenuOption_MoveMovieUp fuel t searched m = Ret (searched, m) ∧
  handleWatchlistMenuOption_MoveMovieDown fuel t searched m = Ret (searched, m) ∧
  (∀ library,
     handleWatchlistMenuOption_RemoveMovie fuel t library searched m =
     Ret (library, searched, m)).
Proof.
  intros _ Hl Hne Hf.
  pose proof (searchByTitle_absent fuel m searched l t Hl Hne Hf) as Hs.
  unfold handleAddMovie, handleWatchlistMenuOption_MoveMovieUp,
    handleWatchlistMenuOption_MoveMovieDown,
    handleWatchlistMenuOption_RemoveMovie.
  rewrite Hs. by repeat split.
Qed.

(** X17: inserting at a position into an empty watchlist never gets past
    the prompt for the position, whatever is typed: the prompt asks for an
    integer between 1 and 0. *)
Theorem InsertWithin_empty_watchlist_never_returns fuel m a node library stdin :
  cells m !! a = Some node →
  handleAddMovieMenuOption fuel InsertWithin (Some a) library NULL m stdin =
  Timeout.
Proof.
  intros Ha. unfold handleAddMovieMenuOption.
  rewrite (deref_Some _ _ _ Ha), bind_Ret.
  destruct (createMovieNode _ _ _ m) as [newMovie m1].
  simpl getCount. rewrite bind_Ret.
  by rewrite promptForInt_empty_range.
Qed.

(** ** Releasing nodes *)

Lemma free_Some m a node :
  cells m !! a = Some node →
  free m (Some a) = Ret (mkMem (delete a (cells m)) (S (avail m)) (errno m)).
Proof. intros H. unfold free. by rewrite H. Qed.

Lemma deleteMovie_loop_removeMovie_loop a : ∀ fuel m prev itr,
  deleteMovie_loop fuel m (Some a) prev itr =
  '(removed, m') ← removeMovie_loop fuel m (Some a) prev itr;
  match removed with
  | Some _ => m3 ← free m' (Some a); Ret (0%Z, m3)
  | None => Ret ((-1)%Z, m')
  end.
Proof.
  induction fuel as [|fuel IH]; intros m prev itr; [done|].
  cbn [deleteMovie_loop removeMovie_loop]. case_decide as Hitr.
  - subst itr. destruct (deref m (Some a)) as [node| |]; [|done..].
    rewrite !bind_Ret.
    destruct (store_next m prev (next node)) as [m1| |]; [|done..].
    rewrite !bind_Ret.
    destruct (store_next m1 (Some a) None) as [m2| |]; [|done..].
    by rewrite !bind_Ret.
  - destruct (deref m itr) as [node| |]; [|done..]. rewrite !bind_Ret.
    destruct (next node); [apply IH|done].
Qed.

Lemma deleteMovie_removeMovie fuel m list a :
  deleteMovie fuel m list (Some a) =
  '(removed, list', m') ← removeMovie fuel m list (Some a);
  match removed with
  | Some _ => m3 ← free m' (Some a); Ret (0%Z, list', m3)
  | None => Ret ((-1)%Z, list', m')
  end.
Proof.
  unfold deleteMovie, removeMovie. destruct list as [h|]; [|done].
  case_decide as Hh.
  - destruct (deref m (Some a)) as [node| |]; [|done..]. by rewrite !bind_Ret.
  - destruct (deref m (Some h)) as [head| |]; [|done..]. rewrite !bind_Ret.
    rewrite deleteMovie_loop_removeMovie_loop.
    destruct (removeMovie_loop fuel m (Some a) (Some h) (next head))
      as [[removed m']| |]; [|done..].
    rewrite !bind_Ret. destruct removed; [|done].
    by destruct (free m' (Some a)).
Qed.

(** X18: [deleteMovie] is [removeMovie] followed by [free] of the node:
    status 0 and the node released when [removeMovie] returns it, status -1
    and nothing released when [removeMovie] returns [NULL]. *)
Theorem deleteMovie_is_removeMovie_then_free fuel m list a :
  deleteMovie fuel m list (Some a) =
  '(removed, list', m') ← removeMovie fuel m list (Some a);
  match removed with
  | Some _ => m3 ← free m' (Some a); Ret (0%Z, list', m3)
  | None => Ret ((-1)%Z, list', m')
  end.
Proof. apply deleteMovie_removeMovie. Qed.

(** X19: [deleteMovie] of a node of the list succeeds, unlinks it as
    [removeMovie] does and releases it: the node is no longer allocated,
    the other nodes of the list keep their order and their data, and no
    node outside the list changes. *)
Theorem deleteMovie_of_element fuel m list l1 a l2 :
  is_list m list (l1 ++ a :: l2) →
  length l1 < fuel →
  ∃ list' m',
    deleteMovie fuel m list (Some a) = Ret (0%Z, list', m') ∧
    is_list m' list' (l1 ++ l2) ∧
    cells m' !! a = None ∧
    (∀ c, c ≠ a → fields_at m' c = fields_at m c) ∧
    (∀ c, c ∉ l1 ++ a :: l2 → cells m' !! c = cells m !! c).
Proof.
  intros Hl Hf. pose proof (is_list_NoDup _ _ _ Hl) as Hnd.
  destruct (removeMovie_ok fuel m list l1 a l2 Hl Hf)
    as (list' & m1 & Hrm & Hl1 & Hsf & Hfr & _).
  rewrite deleteMovie_removeMovie, Hrm, bind_Ret. cbv beta iota.
  assert (is_Some (cells m1 !! a)) as [node1 Ha1].
  { apply fields_at_is_Some. rewrite Hsf. apply fields_at_is_Some.
    apply (is_list_cell m list (l1 ++ a :: l2)); [done|apply elem_of_middle]. }
  rewrite (free_Some _ _ _ Ha1), bind_Ret.
  do 2 eexists. split; [done|].
  assert (a ∉ l1 ++ l2) as Hnin.
  { apply NoDup_app in Hnd as (_ & Hdisj & Hnd2).
    apply NoDup_cons in Hnd2 as [Ha2 _].
    intros [Hin|Hin]%elem_of_app; [|done]. apply (Hdisj a Hin). by left. }
  split.
  { eapply lseg_frame; [|exact Hl1]. intros c Hc. simpl.
    apply lookup_delete_ne. by intros ->. }
  split; [apply lookup_delete_eq|]. split.
  - intros c Hc. rewrite <- Hsf. unfold fields_at. simpl.
    by rewrite lookup_delete_ne.
  - intros c Hc. simpl. rewrite lookup_delete_ne; [by apply Hfr|].
    intros ->. apply Hc. apply elem_of_middle.
Qed.

Lemma deleteList_loop_spec l : ∀ fuel m a,
  is_list m (Some a) (a :: l) → length l < fuel →
  ∃ m',
    deleteList_loop fuel m (Some a) = Ret m' ∧
    (∀ c, cells m' !! c = if decide (c ∈ a :: l) then None else cells m !! c) ∧
    avail m' = S (length l) + avail m ∧ errno m' = errno m.
Proof.
  induction l as [|b l IH]; intros fuel m a Hl Hf;
    pose proof (is_list_NoDup _ _ _ Hl) as Hnd;
    destruct Hl as [_ (node & Ha & Hl)];
    (destruct fuel as [|fuel]; [simpl in Hf; lia|]);
    cbn [deleteList_loop]; rewrite (deref_Some _ _ _ Ha), bind_Ret;
    rewrite (free_Some _ _ _ Ha), bind_Ret.
  - simpl in Hl. rewrite Hl. eexists. split; [done|]. split; [|done].
    intros c. simpl. case_decide as Hc.
    + apply list_elem_of_singleton in Hc. subst c. apply lookup_delete_eq.
    + apply lookup_delete_ne. intros ->. apply Hc. by left.
  - pose proof Hl as [Hn _]. rewrite Hn in Hl |- *. cbv iota.
    apply NoDup_cons in Hnd as [Hab Hnd].
    destruct (IH fuel (mkMem (delete a (cells m)) (S (avail m)) (errno m)) b)
      as (m' & Hrun & Hcells & Hav & Herr).
    { eapply lseg_frame; [|exact Hl]. intros c Hc. simpl.
      apply lookup_delete_ne. by intros ->. }
    { simpl in Hf. lia. }
    exists m'. split; [done|]. split; [|simpl in *; split; [lia|done]].
    intros c. rewrite Hcells. simpl.
    destruct (decide (c ∈ b :: l)) as [Hc|Hc].
    + rewrite decide_True; [done|by right].
    + destruct (decide (c = a)) as [->|Hca].
      * rewrite decide_True by by left. apply lookup_delete_eq.
      * rewrite decide_False.
        { by apply lookup_delete_ne. }
        intros [->|?]%elem_of_cons; done.
Qed.

Lemma deleteList_spec fuel m list l :
  is_list m list l →
  length l ≤ fuel →
  ∃ m',
    deleteList fuel m list = Ret (if decide (l = []) then (-1)%Z else 0%Z, m') ∧
    (∀ c, cells m' !! c = if decide (c ∈ l) then None else cells m !! c) ∧
    avail m' = length l + avail m ∧ errno m' = errno m.
Proof.
  intros Hl Hf. destruct l as [|a l].
  - apply is_list_nil in Hl. subst list. exists m. split; [done|].
    split; [|done]. intros c. rewrite decide_False; [done|].
    by intros ?%elem_of_nil.
  - pose proof Hl as [-> _]%is_list_cons. unfold deleteList.
    destruct (deleteList_loop_spec l fuel m a Hl) as (m' & Hrun & H1 & H2 & H3).
    { simpl in Hf. lia. }
    rewrite Hrun, bind_Ret. exists m'. by rewrite decide_False.
Qed.

(** X20: [deleteList] returns -1 and changes nothing for the empty list;
    otherwise it returns 0 and releases every node of the list and no other
    node.  It does not write [*list], which is left pointing to a released
    node. *)
Theorem deleteList_releases_the_list fuel m list l :
  is_list m list l →
  length l ≤ fuel →
  ∃ m',
    deleteList fuel m list = Ret (if decide (l = []) then (-1)%Z else 0%Z, m') ∧
    (∀ c, cells m' !! c = if decide (c ∈ l) then None else cells m !! c) ∧
    avail m' = length l + avail m ∧ errno m' = errno m.
Proof. apply deleteList_spec. Qed.

(** ** Loading the library *)

Lemma createMovieNode_errno ts gs d m x m1 :
  createMovieNode (Some ts) (Some gs) d m = (Some x, m1) → errno m1 = errno m.
Proof.
  unfold createMovieNode, calloc.
  destruct (34 <? String.length ts); [done|].
  destruct (34 <? String.length gs); [done|].
  destruct (avail m); [done|]. by intros [= <- <-].
Qed.

Lemma appendMovie_errno fuel m list x status list' m' :
  appendMovie fuel m list (Some x) = Ret (status, list', m') →
  errno m' = errno m.
Proof.
  unfold appendMovie, store_next.
  destruct list as [h|].
  - destruct (appendMovie_walk fuel m (Some h)) as [[b|]| |]; try done.
    rewrite !bind_Ret. destruct (cells m !! b); [|done]. rewrite !bind_Ret.
    destruct (cells (poke _ _ _) !! x); [|done]. by intros [= _ _ <-].
  - rewrite !bind_Ret. destruct (cells m !! x); [|done]. by intros [= _ _ <-].
Qed.

(** The invariant of the loop of [loadMovieLibrary]. *)
Lemma loadMovieLibrary_loop_spec fuel : ∀ records status m library L,
  is_list m library L →
  length L + length records < fuel →
  ∃ status' library' m' L',
    loadMovieLibrary_loop fuel records status library m =
      Ret (status', library', m') ∧
    is_list m' library' (L ++ L') ∧
    fields_at m' <$> L' = Some <$> take (length L') records ∧
    (∀ c, c ∈ L' → cells m !! c = None) ∧
    (∀ c, c ∉ L ++ L' → cells m' !! c = cells m !! c) ∧
    (∀ c, is_Some (cells m !! c) → fields_at m' c = fields_at m c) ∧
    avail m = length L' + avail m' ∧
    Forall fits (take (length L') records) ∧
    ((length L' = length records ∧ errno m' = errno m ∧
      status' = (if records is [] then status else 0%Z)) ∨
     (∃ r, records !! length L' = Some r ∧ status' = errno m' ∧
        ((¬ fits r ∧ errno m' = ERANGE) ∨
         (fits r ∧ avail m' = 0 ∧ errno m' = ENOMEM)))).
Proof.
  induction records as [|[[t g] d] rest IH]; intros status m library L HL Hf.
  { exists status, library, m, []. simpl. rewrite app_nil_r.
    split; [done|]. split; [done|]. split; [done|].
    split; [by intros c ?%elem_of_nil|]. split; [done|]. split; [done|].
    split; [done|]. split; [constructor|]. by left. }
  cbn [loadMovieLibrary_loop].
  destruct (createMovieNode (Some t) (Some g) d m) as [[x|] m1] eqn:Hcreate.
  2:{ destruct (createMovieNode_fails _ _ _ _ _ Hcreate) as (Hcells & Hav & Hwhy).
      exists (errno m1), library, m1, []. simpl. rewrite app_nil_r.
      split; [done|]. split.
      { eapply lseg_frame; [|exact HL]. intros c _. by rewrite Hcells. }
      split; [done|]. split; [by intros c ?%elem_of_nil|].
      split; [by intros c _; rewrite Hcells|]. split.
      { intros c _. unfold fields_at. by rewrite Hcells. }
      split; [done|]. split; [constructor|].
      right. exists (t, g, d). split; [done|]. split; [done|].
      by rewrite Hav. }
  pose proof (createMovieNode_avail _ _ _ _ _ _ Hcreate) as Hav1.
  pose proof (createMovieNode_errno _ _ _ _ _ _ Hcreate) as Herr1.
  destruct (created_frame _ _ _ _ _ _ Hcreate) as (Hfresh & Hx1 & Hold1 & Hto1).
  destruct (Hto1 _ _ HL) as [HL1 HxL].
  destruct (appendMovie_ok fuel m1 library L x _ HL1 Hx1 HxL)
    as (library2 & m2 & Happ & HL2 & Hsf2 & Hfr2 & Hav2); [simpl in Hf; lia|].
  pose proof (appendMovie_errno _ _ _ _ _ _ _ Happ) as Herr2.
  rewrite Happ, bind_Ret. cbv beta iota.
  destruct (IH 0%Z m2 library2 (L ++ [x]) HL2)
    as (status' & library' & m' & L' & Hrun & HL' & HfL' & Hnew & Hfr & Hold & Hav
        & Hfits & Hend).
  { rewrite length_app. simpl in *. lia. }
  assert (fields_at m2 x = Some (t, g, d)) as Hfx2.
  { rewrite Hsf2. unfold fields_at. by rewrite Hx1. }
  exists status', library', m', (x :: L'). split; [done|].
  split. { by rewrite <- snoc_app. }
  split.
  { cbn [length firstn]. rewrite !fmap_cons, HfL'. f_equal.
    rewrite Hold; [done|]. apply fields_at_is_Some. rewrite Hfx2. by eexists. }
  split.
  { intros c [->|Hc]%elem_of_cons; [done|].
    destruct (cells m !! c) as [node|] eqn:Hmc; [|done].
    pose proof (Hnew c Hc) as Hn2.
    assert (c ∉ L ++ [x]) as Hnin.
    { intros Hin. pose proof (is_list_NoDup _ _ _ HL') as Hnd.
      apply NoDup_app in Hnd as (_ & Hdisj & _). by apply (Hdisj c). }
    rewrite Hfr2 in Hn2 by done. rewrite Hold1 in Hn2 by by eexists.
    by rewrite Hmc in Hn2. }
  split.
  { intros c Hc. rewrite Hfr.
    2:{ intros Hin. apply Hc. by rewrite <- snoc_app. }
    rewrite Hfr2.
    2:{ intros Hin. apply Hc. rewrite <- snoc_app. apply elem_of_app. by left. }
    apply createMovieNode_Some in Hcreate as [_ ->].
    apply lookup_insert_ne. intros <-. apply Hc. apply elem_of_middle. }
  split.
  { intros c Hc. rewrite Hold.
    - rewrite Hsf2. unfold fields_at. f_equal. by apply Hold1.
    - apply fields_at_is_Some. rewrite Hsf2. apply fields_at_is_Some.
      by rewrite Hold1. }
  split. { simpl. lia. }
  split.
  { cbn [length firstn]. constructor; [|done].
    by apply (createMovieNode_fits _ _ _ _ _ _ Hcreate). }
  destruct Hend as [(Hlen & Herr & Hst)|(r & Hr & Hst & Hwhy)].
  - left. split; [simpl; lia|]. split; [congruence|]. by destruct rest.
  - right. exists r. by split.
Qed.

Lemma loadMovieLibrary_all fuel m records :
  Forall fits records →
  length records ≤ avail m →
  length records < fuel →
  ∃ library m' L,
    loadMovieLibrary fuel records m = Ret (library, m') ∧
    is_list m' library L ∧
    fields_at m' <$> L = Some <$> records ∧
    (∀ c, is_Some (cells m !! c) → cells m' !! c = cells m !! c).
Proof.
  intros Hfits Hav Hf.
  destruct (loadMovieLibrary_loop_spec fuel records 0%Z m NULL [])
    as (status' & library' & m' & L' & Hrun & HL' & HfL' & Hnew & Hfr & Hold
        & Havail & _ & Hend); [done|simpl; lia|].
  destruct Hend as [(Hlen & Herr & Hst)|(r & Hr & Hst & Hwhy)].
  - exists library', m', L'. unfold loadMovieLibrary.
    rewrite Hrun, bind_Ret. cbv beta iota.
    assert (status' = 0%Z) as -> by by destruct records.
    simpl. split; [done|]. split; [done|]. split.
    { rewrite HfL', Hlen. by rewrite firstn_all. }
    intros c Hc. apply Hfr. simpl. intros Hin.
    rewrite (Hnew c Hin) in Hc. by destruct Hc.
  - exfalso. pose proof (lookup_lt_Some _ _ _ Hr) as Hlt.
    destruct Hwhy as [[Hno _]|(_ & H0 & _)]; [|lia].
    apply Hno. apply (Forall_lookup_1 _ _ _ _ Hfits Hr).
Qed.

(** X21: when every record fits a node and memory is left for all of
    them, [loadMovieLibrary] returns a list that holds one new node per
    record, in file order, with the data of the record; the nodes that
    existed are unchanged. *)
Theorem loadMovieLibrary_loads_all fuel m records :
  Forall fits records →
  length records ≤ avail m →
  length records < fuel →
  ∃ library m' L,
    loadMovieLibrary fuel records m = Ret (library, m') ∧
    is_list m' library L ∧
    fields_at m' <$> L = Some <$> records ∧
    (∀ c, is_Some (cells m !! c) → cells m' !! c = cells m !! c).
Proof. apply loadMovieLibrary_all. Qed.

(** X22: when the record after [pre] does not fit a node, or no memory is
    left for it, [loadMovieLibrary] releases every node it created: the
    memory is as before the call except for [errno], which is [ERANGE] or
    [ENOMEM].  The pointer it returns is [NULL] only when no node had been
    created; otherwise it is the address of the first created node, which
    is no longer allocated. *)
Theorem loadMovieLibrary_failure_releases fuel m pre r post :
  Forall fits pre →
  length pre ≤ avail m →
  ¬ fits r ∨ avail m = length pre →
  length (pre ++ r :: post) < fuel →
  ∃ library code,
    loadMovieLibrary fuel (pre ++ r :: post) m = Ret (library, set_errno m code) ∧
    (code = ERANGE ∧ ¬ fits r ∨ code = ENOMEM ∧ fits r) ∧
    (pre = [] ∧ library = NULL ∨
     pre ≠ [] ∧ ∃ x, library = Some x ∧ cells m !! x = None).
Proof.
  intros Hfits Hav Hwhy Hf.
  destruct (loadMovieLibrary_loop_spec fuel (pre ++ r :: post) 0%Z m NULL [])
    as (status' & library' & m' & L' & Hrun & HL' & HfL' & Hnew & Hfr & Hold
        & Havail & Hfit' & Hend); [done|simpl; lia|].
  simpl in HL', Hfr.
  (* the loop stops at [r] *)
  assert (length L' = length pre ∧ status' = errno m' ∧
          ((¬ fits r ∧ errno m' = ERANGE) ∨
           (fits r ∧ avail m' = 0 ∧ errno m' = ENOMEM))) as (Hlen & Hst & Hcode).
  { assert (length L' ≤ length pre) as Hle.
    { destruct (decide (length L' ≤ length pre)) as [|Hgt]; [done|exfalso].
      assert (fits r) as Hr.
      { eapply (Forall_lookup_1 _ _ (length pre)); [exact Hfit'|].
        rewrite lookup_take_lt by lia. by rewrite list_lookup_middle. }
      destruct Hwhy as [?|Heq]; [done|]. lia. }
    destruct Hend as [(Hall & _)|(r' & Hr' & Hst & Hwhy')].
    { rewrite length_app in Hall. simpl in Hall. lia. }
    destruct (decide (length L' = length pre)) as [Heq|Hneq].
    - rewrite Heq, list_lookup_middle in Hr' by done. injection Hr' as <-.
      done.
    - exfalso. rewrite lookup_app_l in Hr' by lia.
      destruct Hwhy' as [[Hno _]|(_ & H0 & _)]; [|lia].
      apply Hno. apply (Forall_lookup_1 _ _ _ _ Hfits Hr'). }
  assert (status' ≠ 0%Z) as Hnz.
  { rewrite Hst. destruct Hcode as [[_ ->]|(_ & _ & ->)]; done. }
  unfold loadMovieLibrary. rewrite Hrun, bind_Ret. cbv beta iota.
  destruct (Z.eqb_spec status' 0) as [?|_]; [done|].
  destruct (deleteList_spec fuel m' library' L' HL')
    as (m'' & Hdel & Hcells & Havail' & Herr'); [rewrite length_app in Hf; lia|].
  rewrite Hdel, bind_Ret. cbv beta iota.
  exists library', status'. split.
  { f_equal. f_equal. apply mem_eq; simpl; [|lia|done].
    apply map_eq. intros c. rewrite Hcells.
    destruct (decide (c ∈ L')) as [Hc|Hc].
    - by rewrite (Hnew c Hc).
    - by apply Hfr. }
  split.
  { rewrite Hst. destruct Hcode as [[? ->]|(? & _ & ->)]; auto. }
  destruct pre as [|p pre].
  - left. split; [done|]. destruct L'; [|done]. by apply is_list_nil in HL'.
  - right. split; [done|]. destruct L' as [|x L']; [done|].
    exists x. pose proof HL' as [-> _]%is_list_cons. split; [done|].
    apply Hnew. by left.
Qed.

(** ** Reading and writing text *)

Lemma append_cons (c : Ascii.ascii) (s1 s2 : string) :
  String c s1 +:+ s2 = String c (s1 +:+ s2).
Proof. reflexivity. Qed.

Lemma append_assoc (s1 s2 s3 : string) :
  (s1 +:+ s2) +:+ s3 = s1 +:+ (s2 +:+ s3).
Proof.
  induction s1 as [|c s1 IH]; [done|]. rewrite !append_cons. by f_equal.
Qed.

Lemma append_nil_r (s : string) : s +:+ EmptyString = s.
Proof.
  induction s as [|c s IH]; [done|]. rewrite append_cons. by f_equal.
Qed.

Lemma butlast_snoc (s : string) (c : Ascii.ascii) :
  butlast (s +:+ String c EmptyString) = s.
Proof.
  induction s as [|c' s IH]; [done|].
  rewrite append_cons. cbn [butlast]. rewrite IH. by destruct s.
Qed.

Lemma chop_snoc (s : string) (c : Ascii.ascii) :
  chop (s +:+ String c EmptyString) = Ret s.
Proof.
  unfold chop. rewrite butlast_snoc. by destruct s.
Qed.

Lemma chop_nonempty (s : string) : s ≠ EmptyString → chop s = Ret (butlast s).
Proof. by destruct s. Qed.

(** [fgets] on a complete line that the array can take. *)
Lemma fgets_chars_line (s rest : string) : ∀ n,
  no_newline s → String.length s < n →
  fgets_chars n (s +:+ String newline rest) =
  (s +:+ String newline EmptyString, rest, false).
Proof.
  induction s as [|c s IH]; intros n Hs Hn;
    (destruct n as [|n]; [simpl in Hn; lia|]).
  - done.
  - simpl in Hs. apply andb_True in Hs as [Hc Hs].
    rewrite append_cons. cbn [fgets_chars].
    destruct (Ascii.eqb c newline); [done|].
    rewrite IH; [done|done|simpl in Hn; lia].
Qed.

(** [fgets] on the last line of a text that does not end in a newline. *)
Lemma fgets_chars_end (s : string) : ∀ n,
  no_newline s → String.length s < n →
  fgets_chars n s = (s, EmptyString, true).
Proof.
  induction s as [|c s IH]; intros n Hs Hn;
    (destruct n as [|n]; [simpl in Hn; lia|]).
  - done.
  - simpl in Hs. apply andb_True in Hs as [Hc Hs].
    cbn [fgets_chars].
    destruct (Ascii.eqb c newline); [done|].
    rewrite IH; [done|done|simpl in Hn; lia].
Qed.

Lemma fgets_line (buffer s rest : string) (size : nat) :
  no_newline s → String.length s + 1 < size →
  fgets buffer size (mkFILE (s +:+ String newline rest) false) =
  (true, s +:+ String newline EmptyString, mkFILE rest false).
Proof.
  intros Hs Hn. unfold fgets. cbn [unread at_eof].
  rewrite fgets_chars_line; [|done|lia]. done.
Qed.

Lemma fgets_end (buffer s : string) (size : nat) :
  no_newline s → s ≠ EmptyString → String.length s + 1 < size →
  fgets buffer size (mkFILE s false) = (true, s, mkFILE EmptyString true).
Proof.
  intros Hs Hne Hn. unfold fgets. cbn [unread at_eof].
  rewrite fgets_chars_end; [|done|lia].
  destruct s; [done|]. done.
Qed.

Lemma fgets_nothing (buffer : string) (size : nat) (e : bool) :
  1 < size →
  fgets buffer size (mkFILE EmptyString e) =
  (false, buffer, mkFILE EmptyString true).
Proof.
  intros Hn. unfold fgets. cbn [unread at_eof].
  destruct size as [|[|size]]; [lia|lia|].
  simpl. by rewrite orb_true_r.
Qed.

Section text_properties.

Variable strtod : string → float.
Variable hours : float → string.

(** One iteration on three complete lines. *)
Lemma readRecord_lines b t g x rest :
  short_lines (t, g, x) →
  readRecord strtod b
    (mkFILE (layout_record (t, g, x) +:+ String newline rest) false) =
  Ret (decoded strtod (t, g, x),
       mkBuffers t g (x +:+ String newline EmptyString),
       mkFILE rest false).
Proof.
  intros ((Ht & Ht') & (Hg & Hg') & (Hx & Hx')).
  unfold readRecord, layout_record.
  rewrite append_assoc, append_cons, append_assoc, append_cons.
  rewrite fgets_line; [|done|lia].
  rewrite chop_snoc, bind_Ret.
  rewrite fgets_line; [|done|lia].
  rewrite chop_snoc, bind_Ret.
  rewrite fgets_line; [|done|lia].
  done.
Qed.

(** The iteration on the last record of a text that does not end in a
    newline. *)
Lemma readRecord_last b t g x :
  short_lines (t, g, x) → x ≠ EmptyString →
  readRecord strtod b (mkFILE (layout_record (t, g, x)) false) =
  Ret ((t, g, strtod x), mkBuffers t g x, mkFILE EmptyString true).
Proof.
  intros ((Ht & Ht') & (Hg & Hg') & (Hx & Hx')) Hne.
  unfold readRecord, layout_record.
  rewrite fgets_line; [|done|lia].
  rewrite chop_snoc, bind_Ret.
  rewrite fgets_line; [|done|lia].
  rewrite chop_snoc, bind_Ret.
  rewrite fgets_end; [|done|done|lia].
  done.
Qed.

(** The iteration that starts at the end of the text, the indicator not
    being set: no line is read, and the arrays still hold the record
    before. *)
Lemma readRecord_nothing b :
  readRecord strtod b (mkFILE EmptyString false) =
  (t ← chop (title_buffer b);
   g ← chop (genre_buffer b);
   Ret ((t, g, strtod (line_buffer b)), mkBuffers t g (line_buffer b),
        mkFILE EmptyString true)).
Proof.
  unfold readRecord.
  rewrite fgets_nothing by lia.
  destruct (chop (title_buffer b)) as [t| |]; [|done|done].
  rewrite !bind_Ret.
  rewrite fgets_nothing by lia.
  destruct (chop (genre_buffer b)) as [g| |]; [|done|done].
  rewrite !bind_Ret.
  rewrite fgets_nothing by lia.
  done.
Qed.

Lemma layout_cons_snoc r L0 r1 :
  layout (r :: L0 ++ [r1]) =
  layout_record r +:+ String newline (layout (L0 ++ [r1])).
Proof. by destruct L0. Qed.

Lemma readRecords_layout L0 : ∀ steps b r,
  Forall short_lines (L0 ++ [r]) → r.2 ≠ EmptyString →
  length L0 + 1 < steps →
  readRecords strtod steps b (fopen (layout (L0 ++ [r]))) =
  Ret ((decoded strtod <$> L0) ++ [(r.1.1, r.1.2, strtod r.2)]).
Proof.
  unfold fopen.
  induction L0 as [|r0 L0 IH]; intros steps b [[t g] x] HL Hx Hs;
    simpl in Hx;
    (destruct steps as [|steps]; [lia|]); cbn [readRecords feof at_eof].
  - cbn [app] in HL. apply Forall_inv in HL.
    cbn [app layout]. rewrite readRecord_last by done.
    rewrite bind_Ret. cbv iota beta.
    destruct steps as [|steps]; [simpl in Hs; lia|].
    done.
  - rewrite <- app_comm_cons in HL |- *.
    apply Forall_cons_1 in HL as [H0 HL].
    destruct r0 as [[t0 g0] x0].
    rewrite layout_cons_snoc, readRecord_lines by done.
    rewrite bind_Ret. cbv iota beta.
    rewrite (IH steps _ (t, g, x) HL Hx); [|simpl in Hs; lia].
    done.
Qed.

Lemma readRecords_trailing_newline L0 : ∀ steps b t g x,
  Forall short_lines (L0 ++ [(t, g, x)]) →
  t ≠ EmptyString → g ≠ EmptyString →
  length L0 + 2 < steps →
  readRecords strtod steps b
    (fopen (layout (L0 ++ [(t, g, x)]) +:+ String newline EmptyString)) =
  Ret ((decoded strtod <$> L0 ++ [(t, g, x)]) ++
       [(butlast t, butlast g, strtod (x +:+ String newline EmptyString))]).
Proof.
  unfold fopen.
  induction L0 as [|r0 L0 IH]; intros steps b t g x HL Ht Hg Hs;
    (destruct steps as [|steps]; [lia|]); cbn [readRecords feof at_eof].
  - cbn [app] in HL. apply Forall_inv in HL.
    cbn [app layout]. rewrite readRecord_lines by done.
    rewrite bind_Ret. cbv iota beta.
    destruct steps as [|steps]; [simpl in Hs; lia|].
    cbn [readRecords feof at_eof]. rewrite readRecord_nothing.
    cbn [title_buffer genre_buffer line_buffer].
    rewrite !chop_nonempty by done. rewrite !bind_Ret. cbv iota beta.
    destruct steps as [|steps]; [simpl in Hs; lia|].
    done.
  - rewrite <- app_comm_cons in HL |- *.
    apply Forall_cons_1 in HL as [H0 HL].
    destruct r0 as [[t0 g0] x0].
    rewrite layout_cons_snoc, append_assoc, append_cons.
    rewrite readRecord_lines by done.
    rewrite bind_Ret. cbv iota beta.
    rewrite (IH steps _ t g x HL Ht Hg); [|simpl in Hs; lia].
    done.
Qed.

End text_properties.

Section text_loaders.

Variable strtod : string → float.
Variable hours : float → string.

Lemma saveMovieWatchlist_loop_spec m l : ∀ fuel a,
  is_list m (Some a) (a :: l) → length l < fuel →
  ∃ F,
    Some <$> F = fields_at m <$> (a :: l) ∧
    saveMovieWatchlist_loop hours fuel m (Some a) =
      Ret (layout (written hours <$> F)).
Proof.
  induction l as [|b l IH]; intros fuel a [_ (node & Ha & Hl)] Hf;
    (destruct fuel as [|fuel]; [simpl in Hf; lia|]);
    cbn [saveMovieWatchlist_loop]; rewrite (deref_Some _ _ _ Ha), bind_Ret.
  - simpl in Hl. rewrite Hl. exists [fields node]. split; [|done].
    simpl. unfold fields_at. by rewrite Ha.
  - pose proof Hl as [Hn _]. rewrite Hn in Hl |- *. cbv iota.
    destruct (IH fuel b Hl) as (rest & Heq & Hrest); [simpl in Hf; lia|].
    rewrite Hrest, bind_Ret. exists (fields node :: rest). split.
    + rewrite !fmap_cons. rewrite fmap_cons in Heq. rewrite Heq.
      f_equal. unfold fields_at. by rewrite Ha.
    + destruct rest as [|r rest]; [done|]. done.
Qed.

Lemma saveMovieWatchlist_spec fuel m list l :
  is_list m list l →
  length l ≤ fuel →
  match l with
  | [] => saveMovieWatchlist hours fuel m list = Fault
  | _ =>
      ∃ F,
        Some <$> F = fields_at m <$> l ∧
        saveMovieWatchlist hours fuel m list =
          Ret (0%Z, layout (written hours <$> F))
  end.
Proof.
  intros Hl Hf. destruct l as [|a l].
  - apply is_list_nil in Hl. by subst list.
  - pose proof Hl as [-> _]%is_list_cons. unfold saveMovieWatchlist.
    destruct (saveMovieWatchlist_loop_spec m l fuel a Hl) as (F & HF & Hs);
      [simpl in Hf; lia|].
    exists F. split; [done|]. by rewrite Hs.
Qed.

Lemma loadMovieWatchlist_text_loop_records fuel : ∀ steps b input R
    library watchlist m,
  readRecords strtod steps b input = Ret R →
  loadMovieWatchlist_text_loop strtod steps fuel b input library watchlist m =
  loadMovieWatchlist_loop fuel R library watchlist m.
Proof.
  induction steps as [|steps IH]; intros b input R library watchlist m H;
    [done|].
  cbn [readRecords] in H. cbn [loadMovieWatchlist_text_loop].
  destruct (feof input).
  { by inversion H. }
  destruct (readRecord strtod b input) as [[[[[t g] d] b'] input']| |];
    [|done|done].
  rewrite bind_Ret in H. rewrite bind_Ret. cbv iota beta in H |- *.
  destruct (readRecords strtod steps b' input') as [rest| |] eqn:E;
    [|done|done].
  inversion H; subst R. cbn [loadMovieWatchlist_loop].
  destruct (createMovieNode (Some t) (Some g) d m) as [[a|] m1]; [|done].
  destruct (appendMovie fuel m1 watchlist (Some a)) as [[[s w'] m2]| |];
    [|done|done].
  rewrite !bind_Ret. cbv iota beta.
  destruct (deref m2 (Some a)) as [node| |]; [|done|done].
  rewrite !bind_Ret.
  destruct (searchByTitle fuel m2 library (Some (title node))) as [temp| |];
    [|done|done].
  rewrite !bind_Ret.
  destruct temp as [c|]; [|by apply IH].
  destruct (removeMovie fuel m2 library (Some c)) as [[[rm l'] m3]| |];
    [|done|done].
  rewrite !bind_Ret. cbv iota beta. by apply IH.
Qed.

Lemma loadMovieLibrary_text_loop_records fuel : ∀ steps b input R
    status library m,
  readRecords strtod steps b input = Ret R →
  loadMovieLibrary_text_loop strtod steps fuel b input status library m =
  loadMovieLibrary_loop fuel R status library m.
Proof.
  induction steps as [|steps IH]; intros b input R status library m H;
    [done|].
  cbn [readRecords] in H. cbn [loadMovieLibrary_text_loop].
  destruct (feof input).
  { by inversion H. }
  destruct (readRecord strtod b input) as [[[[[t g] d] b'] input']| |];
    [|done|done].
  rewrite bind_Ret in H. rewrite bind_Ret. cbv iota beta in H |- *.
  destruct (readRecords strtod steps b' input') as [rest| |] eqn:E;
    [|done|done].
  inversion H; subst R. cbn [loadMovieLibrary_loop].
  destruct (createMovieNode (Some t) (Some g) d m) as [[a|] m1]; [|done].
  destruct (appendMovie fuel m1 library (Some a)) as [[[s l'] m2]| |];
    [|done|done].
  rewrite !bind_Ret. cbv iota beta. by apply IH.
Qed.

Lemma text_loaders_records steps fuel text R library m :
  readRecords strtod steps (mkBuffers EmptyString EmptyString EmptyString)
    (fopen text) = Ret R →
  loadMovieLibrary_text strtod steps fuel text m =
    loadMovieLibrary fuel R m ∧
  loadMovieWatchlist_text strtod steps fuel text library m =
    loadMovieWatchlist fuel R library m.
Proof.
  intros H. split.
  - unfold loadMovieLibrary_text, loadMovieLibrary.
    by rewrite (loadMovieLibrary_text_loop_records _ _ _ _ _ _ _ _ H).
  - unfold loadMovieWatchlist_text, loadMovieWatchlist.
    by rewrite (loadMovieWatchlist_text_loop_records _ _ _ _ _ _ _ _ H).
Qed.

Lemma butlast_length (s : string) :
  String.length (butlast s) ≤ String.length s.
Proof.
  induction s as [|c s IH]; [done|].
  destruct s as [|c' s]; [simpl; lia|].
  change (butlast (String c (String c' s)))
    with (String c (butlast (String c' s))).
  simpl in IH |- *. lia.
Qed.

Lemma short_lines_fits r : short_lines r → fits (decoded strtod r).
Proof.
  destruct r as [[t g] x]. intros ((_ & Ht) & (_ & Hg) & _).
  split; simpl; lia.
Qed.

Lemma short_lines_fits_last t g x d : short_lines (t, g, x) → fits (t, g, d).
Proof.
  intros ((_ & Ht) & (_ & Hg) & _). split; simpl; lia.
Qed.

(** What the loaders build from a text whose records all fit a node, with
    memory left for each of them. *)
Lemma loaders_on_records steps fuel text R library L m :
  readRecords strtod steps (mkBuffers EmptyString EmptyString EmptyString)
    (fopen text) = Ret R →
  Forall fits R →
  is_list m library L →
  length L < fuel →
  length R < fuel →
  length R ≤ avail m →
  (∃ loaded m' N,
     loadMovieLibrary_text strtod steps fuel text m = Ret (loaded, m') ∧
     is_list m' loaded N ∧
     fields_at m' <$> N = Some <$> R ∧
     (∀ c, is_Some (cells m !! c) → cells m' !! c = cells m !! c)) ∧
  (∃ watchlist library' m' W,
     loadMovieWatchlist_text strtod steps fuel text library m =
       Ret (watchlist, library', m') ∧
     is_list m' watchlist W ∧
     fields_at m' <$> W = Some <$> R ∧
     is_list m' library' (remove_titles m ((λ r : line, r.1.1) <$> R) L) ∧
     (∀ c, c ∈ L → fields_at m' c = fields_at m c)).
Proof.
  intros Hread Hfits Hlib HfL HfR Hav.
  destruct (text_loaders_records steps fuel text R library m Hread)
    as [Hl Hw].
  split.
  - rewrite Hl. by apply loadMovieLibrary_all.
  - rewrite Hw.
    destruct (loadMovieWatchlist_loop_spec fuel m R m library NULL L [])
      as (watchlist & library' & m' & W & Hrun & HW & HL' & HfW & Hold & Hall);
      [done|done|by intros c _ ?%elem_of_nil|done|done|simpl; lia|].
    rewrite Hall, creatable_all in HL', HfW by done.
    exists watchlist, library', m', W.
    split; [done|]. split; [done|]. split; [done|]. split; [done|].
    intros c Hc. apply Hold. by apply (is_list_cell m library L).
Qed.

(** X23: [saveMovieWatchlist] writes the title, the genre and the formatted
    duration of each node on a line of its own, in list order, with one
    newline between two records and none after the last.  For the empty
    list it opens no file and hands [NULL] to [fclose]. *)
Theorem saveMovieWatchlist_writes_records fuel m list l :
  is_list m list l →
  length l ≤ fuel →
  match l with
  | [] => saveMovieWatchlist hours fuel m list = Fault
  | _ =>
      ∃ F,
        Some <$> F = fields_at m <$> l ∧
        saveMovieWatchlist hours fuel m list =
          Ret (0%Z, layout (written hours <$> F))
  end.
Proof. apply saveMovieWatchlist_spec. Qed.

(** X25: on a file without NUL characters, made of records whose lines fit
    the arrays, the last line being not empty and not followed by a
    newline, and with memory left for every record, the loaders build one
    node per record, in file order, with the title and the genre without
    their newline; the duration is converted from the line with its
    newline, except for the last record.  [loadMovieLibrary] leaves the
    nodes that existed as they were; [loadMovieWatchlist] unlinks from the
    library the first node titled as each record. *)
Theorem loaders_on_complete_file steps fuel L0 t g x library L m :
  Forall short_lines (L0 ++ [(t, g, x)]) →
  Forall c_lines (L0 ++ [(t, g, x)]) →
  x ≠ EmptyString →
  is_list m library L →
  length L0 + 1 < steps →
  length L < fuel →
  length L0 + 1 < fuel →
  length L0 + 1 ≤ avail m →
  let text := layout (L0 ++ [(t, g, x)]) in
  let R := (decoded strtod <$> L0) ++ [(t, g, strtod x)] in
  (∃ loaded m' N,
     loadMovieLibrary_text strtod steps fuel text m = Ret (loaded, m') ∧
     is_list m' loaded N ∧
     fields_at m' <$> N = Some <$> R ∧
     (∀ c, is_Some (cells m !! c) → cells m' !! c = cells m !! c)) ∧
  (∃ watchlist library' m' W,
     loadMovieWatchlist_text strtod steps fuel text library m =
       Ret (watchlist, library', m') ∧
     is_list m' watchlist W ∧
     fields_at m' <$> W = Some <$> R ∧
     is_list m' library' (remove_titles m ((λ r : line, r.1.1) <$> R) L) ∧
     (∀ c, c ∈ L → fields_at m' c = fields_at m c)).
Proof.
  intros HL _ Hx Hlib Hs HfL Hf Hav text R.
  apply (loaders_on_records steps fuel text R library L m); [|  |done..| |].
  - by apply (readRecords_layout strtod L0 steps _ (t, g, x)).
  - apply Forall_app in HL as [HL0 Hl%Forall_inv].
    apply Forall_app. split.
    + apply Forall_fmap. eapply Forall_impl; [exact HL0|].
      intros r. apply short_lines_fits.
    + apply Forall_singleton. by apply (short_lines_fits_last t g x).
  - unfold R. rewrite length_app, length_fmap. simpl.
    unfold raw, line in *. lia.
  - unfold R. rewrite length_app, length_fmap. simpl.
    unfold raw, line in *. lia.
Qed.

(** X26: when the last line of such a file ends in a newline, the loop runs
    once more at the end of the file: no line is read, the arrays still
    hold the last record, and a further node is built from it whose title
    and genre have lost their last character and whose duration is that of
    the last record. *)
Theorem loaders_on_trailing_newline steps fuel L0 t g x library L m :
  Forall short_lines (L0 ++ [(t, g, x)]) →
  Forall c_lines (L0 ++ [(t, g, x)]) →
  t ≠ EmptyString → g ≠ EmptyString →
  is_list m library L →
  length L0 + 2 < steps →
  length L < fuel →
  length L0 + 2 < fuel →
  length L0 + 2 ≤ avail m →
  let text := layout (L0 ++ [(t, g, x)]) +:+ String newline EmptyString in
  let R := (decoded strtod <$> L0 ++ [(t, g, x)]) ++
           [(butlast t, butlast g, strtod (x +:+ String newline EmptyString))]
  in
  (∃ loaded m' N,
     loadMovieLibrary_text strtod steps fuel text m = Ret (loaded, m') ∧
     is_list m' loaded N ∧
     fields_at m' <$> N = Some <$> R ∧
     (∀ c, is_Some (cells m !! c) → cells m' !! c = cells m !! c)) ∧
  (∃ watchlist library' m' W,
     loadMovieWatchlist_text strtod steps fuel text library m =
       Ret (watchlist, library', m') ∧
     is_list m' watchlist W ∧
     fields_at m' <$> W = Some <$> R ∧
     is_list m' library' (remove_titles m ((λ r : line, r.1.1) <$> R) L) ∧
     (∀ c, c ∈ L → fields_at m' c = fields_at m c)).
Proof.
  intros HL _ Ht Hg Hlib Hs HfL Hf Hav text R.
  apply (loaders_on_records steps fuel text R library L m); [|  |done..| |].
  - by apply readRecords_trailing_newline.
  - apply Forall_app. split.
    + apply Forall_fmap. eapply Forall_impl; [exact HL|].
      intros r. apply short_lines_fits.
    + apply Forall_singleton.
      apply Forall_app in HL as [_ ((_ & Hlt) & (_ & Hlg) & _)%Forall_inv].
      pose proof (butlast_length t). pose proof (butlast_length g).
      split; simpl; lia.
  - unfold R. rewrite length_app, length_fmap, length_app. simpl.
    unfold raw, line in *. lia.
  - unfold R. rewrite length_app, length_fmap, length_app. simpl.
    unfold raw, line in *. lia.
Qed.


(** X28: on a file that ends before its second line begins, both loaders
    index an array at -1: the genre array is still empty when its last
    character is cut off (and so is the title array when the file is
    empty). *)
Theorem loaders_on_short_file steps fuel s tail library m :
  no_newline s → String.length s ≤ 33 →
  tail = EmptyString ∨ tail = String newline EmptyString →
  0 < steps →
  loadMovieLibrary_text strtod steps fuel (s +:+ tail) m = Fault ∧
  loadMovieWatchlist_text strtod steps fuel (s +:+ tail) library m = Fault.
Proof.
  intros Hs Hlen Htail Hsteps.
  assert (readRecord strtod
            (mkBuffers EmptyString EmptyString EmptyString)
            (fopen (s +:+ tail)) = Fault) as H.
  { unfold readRecord, fopen. cbn [title_buffer genre_buffer line_buffer].
    destruct Htail as [-> | ->].
    - rewrite append_nil_r. destruct (decide (s = EmptyString)) as [->|Hne].
      + by rewrite fgets_nothing by lia.
      + rewrite fgets_end; [|done|done|lia].
        rewrite chop_nonempty, bind_Ret by done.
        by rewrite fgets_nothing by lia.
    - rewrite fgets_line; [|done|lia].
      rewrite chop_snoc, bind_Ret.
      by rewrite fgets_nothing by lia. }
  destruct steps as [|steps]; [lia|]. split.
  - unfold loadMovieLibrary_text. cbn [loadMovieLibrary_text_loop].
    unfold fopen in H |- *. cbn [feof at_eof]. by rewrite H.
  - unfold loadMovieWatchlist_text. cbn [loadMovieWatchlist_text_loop].
    unfold fopen in H |- *. cbn [feof at_eof]. by rewrite H.
Qed.

End text_loaders.

(** ** promptFor *)

Lemma fgets_chars_cut : ∀ n s tail,
  no_newline s → n ≤ String.length s →
  ∃ s2,
    fgets_chars n (s +:+ tail) = (String.substring 0 n s, s2 +:+ tail, false) ∧
    no_newline s2.
Proof.
  induction n as [|n IH]; intros s tail Hs Hn.
  - exists s. split; [|done]. by destruct s.
  - destruct s as [|c s]; [simpl in Hn; lia|].
    simpl in Hs. apply andb_True in Hs as [Hc Hs].
    destruct (IH s tail Hs) as (s2 & H & Hs2); [simpl in Hn; lia|].
    exists s2. split; [|done].
    rewrite append_cons. cbn [fgets_chars String.substring].
    destruct (Ascii.eqb c newline); [done|]. by rewrite H.
Qed.

Lemma substring_all : ∀ n s,
  String.length s ≤ n → String.substring 0 n s = s.
Proof.
  induction n as [|n IH]; intros [|c s] Hn; simpl in Hn |- *;
    [done|lia|done|].
  rewrite IH; [done|lia].
Qed.

Lemma substring_length : ∀ n s,
  n ≤ String.length s → String.length (String.substring 0 n s) = n.
Proof.
  induction n as [|n IH]; intros [|c s] Hn; simpl in Hn |- *;
    [done|done|lia|].
  rewrite IH; [done|lia].
Qed.

Lemma substring_no_newline : ∀ n s,
  no_newline s → no_newline (String.substring 0 n s).
Proof.
  induction n as [|n IH]; intros [|c s] Hs; simpl in Hs |- *; [done..|].
  apply andb_True in Hs as [Hc Hs]. apply andb_True. split; [done|].
  by apply IH.
Qed.

Lemma append_length (s1 s2 : string) :
  String.length (s1 +:+ s2) = String.length s1 + String.length s2.
Proof.
  induction s1 as [|c s1 IH]; [done|].
  rewrite append_cons. simpl. by rewrite IH.
Qed.

Lemma trim_newlines_no_newline (s : string) :
  no_newline s → trim_newlines s = s.
Proof.
  induction s as [|c s IH]; [done|]. intros Hs.
  simpl in Hs. apply andb_True in Hs as [Hc Hs].
  cbn [trim_newlines]. rewrite (IH Hs).
  destruct s; [|done]. by destruct (Ascii.eqb c newline).
Qed.

Lemma trim_newlines_line (s : string) :
  no_newline s → trim_newlines (s +:+ String newline EmptyString) = s.
Proof.
  induction s as [|c s IH]; [done|]. intros Hs.
  simpl in Hs. apply andb_True in Hs as [Hc Hs].
  rewrite append_cons. cbn [trim_newlines]. rewrite (IH Hs).
  destruct s; [|done]. by destruct (Ascii.eqb c newline).
Qed.

Lemma promptFor_flush_line (s rest : string) :
  no_newline s →
  promptFor_flush (s +:+ String newline rest) = mkFILE rest false.
Proof.
  induction s as [|c s IH]; [done|]. intros Hs.
  simpl in Hs. apply andb_True in Hs as [Hc Hs].
  rewrite append_cons. cbn [promptFor_flush].
  destruct (Ascii.eqb c newline); [done|]. by apply IH.
Qed.

Lemma c_string_no_nul (s : string) : no_nul s → c_string s = s.
Proof.
  induction s as [|c s IH]; [done|]. intros Hs.
  simpl in Hs. apply andb_True in Hs as [Hc Hs].
  cbn [c_string]. destruct (Ascii.eqb c NUL); [done|]. by rewrite IH.
Qed.

Lemma no_nul_line (s : string) :
  no_nul s → no_nul (s +:+ String newline EmptyString).
Proof.
  induction s as [|c s IH]; [done|]. intros Hs.
  simpl in Hs. apply andb_True in Hs as [Hc Hs].
  rewrite append_cons. simpl. apply andb_True. split; [done|by apply IH].
Qed.

Lemma substring_no_nul : ∀ n s,
  no_nul s → no_nul (String.substring 0 n s).
Proof.
  induction n as [|n IH]; intros [|c s] Hs; simpl in Hs |- *; [done..|].
  apply andb_True in Hs as [Hc Hs]. apply andb_True. split; [done|].
  by apply IH.
Qed.

(** X29: [promptFor] on a typed line without NUL characters returns the
    line without its newline, cut to [bufferSize - 1] characters, with its
    length, and leaves the input at the start of the next line: what did
    not fit is thrown away. *)
Theorem promptFor_takes_one_line buffer bufferSize s rest :
  (0 < bufferSize)%Z →
  no_newline s →
  no_nul s →
  promptFor buffer bufferSize (mkFILE (s +:+ String newline rest) false) =
  (Z.of_nat (String.length s `min` (Z.to_nat bufferSize - 1)),
   String.substring 0 (Z.to_nat bufferSize - 1) s,
   mkFILE rest false).
Proof.
  intros Hsize Hs Hnul. unfold promptFor.
  rewrite (proj2 (Z.ltb_lt _ _) Hsize).
  unfold fgets. cbn [unread at_eof].
  destruct (decide (String.length s < Z.to_nat bufferSize - 1)) as [Hlt|Hge].
  - rewrite fgets_chars_line by done.
    cbv beta iota zeta. cbn [andb orb feof at_eof unread].
    rewrite c_string_no_nul by by apply no_nul_line.
    rewrite substring_all by lia.
    rewrite trim_newlines_line by done.
    rewrite append_length. cbn [String.length].
    rewrite (proj2 (Nat.eqb_neq _ _)) by lia.
    by rewrite Nat.min_l by lia.
  - destruct (fgets_chars_cut (Z.to_nat bufferSize - 1) s
                (String newline rest) Hs) as (s2 & H & Hs2); [lia|].
    rewrite H.
    cbv beta iota zeta. cbn [andb orb feof at_eof unread].
    rewrite c_string_no_nul by by apply substring_no_nul.
    rewrite trim_newlines_no_newline by by apply substring_no_newline.
    rewrite Nat.eqb_refl, substring_length by lia.
    rewrite promptFor_flush_line by done.
    by rewrite Nat.min_r by lia.
Qed.

(** ** The properties on the sample memories *)

Section samples.
Local Open Scope positive_scope.

(** C1 fails as stated: the list Alien has count 1, and inserting a node
    at position 1 is refused with [ERANGE]. *)
Lemma insertMovie_at_count_refused :
  getCount 4 one_and_spare (Some 1) = Ret 1%Z ∧
  insertMovie 4 one_and_spare (Some 1) (Some 2) 1 =
    Ret (ERANGE, Some 1, one_and_spare).
Proof. split; vm_compute; reflexivity. Qed.

(** Inserting at a position other than 0 into the empty list reads
    through [NULL]. *)
Example insertMovie_empty_list_fault :
  insertMovie 4 one_and_spare NULL (Some 2) 1 = Fault.
Proof. vm_compute. reflexivity. Qed.

(** C1 on the list Alien, Up, Heat: the spare node is inserted at
    position 1. *)
Lemma insertMovie_positions_witness :
  is_list three_and_spare (Some 1) [1; 2; 3] ∧
  ∃ list' m',
    insertMovie 8 three_and_spare (Some 1) (Some 4) 1 = Ret (0%Z, list', m') ∧
    is_list m' list' (insert_at (Z.to_nat 1) 4 [1; 2; 3]) ∧
    insert_at (Z.to_nat 1) 4 [1; 2; 3] !! Z.to_nat 1 = Some 4 ∧
    same_fields three_and_spare m' ∧
    getCount 8 m' list' = Ret (Z.of_nat (length [1; 2; 3]) + 1)%Z.
Proof.
  assert (is_list three_and_spare (Some 1) [1; 2; 3]) as Hl.
  { apply is_list_sound. vm_compute. reflexivity. }
  split; [exact Hl|].
  apply (proj1 (insertMovie_positions 8 three_and_spare (Some 1)
                  [1; 2; 3] 4 (Jaws NULL) 1 Hl
                  ltac:(vm_compute; reflexivity) ltac:(compute_done)
                  ltac:(simpl; lia) ltac:(vm_compute; reflexivity))).
  right. simpl. lia.
Defined.

(** C2, where the code departs from it: with no memory left the copy of Up
    cannot be created and its insertion into the watchlist fails with
    [EINVAL]; the claim wants the library Alien, Up unchanged, but the
    handlers drop the status and unlink Up from the library all the same,
    so that Up is in neither list.  Removing Heat from the watchlist loses
    it in the same way. *)
Theorem handleAddMovie_loses_movie :
  printMovieList 8 exhausted (Some 1) =
    Ret [fields (Alien NULL); fields (Up NULL)] ∧
  (createMovieNode (Some "Up") (Some "Animation") hours_1_6 exhausted).1 = NULL ∧
  appendMovie 8 exhausted (Some 3) NULL = Ret (EINVAL, Some 3, exhausted) ∧
  ('(library, watchlist, m) ←
     handleAddMovie 8 "Up" (Some 1) (Some 3) exhausted [2%Z];
   source ← printMovieList 8 m library;
   destination ← printMovieList 8 m watchlist;
   Ret (source, destination)) =
  Ret ([fields (Alien NULL)], [fields (Heat NULL)]) ∧
  ('(library, watchlist, m) ←
     handleWatchlistMenuOption_RemoveMovie 8 "Heat" (Some 1) (Some 3) exhausted;
   destination ← printMovieList 8 m library;
   Ret (destination, watchlist)) =
  Ret ([fields (Alien NULL); fields (Up NULL)], NULL).
Proof. repeat split; vm_compute; reflexivity. Qed.

(** C5 fails as stated: on the list Alien, [appendMovie] links the node
    after Alien, while [insertMovie] at the count, 1, fails with [ERANGE]
    and leaves the list as it was. *)
Lemma appendMovie_differs_from_insertMovie :
  getCount 4 one_and_spare (Some 1) = Ret 1%Z ∧
  ('(status, list', m) ← appendMovie 4 one_and_spare (Some 1) (Some 2);
   printed ← printMovieList 4 m list';
   Ret (status, printed)) =
  Ret (0%Z, [fields (Alien NULL); fields (Up NULL)]) ∧
  ('(status, list', m) ← insertMovie 4 one_and_spare (Some 1) (Some 2) 1;
   printed ← printMovieList 4 m list';
   Ret (status, printed)) =
  Ret (ERANGE, [fields (Alien NULL)]).
Proof. repeat split; vm_compute; reflexivity. Qed.

(** C5 on the list Alien, Up, Heat and the spare node. *)
Lemma appendMovie_insertMovie_at_count_witness :
  is_list three_and_spare (Some 1) [1; 2; 3] ∧
  ∃ list' m',
    appendMovie 8 three_and_spare (Some 1) (Some 4) = Ret (0%Z, list', m') ∧
    is_list m' list' ([1; 2; 3] ++ [4]) ∧
    same_fields three_and_spare m' ∧
    getCount 8 three_and_spare (Some 1) = Ret (Z.of_nat (length [1; 2; 3])) ∧
    ([1; 2; 3] = [] →
     insertMovie 8 three_and_spare (Some 1) (Some 4)
       (Z.of_nat (length [1; 2; 3])) = Ret (0%Z, list', m')) ∧
    ([1; 2; 3] ≠ [] →
     insertMovie 8 three_and_spare (Some 1) (Some 4)
       (Z.of_nat (length [1; 2; 3])) = Ret (ERANGE, Some 1, three_and_spare)).
Proof.
  assert (is_list three_and_spare (Some 1) [1; 2; 3]) as Hl.
  { apply is_list_sound. vm_compute. reflexivity. }
  split; [exact Hl|].
  apply (appendMovie_insertMovie_at_count 8 three_and_spare (Some 1)
           [1; 2; 3] 4 (Jaws NULL) Hl).
  - vm_compute. reflexivity.
  - compute_done.
  - simpl. lia.
  - vm_compute. discriminate.
Defined.

(** C6 fails as stated: Up is the element at index 1 of the list Alien, Up;
    once it is removed, inserting it back at index 1 fails with [ERANGE]
    and the list stays Alien. *)
Lemma removeMovie_insertMovie_last :
  ('(removed, list1, m1) ← removeMovie 4 two_movies (Some 1) (Some 2);
   '(status, list2, m2) ← insertMovie 4 m1 list1 removed 1;
   printed ← printMovieList 4 m2 list2;
   Ret (removed, status, printed)) =
  Ret (Some 2, ERANGE, [fields (Alien NULL)]).
Proof. vm_compute. reflexivity. Qed.

(** C6 on the list Alien, Up, Heat: Up is removed and inserted back at
    index 1. *)
Lemma removeMovie_insertMovie_roundtrip_witness :
  is_list three_movies (Some 1) ([1] ++ 2 :: [3]) ∧
  ∃ list1 m1,
    removeMovie 8 three_movies (Some 1) (Some 2) = Ret (Some 2, list1, m1) ∧
    is_list m1 list1 ([1] ++ [3]) ∧
    insertMovie 8 m1 list1 (Some 2) (Z.of_nat (length [1])) =
      Ret (0%Z, Some 1, three_movies).
Proof.
  assert (is_list three_movies (Some 1) ([1] ++ 2 :: [3])) as Hl.
  { apply is_list_sound. vm_compute. reflexivity. }
  split; [exact Hl|].
  apply (removeMovie_insertMovie_roundtrip 8 three_movies (Some 1) [1] 2 [3] Hl).
  - by right.
  - simpl. lia.
  - vm_compute. reflexivity.
Defined.

(** C7 fails as stated: for the empty list [computeDuration] returns 0.0
    and reports no error; and the durations 2^53, 1, 1 add up to 2^53 in
    that order and to 2^53 + 2 when 2^53 comes last. *)
Lemma computeDuration_empty_and_order :
  computeDuration 8 three_movies NULL = Ret 0%float ∧
  computeDuration 8 long_and_shorts (Some 1) = Ret 9007199254740992%float ∧
  computeDuration 8 shorts_and_long (Some 1) = Ret 9007199254740994%float.
Proof. repeat split; vm_compute; reflexivity. Qed.

(** C7 on the list Alien, Up, Heat. *)
Lemma computeDuration_sum_witness :
  is_list three_movies (Some 1) [1; 2; 3] ∧
  computeDuration 8 three_movies (Some 1) =
  Ret (fold_left PrimFloat.add (duration_at three_movies <$> [1; 2; 3]) 0%float).
Proof.
  assert (is_list three_movies (Some 1) [1; 2; 3]) as Hl.
  { apply is_list_sound. vm_compute. reflexivity. }
  split; [exact Hl|].
  apply (computeDuration_sum 8 three_movies (Some 1) [1; 2; 3] Hl).
  simpl. lia.
Defined.

(** C8 on the list Alien, Up, Heat: Alien is moved up and Heat is moved
    down. *)
Lemma move_at_boundary_unchanged_witness :
  is_list three_movies (Some 1) [1; 2; 3] ∧
  handleWatchlistMenuOption_MoveMovieUp 8 "Alien" (Some 1) three_movies =
    Ret (Some 1, three_movies) ∧
  handleWatchlistMenuOption_MoveMovieDown 8 "Heat" (Some 1) three_movies =
    Ret (Some 1, three_movies).
Proof.
  assert (is_list three_movies (Some 1) [1; 2; 3]) as Hl.
  { apply is_list_sound. vm_compute. reflexivity. }
  split; [exact Hl|]. split.
  - apply (proj1 (move_at_boundary_unchanged 8 three_movies (Some 1) [1; 2; 3]
                    "Alien" Hl ltac:(simpl; lia)) 1 [2; 3]);
      [reflexivity|vm_compute; reflexivity].
  - apply (proj2 (move_at_boundary_unchanged 8 three_movies (Some 1) [1; 2; 3]
                    "Heat" Hl ltac:(simpl; lia)) [1; 2] 3);
      [reflexivity|vm_compute; reflexivity|].
    intros c Hc. apply elem_of_cons in Hc as [->|Hc]; [vm_compute; discriminate|].
    apply list_elem_of_singleton in Hc. subst c. vm_compute. discriminate.
Defined.

(** C10 fails as stated: the library holds two movies titled Up and the
    file one record titled Up; after the load the watchlist holds Up and
    the library still holds a movie titled Up. *)
Lemma loadMovieWatchlist_duplicate_title :
  printMovieList 8 two_ups (Some 1) =
    Ret [fields (Up NULL); ("Up", "Drama", 2%float)] ∧
  ('(watchlist, library, m) ←
     loadMovieWatchlist 8 [("Up", "Animation", hours_1_6)] (Some 1) two_ups;
   loaded ← printMovieList 8 m watchlist;
   left ← printMovieList 8 m library;
   Ret (loaded, left)) =
  Ret ([fields (Up NULL)], [("Up", "Drama", 2%float)]).
Proof. split; vm_compute; reflexivity. Qed.

(** C10 on the library Alien, Up, Heat and a file with the records Up and
    Jaws. *)
Lemma loadMovieWatchlist_titles_witness :
  is_list three_movies (Some 1) [1; 2; 3] ∧
  ∃ watchlist library' m' W,
    let records := [fields (Up NULL); fields (Jaws NULL)] in
    let loaded := creatable (avail three_movies) records in
    let L' := remove_titles three_movies ((λ r : line, r.1.1) <$> loaded)
                [1; 2; 3] in
    loadMovieWatchlist 8 records (Some 1) three_movies =
      Ret (watchlist, library', m') ∧
    is_list m' watchlist W ∧
    fields_at m' <$> W = Some <$> loaded ∧
    ((length records ≤ avail three_movies)%nat → Forall fits records →
     loaded = records) ∧
    is_list m' library' L' ∧
    (∀ c, c ∈ [1; 2; 3] → fields_at m' c = fields_at three_movies c) ∧
    (NoDup (title_at three_movies <$> [1; 2; 3]) →
     ∀ w c, w ∈ W → c ∈ L' → title_at m' w ≠ title_at m' c).
Proof.
  assert (is_list three_movies (Some 1) [1; 2; 3]) as Hl.
  { apply is_list_sound. vm_compute. reflexivity. }
  split; [exact Hl|].
  apply (loadMovieWatchlist_titles 8 three_movies (Some 1) [1; 2; 3]
           [fields (Up NULL); fields (Jaws NULL)] Hl); simpl; lia.
Defined.

(** What that load does: Up leaves the library, Jaws is not in it. *)
Example loadMovieWatchlist_sample :
  ('(watchlist, library, m) ←
     loadMovieWatchlist 8 [fields (Up NULL); fields (Jaws NULL)] (Some 1)
       three_movies;
   loaded ← printMovieList 8 m watchlist;
   left ← printMovieList 8 m library;
   Ret (loaded, left)) =
  Ret ([fields (Up NULL); fields (Jaws NULL)],
       [fields (Alien NULL); fields (Heat NULL)]).
Proof. vm_compute. reflexivity. Qed.

(** The scenario of the specification: moving Up up in Alien, Up. *)
Example MoveMovieUp_second_of_two :
  ('(watchlist, m) ←
     handleWatchlistMenuOption_MoveMovieUp 4 "Up" (Some 1) two_movies;
   printMovieList 4 m watchlist) =
  Ret [fields (Up NULL); fields (Alien NULL)].
Proof. vm_compute. reflexivity. Qed.

(** C3, where the code departs from it: moving Heat up in Alien, Up, Heat
    should give Alien, Heat, Up, and moving Up down should give the same;
    both leave the list Alien, Up, and Heat is no longer reachable from the
    watchlist, because the [next] link of the node before the swapped pair
    is not updated. *)
Theorem MoveMovie_beyond_head_drops_a_movie :
  ('(watchlist, m) ←
     handleWatchlistMenuOption_MoveMovieUp 8 "Heat" (Some 1) three_movies;
   printMovieList 8 m watchlist) =
  Ret [fields (Alien NULL); fields (Up NULL)] ∧
  ('(watchlist, m) ←
     handleWatchlistMenuOption_MoveMovieDown 8 "Up" (Some 1) three_movies;
   printMovieList 8 m watchlist) =
  Ret [fields (Alien NULL); fields (Up NULL)].
Proof. split; vm_compute; reflexivity. Qed.

(** C4, where the code departs from it: Up is at index 1 of Alien, Up and
    [getNodePosition] answers 0, because the loop never increments
    [index]. *)
Theorem getNodePosition_second_is_0 :
  getNodePosition 4 two_movies (Some 1) (Some "Up") = Ret 0%Z.
Proof. vm_compute. reflexivity. Qed.

(** C9, where the code departs from it: removing the head of Alien, Up
    returns the node of Alien with its [next] link still pointing to Up,
    while removing Up, which is not the head, returns its node with the
    link cleared. *)
Theorem removeMovie_head_keeps_link :
  ('(removed, list', m) ← removeMovie 4 two_movies (Some 1) (Some 1);
   node ← deref m removed;
   Ret (removed, list', next node)) =
  Ret (Some 1, Some 2, Some 2) ∧
  ('(removed, list', m) ← removeMovie 4 three_movies (Some 1) (Some 2);
   node ← deref m removed;
   Ret (removed, list', next node)) =
  Ret (Some 2, Some 1, NULL).
Proof. split; vm_compute; reflexivity. Qed.

End samples.

(** ** Further properties on the sample memories *)

Section more_samples.
Local Open Scope positive_scope.

(** Deciding a property of every address of a short list. *)
Local Ltac each_address :=
  apply Forall_forall; repeat constructor;
  first [compute_done | (vm_compute; discriminate)].

Local Ltac sample_list := apply is_list_sound; vm_compute; reflexivity.

(** X1 on the list Alien, Up, Heat. *)
Lemma getCount_is_length_witness :
  is_list three_movies (Some 1) [1; 2; 3] ∧
  getCount 8 three_movies (Some 1) = Ret (Z.of_nat (length [1; 2; 3])).
Proof.
  assert (is_list three_movies (Some 1) [1; 2; 3]) as Hl by sample_list.
  split; [exact Hl|].
  apply (getCount_is_length 8 three_movies (Some 1) [1; 2; 3] Hl);
    [simpl; lia|vm_compute; discriminate].
Defined.

(** X2 on the list Alien, Up, Heat and the title Up. *)
Lemma searchByTitle_first_match_witness :
  is_list three_movies (Some 1) [1; 2; 3] ∧
  searchByTitle 8 three_movies (Some 1) (Some "Up") =
    Ret (first_titled three_movies "Up" [1; 2; 3]).
Proof.
  assert (is_list three_movies (Some 1) [1; 2; 3]) as Hl by sample_list.
  split; [exact Hl|].
  apply (searchByTitle_first_match 8 three_movies (Some 1) [1; 2; 3] "Up" Hl).
  simpl; lia.
Defined.

(** X3 on the list Alien, Up, Heat and the title Heat. *)
Lemma getNodePosition_zero_or_minus_one_witness :
  is_list three_movies (Some 1) [1; 2; 3] ∧
  getNodePosition 8 three_movies (Some 1) (Some "Heat") =
    Ret (if first_titled three_movies "Heat" [1; 2; 3] is Some _
         then 0%Z else (-1)%Z).
Proof.
  assert (is_list three_movies (Some 1) [1; 2; 3]) as Hl by sample_list.
  split; [exact Hl|].
  apply (getNodePosition_zero_or_minus_one 8 three_movies (Some 1) [1; 2; 3]
           "Heat" Hl).
  simpl; lia.
Defined.

(** X4 on the list Alien, Up, Heat. *)
Lemma printMovieList_in_order_witness :
  is_list three_movies (Some 1) [1; 2; 3] ∧
  ∃ printed,
    printMovieList 8 three_movies (Some 1) = Ret printed ∧
    Some <$> printed = fields_at three_movies <$> [1; 2; 3].
Proof.
  assert (is_list three_movies (Some 1) [1; 2; 3]) as Hl by sample_list.
  split; [exact Hl|].
  apply (printMovieList_in_order 8 three_movies (Some 1) [1; 2; 3] Hl).
  simpl; lia.
Defined.

(** X5 on the list Alien, Up, Heat: Up is removed. *)
Lemma removeMovie_of_element_witness :
  is_list three_movies (Some 1) ([1] ++ 2 :: [3]) ∧
  ∃ list' m',
    removeMovie 8 three_movies (Some 1) (Some 2) = Ret (Some 2, list', m') ∧
    is_list m' list' ([1] ++ [3]) ∧
    same_fields three_movies m' ∧
    (∀ c, c ∉ ([1] ++ 2 :: [3])%list → cells m' !! c = cells three_movies !! c).
Proof.
  assert (is_list three_movies (Some 1) ([1] ++ 2 :: [3])) as Hl by sample_list.
  split; [exact Hl|].
  apply (removeMovie_of_element 8 three_movies (Some 1) [1] 2 [3] Hl).
  simpl; lia.
Defined.

(** X6 on the list Alien, Up, Heat and the spare node. *)
Lemma removeMovie_of_stranger_witness :
  is_list three_and_spare (Some 1) [1; 2; 3] ∧
  removeMovie 8 three_and_spare (Some 1) (Some 4) =
    Ret (NULL, Some 1, three_and_spare).
Proof.
  assert (is_list three_and_spare (Some 1) [1; 2; 3]) as Hl by sample_list.
  split; [exact Hl|].
  apply (removeMovie_of_stranger 8 three_and_spare (Some 1) [1; 2; 3] 4 Hl);
    [compute_done|simpl; lia].
Defined.

(** X7 on the list Alien, Up, Heat and the spare node. *)
Lemma appendMovie_links_last_witness :
  is_list three_and_spare (Some 1) [1; 2; 3] ∧
  ∃ list' m',
    appendMovie 8 three_and_spare (Some 1) (Some 4) = Ret (0%Z, list', m') ∧
    is_list m' list' ([1; 2; 3] ++ [4]) ∧
    same_fields three_and_spare m' ∧
    (∀ c, c ∉ ([1; 2; 3] ++ [4])%list → cells m' !! c = cells three_and_spare !! c).
Proof.
  assert (is_list three_and_spare (Some 1) [1; 2; 3]) as Hl by sample_list.
  split; [exact Hl|].
  apply (appendMovie_links_last 8 three_and_spare (Some 1) [1; 2; 3] 4
           (Jaws NULL) Hl); [vm_compute; reflexivity|compute_done|simpl; lia].
Defined.

(** X8 on the list Alien, Up, Heat: Up is moved up. *)
Lemma MoveMovieUp_swaps_with_head_witness :
  is_list three_movies (Some 1) [1; 2; 3] ∧
  ∃ m',
    handleWatchlistMenuOption_MoveMovieUp 8 "Up" (Some 1) three_movies =
      Ret (Some 2, m') ∧
    is_list m' (Some 2) [2; 1; 3] ∧ same_fields three_movies m'.
Proof.
  assert (is_list three_movies (Some 1) [1; 2; 3]) as Hl by sample_list.
  split; [exact Hl|].
  apply (MoveMovieUp_swaps_with_head 8 three_movies 1 2 [3] "Up" Hl);
    [vm_compute; discriminate|vm_compute; reflexivity|lia].
Defined.

(** X9 on the list Alien, Up, Heat: Alien is moved down. *)
Lemma MoveMovieDown_swaps_head_witness :
  is_list three_movies (Some 1) [1; 2; 3] ∧
  ∃ m',
    handleWatchlistMenuOption_MoveMovieDown 8 "Alien" (Some 1) three_movies =
      Ret (Some 2, m') ∧
    is_list m' (Some 2) [2; 1; 3] ∧ same_fields three_movies m'.
Proof.
  assert (is_list three_movies (Some 1) [1; 2; 3]) as Hl by sample_list.
  split; [exact Hl|].
  apply (MoveMovieDown_swaps_head 8 three_movies 1 2 [3] "Alien" Hl);
    [vm_compute; reflexivity|lia].
Defined.

(** X10 on the list Alien, Up, Heat: Heat is moved up. *)
Lemma MoveMovieUp_unlinks_later_witness :
  is_list three_movies (Some 1) ([] ++ 1 :: 2 :: 3 :: []) ∧
  ∃ m',
    handleWatchlistMenuOption_MoveMovieUp 8 "Heat" (Some 1) three_movies =
      Ret (Some 1, m') ∧
    is_list m' (Some 1) ([] ++ 1 :: 2 :: []) ∧ same_fields three_movies m'.
Proof.
  assert (is_list three_movies (Some 1) ([] ++ 1 :: 2 :: 3 :: [])) as Hl
    by sample_list.
  split; [exact Hl|].
  apply (MoveMovieUp_unlinks_later 8 three_movies (Some 1) [] 1 2 3 [] "Heat" Hl);
    [each_address|vm_compute; reflexivity|simpl; lia].
Defined.

(** X11 on the list Alien, Up, Heat: Up is moved down. *)
Lemma MoveMovieDown_unlinks_successor_witness :
  is_list three_movies (Some 1) ([] ++ 1 :: 2 :: 3 :: []) ∧
  ∃ m',
    handleWatchlistMenuOption_MoveMovieDown 8 "Up" (Some 1) three_movies =
      Ret (Some 1, m') ∧
    is_list m' (Some 1) ([] ++ 1 :: 2 :: []) ∧ same_fields three_movies m'.
Proof.
  assert (is_list three_movies (Some 1) ([] ++ 1 :: 2 :: 3 :: [])) as Hl
    by sample_list.
  split; [exact Hl|].
  apply (MoveMovieDown_unlinks_successor 8 three_movies (Some 1) [] 1 2 3 []
           "Up" Hl); [each_address|vm_compute; reflexivity|simpl; lia].
Defined.

(** X14 on the library Alien, Up and the watchlist Heat: Up is inserted at
    position 1 of the watchlist. *)
Lemma handleAddMovieMenuOption_moves_copy_witness :
  is_list two_lists (Some 1) ([1] ++ 2 :: []) ∧
  is_list two_lists (Some 3) [3] ∧
  ∃ x library' watchlist' m',
    handleAddMovieMenuOption 8 InsertWithin (Some 2) (Some 1) (Some 3) two_lists
      [1%Z] = Ret (library', watchlist', m') ∧
    cells two_lists !! x = None ∧
    fields_at m' x = Some (fields (Up NULL)) ∧
    is_list m' watchlist' (added InsertWithin 1%Z x [3]) ∧
    is_list m' library' ([1] ++ []) ∧
    (∀ c, is_Some (cells two_lists !! c) → fields_at m' c = fields_at two_lists c).
Proof.
  assert (is_list two_lists (Some 1) ([1] ++ 2 :: [])) as HL by sample_list.
  assert (is_list two_lists (Some 3) [3]) as HW by sample_list.
  split; [exact HL|]. split; [exact HW|].
  apply (handleAddMovieMenuOption_moves_copy 8 two_lists (Some 1) (Some 3)
           [1] 2 [] [3] (Up NULL) InsertWithin 1%Z [] [1%Z] HL HW).
  - each_address.
  - vm_compute. reflexivity.
  - vm_compute. lia.
  - vm_compute. lia.
  - vm_compute. lia.
  - intros _. vm_compute. reflexivity.
  - simpl. lia.
  - simpl. lia.
  - vm_compute. reflexivity.
Defined.

(** X15 on the watchlist Alien, Up and the library Heat: Up goes back to
    the library. *)
Lemma RemoveMovie_moves_copy_witness :
  is_list two_lists (Some 1) ([1] ++ 2 :: []) ∧
  is_list two_lists (Some 3) [3] ∧
  ∃ x library' watchlist' m',
    handleWatchlistMenuOption_RemoveMovie 8 "Up" (Some 3) (Some 1) two_lists =
      Ret (library', watchlist', m') ∧
    cells two_lists !! x = None ∧
    fields_at m' x = Some (fields (Up NULL)) ∧
    is_list m' watchlist' ([1] ++ []) ∧
    is_list m' library' ([3] ++ [x]) ∧
    (∀ c, is_Some (cells two_lists !! c) → fields_at m' c = fields_at two_lists c).
Proof.
  assert (is_list two_lists (Some 1) ([1] ++ 2 :: [])) as HW by sample_list.
  assert (is_list two_lists (Some 3) [3]) as HL by sample_list.
  split; [exact HW|]. split; [exact HL|].
  apply (RemoveMovie_moves_copy 8 two_lists (Some 3) (Some 1) [1] 2 [] [3]
           (Up NULL) "Up" HW HL).
  - each_address.
  - vm_compute. reflexivity.
  - reflexivity.
  - each_address.
  - vm_compute. lia.
  - vm_compute. lia.
  - vm_compute. lia.
  - simpl. lia.
  - simpl. lia.
Defined.

(** X16 on the list Alien, Up, Heat and the title Jaws. *)
Lemma absent_title_changes_nothing_witness :
  is_list three_movies (Some 1) [1; 2; 3] ∧
  (∀ watchlist stdin,
     handleAddMovie 8 "Jaws" (Some 1) watchlist three_movies stdin =
     Ret (Some 1, watchlist, three_movies)) ∧
  handleWatchlistMenuOption_MoveMovieUp 8 "Jaws" (Some 1) three_movies =
    Ret (Some 1, three_movies) ∧
  handleWatchlistMenuOption_MoveMovieDown 8 "Jaws" (Some 1) three_movies =
    Ret (Some 1, three_movies) ∧
  (∀ library,
     handleWatchlistMenuOption_RemoveMovie 8 "Jaws" library (Some 1) three_movies =
     Ret (library, Some 1, three_movies)).
Proof.
  assert (is_list three_movies (Some 1) [1; 2; 3]) as Hl by sample_list.
  split; [exact Hl|].
  apply (absent_title_changes_nothing 8 three_movies (Some 1) [1; 2; 3] "Jaws"
           ltac:(simpl; lia) Hl);
    [each_address|simpl; lia].
Defined.

(** X17 on the library Alien, Up, Heat and an empty watchlist. *)
Lemma InsertWithin_empty_watchlist_never_returns_witness :
  cells three_movies !! 2 = Some (Up (Some 3)) ∧
  handleAddMovieMenuOption 8 InsertWithin (Some 2) (Some 1) NULL three_movies
    [1%Z; 0%Z; 2%Z] = Timeout.
Proof.
  assert (cells three_movies !! 2 = Some (Up (Some 3))) as H
    by (vm_compute; reflexivity).
  split; [exact H|].
  apply (InsertWithin_empty_watchlist_never_returns 8 three_movies 2
           (Up (Some 3)) (Some 1) [1%Z; 0%Z; 2%Z] H).
Defined.

(** X19 on the list Alien, Up, Heat: Up is deleted. *)
Lemma deleteMovie_of_element_witness :
  is_list three_movies (Some 1) ([1] ++ 2 :: [3]) ∧
  ∃ list' m',
    deleteMovie 8 three_movies (Some 1) (Some 2) = Ret (0%Z, list', m') ∧
    is_list m' list' ([1] ++ [3]) ∧
    cells m' !! 2 = None ∧
    (∀ c, c ≠ 2 → fields_at m' c = fields_at three_movies c) ∧
    (∀ c, c ∉ ([1] ++ 2 :: [3])%list → cells m' !! c = cells three_movies !! c).
Proof.
  assert (is_list three_movies (Some 1) ([1] ++ 2 :: [3])) as Hl by sample_list.
  split; [exact Hl|].
  apply (deleteMovie_of_element 8 three_movies (Some 1) [1] 2 [3] Hl).
  simpl; lia.
Defined.

(** X20 on the list Alien, Up, Heat and the spare node. *)
Lemma deleteList_releases_the_list_witness :
  is_list three_and_spare (Some 1) [1; 2; 3] ∧
  ∃ m',
    deleteList 8 three_and_spare (Some 1) =
      Ret (if decide ([1; 2; 3] = []) then (-1)%Z else 0%Z, m') ∧
    (∀ c, cells m' !! c =
          if decide (c ∈ [1; 2; 3]) then None else cells three_and_spare !! c) ∧
    avail m' = (length [1; 2; 3] + avail three_and_spare)%nat ∧
    errno m' = errno three_and_spare.
Proof.
  assert (is_list three_and_spare (Some 1) [1; 2; 3]) as Hl by sample_list.
  split; [exact Hl|].
  apply (deleteList_releases_the_list 8 three_and_spare (Some 1) [1; 2; 3] Hl).
  simpl; lia.
Defined.

(** X21 on a file with the records Up and Jaws. *)
Lemma loadMovieLibrary_loads_all_witness :
  ∃ library m' L,
    loadMovieLibrary 8 [fields (Up NULL); fields (Jaws NULL)] three_movies =
      Ret (library, m') ∧
    is_list m' library L ∧
    fields_at m' <$> L = Some <$> [fields (Up NULL); fields (Jaws NULL)] ∧
    (∀ c, is_Some (cells three_movies !! c) →
          cells m' !! c = cells three_movies !! c).
Proof.
  apply (loadMovieLibrary_loads_all 8 three_movies
           [fields (Up NULL); fields (Jaws NULL)]).
  - repeat constructor; vm_compute; lia.
  - vm_compute. lia.
  - simpl. lia.
Defined.

(** X22 with memory left for one node and a file with the records Up and
    Jaws. *)
Lemma loadMovieLibrary_failure_releases_witness :
  ∃ library code,
    loadMovieLibrary 8 ([fields (Up NULL)] ++ fields (Jaws NULL) :: []) one_left =
      Ret (library, set_errno one_left code) ∧
    (code = ERANGE ∧ ¬ fits (fields (Jaws NULL)) ∨
     code = ENOMEM ∧ fits (fields (Jaws NULL))) ∧
    ([fields (Up NULL)] = [] ∧ library = NULL ∨
     [fields (Up NULL)] ≠ [] ∧ ∃ x, library = Some x ∧ cells one_left !! x = None).
Proof.
  apply (loadMovieLibrary_failure_releases 8 one_left [fields (Up NULL)]
           (fields (Jaws NULL)) []).
  - repeat constructor; vm_compute; lia.
  - vm_compute. lia.
  - right. vm_compute. reflexivity.
  - simpl. lia.
Defined.

End more_samples.

Section text_samples.
Local Open Scope positive_scope.

Local Ltac sample_list := apply is_list_sound; vm_compute; reflexivity.

Local Ltac sample_lines :=
  repeat (apply Forall_cons; split; [vm_compute; repeat split; lia|]);
  apply Forall_nil_2.

(** X23 on the list Alien, Up. *)
Lemma saveMovieWatchlist_writes_records_witness :
  is_list two_movies (Some 1) [1; 2] ∧
  ∃ F,
    Some <$> F = fields_at two_movies <$> [1; 2] ∧
    saveMovieWatchlist two_decimals 8 two_movies (Some 1) =
      Ret (0%Z, layout (written two_decimals <$> F)).
Proof.
  assert (is_list two_movies (Some 1) [1; 2]) as Hl by sample_list.
  split; [exact Hl|].
  apply (saveMovieWatchlist_writes_records two_decimals 8 two_movies (Some 1)
           [1; 2] Hl).
  simpl; lia.
Defined.

(** X25 on a file of two records, the library being Alien, Up. *)
Lemma loaders_on_complete_file_witness :
  Forall short_lines
    ([("Alien", "Sci-Fi", "1.50")] ++ [("Up", "Animation", "1.60")])%list ∧
  Forall c_lines
    ([("Alien", "Sci-Fi", "1.50")] ++ [("Up", "Animation", "1.60")])%list ∧
  is_list two_movies (Some 1) [1; 2] ∧
  (∃ loaded m' N,
     loadMovieLibrary_text leading_number 4 8 two_records two_movies =
       Ret (loaded, m') ∧
     is_list m' loaded N ∧
     fields_at m' <$> N =
       Some <$> ((decoded leading_number <$> [("Alien", "Sci-Fi", "1.50")]) ++
                 [("Up", "Animation", leading_number "1.60")])%list ∧
     (∀ c, is_Some (cells two_movies !! c) →
           cells m' !! c = cells two_movies !! c)) ∧
  (∃ watchlist library' m' W,
     loadMovieWatchlist_text leading_number 4 8 two_records (Some 1)
       two_movies = Ret (watchlist, library', m') ∧
     is_list m' watchlist W ∧
     fields_at m' <$> W =
       Some <$> ((decoded leading_number <$> [("Alien", "Sci-Fi", "1.50")]) ++
                 [("Up", "Animation", leading_number "1.60")])%list ∧
     is_list m' library'
       (remove_titles two_movies
          ((λ r : line, r.1.1) <$>
             ((decoded leading_number <$> [("Alien", "Sci-Fi", "1.50")]) ++
              [("Up", "Animation", leading_number "1.60")])%list)
          [1; 2]) ∧
     (∀ c, c ∈ [1; 2] → fields_at m' c = fields_at two_movies c)).
Proof.
  assert (Forall short_lines
            ([("Alien", "Sci-Fi", "1.50")] ++
             [("Up", "Animation", "1.60")])%list) as HL by sample_lines.
  assert (Forall c_lines
            ([("Alien", "Sci-Fi", "1.50")] ++
             [("Up", "Animation", "1.60")])%list) as HC by sample_lines.
  assert (is_list two_movies (Some 1) [1; 2]) as Hl by sample_list.
  split; [exact HL|]. split; [exact HC|]. split; [exact Hl|].
  apply (loaders_on_complete_file leading_number 4 8
           [("Alien", "Sci-Fi", "1.50")] "Up" "Animation" "1.60" (Some 1)
           [1; 2] two_movies HL HC);
    [discriminate|exact Hl|simpl; lia..].
Defined.

(** X26 on the same file with a newline at its end: the further node is
    titled U. *)
Lemma loaders_on_trailing_newline_witness :
  Forall short_lines
    ([("Alien", "Sci-Fi", "1.50")] ++ [("Up", "Animation", "1.60")])%list ∧
  Forall c_lines
    ([("Alien", "Sci-Fi", "1.50")] ++ [("Up", "Animation", "1.60")])%list ∧
  is_list two_movies (Some 1) [1; 2] ∧
  (∃ loaded m' N,
     loadMovieLibrary_text leading_number 5 8
       (two_records +:+ String newline "") two_movies = Ret (loaded, m') ∧
     is_list m' loaded N ∧
     fields_at m' <$> N =
       Some <$> ((decoded leading_number <$>
                    ([("Alien", "Sci-Fi", "1.50")] ++
                     [("Up", "Animation", "1.60")])%list) ++
                 [("U", "Animatio",
                   leading_number ("1.60" +:+ String newline ""))])%list ∧
     (∀ c, is_Some (cells two_movies !! c) →
           cells m' !! c = cells two_movies !! c)) ∧
  (∃ watchlist library' m' W,
     loadMovieWatchlist_text leading_number 5 8
       (two_records +:+ String newline "") (Some 1) two_movies =
       Ret (watchlist, library', m') ∧
     is_list m' watchlist W ∧
     fields_at m' <$> W =
       Some <$> ((decoded leading_number <$>
                    ([("Alien", "Sci-Fi", "1.50")] ++
                     [("Up", "Animation", "1.60")])%list) ++
                 [("U", "Animatio",
                   leading_number ("1.60" +:+ String newline ""))])%list ∧
     is_list m' library'
       (remove_titles two_movies
          ((λ r : line, r.1.1) <$>
             ((decoded leading_number <$>
                 ([("Alien", "Sci-Fi", "1.50")] ++
                  [("Up", "Animation", "1.60")])%list) ++
              [("U", "Animatio",
                leading_number ("1.60" +:+ String newline ""))])%list)
          [1; 2]) ∧
     (∀ c, c ∈ [1; 2] → fields_at m' c = fields_at two_movies c)).
Proof.
  assert (Forall short_lines
            ([("Alien", "Sci-Fi", "1.50")] ++
             [("Up", "Animation", "1.60")])%list) as HL by sample_lines.
  assert (Forall c_lines
            ([("Alien", "Sci-Fi", "1.50")] ++
             [("Up", "Animation", "1.60")])%list) as HC by sample_lines.
  assert (is_list two_movies (Some 1) [1; 2]) as Hl by sample_list.
  split; [exact HL|]. split; [exact HC|]. split; [exact Hl|].
  apply (loaders_on_trailing_newline leading_number 5 8
           [("Alien", "Sci-Fi", "1.50")] "Up" "Animation" "1.60" (Some 1)
           [1; 2] two_movies HL HC);
    [discriminate|discriminate|exact Hl|simpl; lia..].
Defined.


(** X28 on a file that holds one line. *)
Lemma loaders_on_short_file_witness :
  loadMovieLibrary_text leading_number 4 8
    ("Alien" +:+ String newline "") two_movies = Fault ∧
  loadMovieWatchlist_text leading_number 4 8
    ("Alien" +:+ String newline "") (Some 1) two_movies = Fault.
Proof.
  apply (loaders_on_short_file leading_number 4 8 "Alien"
           (String newline "") (Some 1) two_movies);
    [vm_compute; exact I|simpl; lia|by right|lia].
Defined.

(** X29 on a line of nine characters and an array of five. *)
Lemma promptFor_takes_one_line_witness :
  promptFor "" 5 (mkFILE ("Inception" +:+ String newline "2") false) =
  (4%Z, "Ince", mkFILE "2" false).
Proof.
  apply (promptFor_takes_one_line "" 5 "Inception" "2");
    [lia|vm_compute; exact I|vm_compute; exact I].
Defined.

End text_samples.
